(** * gin-admin: the casbin policy compiler and hot-reload loop

    A shallow embedding of [internal/mods/rbac/main.go] (type [Casbinx]:
    [GetEnforcer], [Load], [load], [queryRoleResources], [autoLoad]), of the
    data-access queries it calls ([dal.Role.Query], [dal.Menu.Query],
    [dal.MenuResource.Query]) and of the casbin middleware
    ([pkg/middleware/casbin.go]).  A second part of the model covers the
    code around them: the authentication middleware and
    [Login.ParseUserID], which provide the subjects of the casbin
    middleware, the memory cache behind [cachex.Cacher], the writer of
    the change signal, [RBAC.Init], and [SplitParentIDs], [ToMap] and
    [ToTree] of [schema.Menus].

    Go strings are byte strings and are modelled by [string]; slices by
    [list]; Go maps used as sets by [gset]; the cache and the file system by
    [gmap].  Calls into external collaborators (database driver, operating
    system, casbin, logger) are recorded as events of a trace, and their
    possible failures are supplied by an environment. *)

From Stdlib Require Import ZArith Ascii String List.
From stdpp Require Import base decidable option list gmap strings sorting.

#[local] Set Warnings "-clear-no-such-hyp".

Local Open Scope string_scope.
Local Open Scope list_scope.
Local Open Scope Z_scope.

(** ** Strings *)

Module Strings.

(** [strings.Split(s, sep)] for a one-byte separator: the pieces between
    the separators, [n+1] pieces for [n] separators; [Split("", sep)] is
    the one-element slice holding the empty string. *)
Fixpoint Split (s : string) (sep : ascii) : list string :=
  match s with
  | EmptyString => [EmptyString]
  | String c s' =>
      if Ascii.eqb c sep then EmptyString :: Split s' sep
      else match Split s' sep with
           | [] => [String c EmptyString]
           | h :: t => String c h :: t
           end
  end.

(** [len(s) > 0] *)
Definition nonempty (s : string) : bool :=
  match s with EmptyString => false | String _ _ => true end.

(** Concatenation of a list of strings, as successive writes to one
    [bytes.Buffer] produce. *)
Definition concat (l : list string) : string :=
  foldr String.append EmptyString l.

Definition newline : string := String (ascii_of_nat 10) EmptyString.

End Strings.

(** ** package util *)

Module util.
(** [util.TreePathDelimiter = "."] *)
Definition TreePathDelimiter : ascii := "."%char.
End util.

(** ** package schema: the rows of the four tables *)

Module schema.

Definition RoleStatusEnabled : string := "enabled".
Definition MenuStatusEnabled : string := "enabled".

Record Role := mkRole {
  Role_ID : string;
  Role_Status : string
}.

Record Menu := mkMenu {
  Menu_ID : string;
  Menu_Status : string;
  Menu_ParentID : string;
  Menu_ParentPath : string
}.

Record RoleMenu := mkRoleMenu {
  RoleMenu_RoleID : string;
  RoleMenu_MenuID : string
}.

Record MenuResource := mkMenuResource {
  MenuResource_ID : string;
  MenuResource_MenuID : string;
  MenuResource_Method : string;
  MenuResource_Path : string
}.

(** The filters of [RoleQueryParam], [MenuQueryParam] and
    [MenuResourceQueryParam] that select rows by equality or membership.
    The zero value of a field (empty string, empty slice) switches its
    filter off.  The [LIKE] filters, the user filter and the pagination
    fields are left at their zero value by every caller in [Casbinx] and
    are not represented. *)
Record RoleQueryParam := mkRoleQueryParam {
  RoleQueryParam_InIDs : list string;
  RoleQueryParam_Status : string
}.

Record MenuQueryParam := mkMenuQueryParam {
  MenuQueryParam_InIDs : list string;
  MenuQueryParam_Status : string;
  MenuQueryParam_ParentID : string;
  MenuQueryParam_RoleID : string
}.

Record MenuResourceQueryParam := mkMenuResourceQueryParam {
  MenuResourceQueryParam_MenuID : string;
  MenuResourceQueryParam_MenuIDs : list string
}.

#[global] Instance Role_eq_dec : EqDecision Role.
Proof. solve_decision. Defined.
#[global] Instance Menu_eq_dec : EqDecision Menu.
Proof. solve_decision. Defined.
#[global] Instance RoleMenu_eq_dec : EqDecision RoleMenu.
Proof. solve_decision. Defined.
#[global] Instance MenuResource_eq_dec : EqDecision MenuResource.
Proof. solve_decision. Defined.
#[global] Instance RoleQueryParam_eq_dec : EqDecision RoleQueryParam.
Proof. solve_decision. Defined.
#[global] Instance MenuQueryParam_eq_dec : EqDecision MenuQueryParam.
Proof. solve_decision. Defined.
#[global] Instance MenuResourceQueryParam_eq_dec : EqDecision MenuResourceQueryParam.
Proof. solve_decision. Defined.

End schema.
Import schema.

(** ** The database: four tables, rows in storage order *)

Record DB := mkDB {
  tbl_role : list Role;
  tbl_menu : list Menu;
  tbl_role_menu : list RoleMenu;
  tbl_menu_resource : list MenuResource
}.

Definition error : Type := string.

(** A Go result pair [(value, err)] in which the value is meaningful only
    when [err == nil]. *)
Inductive result (A : Type) : Type :=
| Ok (a : A)
| Err (e : error).
Arguments Ok {A} a.
Arguments Err {A} e.

#[global] Instance result_eq_dec {A} `{EqDecision A} : EqDecision (result A).
Proof. solve_decision. Defined.

(** ** package dal: the WHERE clauses *)

Module dal.

(** [len(v) > 0] guards of the query builders: a filter on a string. *)
Definition where_str (v : string) (P : bool) : bool :=
  if Strings.nonempty v then P else true.

(** ... and on a slice. *)
Definition where_ids (v : list string) (P : bool) : bool :=
  match v with [] => true | _ :: _ => P end.

(** [dal.Role.Query]: [id IN (?)], [status = ?]. *)
Definition Role_where (p : RoleQueryParam) (r : Role) : bool :=
  where_ids (RoleQueryParam_InIDs p)
            (bool_decide (Role_ID r ∈ RoleQueryParam_InIDs p))
  && where_str (RoleQueryParam_Status p)
               (bool_decide (Role_Status r = RoleQueryParam_Status p)).

(** The sub-select [SELECT menu_id FROM role_menu WHERE role_id = ?]. *)
Definition roleMenuQuery (db : DB) (roleID : string) : list string :=
  map RoleMenu_MenuID
      (filter (λ rm, RoleMenu_RoleID rm = roleID) (tbl_role_menu db)).

(** [dal.Menu.Query]: [id IN ?], [status = ?], [parent_id = ?] and
    [id IN (roleMenuQuery)]. *)
Definition Menu_where (db : DB) (p : MenuQueryParam) (m : Menu) : bool :=
  where_ids (MenuQueryParam_InIDs p)
            (bool_decide (Menu_ID m ∈ MenuQueryParam_InIDs p))
  && where_str (MenuQueryParam_Status p)
               (bool_decide (Menu_Status m = MenuQueryParam_Status p))
  && where_str (MenuQueryParam_ParentID p)
               (bool_decide (Menu_ParentID m = MenuQueryParam_ParentID p))
  && where_str (MenuQueryParam_RoleID p)
               (bool_decide (Menu_ID m ∈ roleMenuQuery db (MenuQueryParam_RoleID p))).

(** [dal.MenuResource.Query]: [menu_id = ?], [menu_id IN ?]. *)
Definition MenuResource_where (p : MenuResourceQueryParam) (r : MenuResource) : bool :=
  where_str (MenuResourceQueryParam_MenuID p)
            (bool_decide (MenuResource_MenuID r = MenuResourceQueryParam_MenuID p))
  && where_ids (MenuResourceQueryParam_MenuIDs p)
               (bool_decide (MenuResource_MenuID r ∈ MenuResourceQueryParam_MenuIDs p)).

(** [SelectFields: []string{"id"}]: the other columns come back as zero
    values. *)
Definition Role_select_id (r : Role) : Role :=
  {| Role_ID := Role_ID r; Role_Status := "" |}.

(** [SelectFields: []string{"id", "parent_id", "parent_path"}]. *)
Definition Menu_select_path (m : Menu) : Menu :=
  {| Menu_ID := Menu_ID m; Menu_Status := "";
     Menu_ParentID := Menu_ParentID m; Menu_ParentPath := Menu_ParentPath m |}.

Definition Role_rows (db : DB) (p : RoleQueryParam) : list Role :=
  filter (λ r, Is_true (Role_where p r)) (tbl_role db).

Definition Menu_rows (db : DB) (p : MenuQueryParam) : list Menu :=
  filter (λ m, Is_true (Menu_where db p m)) (tbl_menu db).

Definition MenuResource_rows (db : DB) (p : MenuResourceQueryParam) : list MenuResource :=
  filter (λ r, Is_true (MenuResource_where p r)) (tbl_menu_resource db).

End dal.

(** ** The id-collection loop of [queryRoleResources]

    The loop state is the pair [(menuIDs, menuIDMapper)]. *)

Definition idAcc : Type := list string * gset string.

(** The inner loop body, for one [pid] of [strings.Split(pp, ".")]. *)
Definition scan_pid (acc : idAcc) (pid : string) : idAcc :=
  if Strings.nonempty pid then
    if decide (pid ∈ acc.2) then acc
    else (acc.1 ++ [pid], {[pid]} ∪ acc.2)
  else acc.

(** The outer loop body, for one [item] of [menuResult.Data]. *)
Definition scan_menu (acc : idAcc) (item : Menu) : idAcc :=
  if decide (Menu_ID item ∈ acc.2) then acc
  else
    let acc1 := (acc.1 ++ [Menu_ID item], {[Menu_ID item]} ∪ acc.2) in
    if Strings.nonempty (Menu_ParentPath item) then
      foldl scan_pid acc1 (Strings.Split (Menu_ParentPath item) util.TreePathDelimiter)
    else acc1.

Definition collectMenuIDs (data : list Menu) : list string :=
  (foldl scan_menu ([], ∅) data).1.

(** ** casbin, the logger, the operating system and the cache *)

(** An enforcer generation, identified by what [casbin.NewEnforcer] read
    when it built it and by its log switch.  How a generation decides a
    request is casbin's business and stays abstract. *)
Record Enforcer := mkEnforcer {
  Enforcer_model : string;
  Enforcer_policy : string;
  Enforcer_log : bool
}.

#[global] Instance Enforcer_eq_dec : EqDecision Enforcer.
Proof. solve_decision. Defined.

(** One event per call that leaves [Casbinx], with what the call
    returned when the caller can see it. *)
Inductive Event : Type :=
| EvRoleQuery (p : RoleQueryParam) (r : result (list Role))
| EvMenuQuery (p : MenuQueryParam) (r : result (list Menu))
| EvMenuResourceQuery (p : MenuResourceQueryParam) (r : result (list MenuResource))
| EvLogError (msg : string) (err : error)
| EvLogInfo (msg : string) (roles resources bytes : Z)
| EvRename (oldpath newpath : string) (err : option error)
| EvMkdirAll (path : string)
| EvWriteFile (name data : string) (err : option error)
| EvChmod (name : string) (mode : Z)
| EvNewEnforcer (modelFile policyFile : string) (r : result Enforcer)
| EvStore (e : Enforcer)
| EvCacheGet (ns key : string) (r : string * bool * option error)
| EvCacheSet (ns key value : string) (err : option error)
| EvCacheDelete (ns key : string) (err : option error).

#[global] Instance Event_eq_dec : EqDecision Event.
Proof. solve_decision. Defined.

(** The mutable world of the subsystem.  [enforcer] is the field
    [Casbinx.enforcer], a [*atomic.Value]: [None] is the nil pointer of a
    [Casbinx] on which [Load] has not allocated the holder, [Some None] a
    holder in which nothing was stored, [Some (Some e)] a holder whose
    current value is [e]. *)
Record World := mkWorld {
  enforcer : option (option Enforcer);
  files : gmap string string;
  cache : gmap string string;
  trace : list Event
}.

(** How a call of [os.WriteFile] ends: it opens the file with
    [O_WRONLY|O_CREATE|O_TRUNC], writes and closes.  It can fail before the
    file is opened, or after, with the first [n] bytes written. *)
Inductive WriteOutcome : Type :=
| WriteOk
| WriteOpenErr (e : error)
| WriteShortErr (n : nat) (e : error).

(** The receive and flush order of the worker goroutines of one pass:
    [sched_recv] gives, for each queue item in queue order, the worker
    that receives it; [sched_flush] the order in which the workers take the
    lock to append their private buffer to the shared one. *)
Record Schedule := mkSchedule {
  sched_recv : list nat;
  sched_flush : list nat
}.

(** What one pass (or one tick) meets outside the process: the database
    content, which calls fail, and the goroutine schedule. *)
Record Env := mkEnv {
  env_db : DB;
  env_role_err : option error;
  env_menu_err : MenuQueryParam → option error;
  env_res_err : MenuResourceQueryParam → option error;
  env_sched : Schedule;
  env_rename_err : option error;
  env_write : WriteOutcome;
  env_casbin_err : option error;
  env_cache_err : option error
}.

(** The fields of [config.C] read by the subsystem.  [LoadThread] is a Go
    [int]. *)
Record Config := mkConfig {
  Casbin_Disable : bool;
  Casbin_SkippedPathPrefixes : list string;
  Casbin_LoadThread : Z;
  Casbin_ModelFile : string;
  Casbin_GenPolicyFile : string;
  General_WorkDir : string;
  General_Debug : bool
}.

Definition IsDebug (c : Config) : bool := General_Debug c.

(** *** A state monad over the world *)

Definition M (A : Type) : Type := World → A * World.

Definition ret {A} (a : A) : M A := λ w, (a, w).

Definition bind {A B} (m : M A) (k : A → M B) : M B :=
  λ w, let (a, w') := m w in k a w'.

Notation "'do' x <- m ; k" := (bind m (λ x, k))
  (at level 10, x name, m at level 100, k at level 200).
Notation "'do_' m ; k" := (bind m (λ _, k))
  (at level 10, m at level 100, k at level 200).

Definition emit (ev : Event) : M unit :=
  λ w, (tt, {| enforcer := enforcer w; files := files w; cache := cache w;
               trace := trace w ++ [ev] |}).

Definition set_files (f : gmap string string) : M unit :=
  λ w, (tt, {| enforcer := enforcer w; files := f; cache := cache w;
               trace := trace w |}).

Definition set_enforcer (v : option (option Enforcer)) : M unit :=
  λ w, (tt, {| enforcer := v; files := files w; cache := cache w;
               trace := trace w |}).

Definition set_cache (c : gmap string string) : M unit :=
  λ w, (tt, {| enforcer := enforcer w; files := files w; cache := c;
               trace := trace w |}).

(** Record the call with its result and return the result. *)
Definition returning {A} (ev : A → Event) (a : A) : M A :=
  do_ emit (ev a); ret a.

Definition get_files : M (gmap string string) := λ w, (files w, w).
Definition get_cache : M (gmap string string) := λ w, (cache w, w).
Definition get_enforcer : M (option (option Enforcer)) := λ w, (enforcer w, w).

(** *** package logging *)

Module logging.
Definition Error (msg : string) (err : error) : M unit := emit (EvLogError msg err).
Definition Info (msg : string) (roles resources bytes : Z) : M unit :=
  emit (EvLogInfo msg roles resources bytes).
End logging.

(** *** package os and path/filepath *)

Module os.

Definition ENOENT : error := "no such file or directory".

(** [os.Rename]: fails when [oldpath] does not exist, may fail for a
    reason of the environment, and otherwise moves the content. *)
Definition Rename (env : Env) (oldpath newpath : string) : M (option error) :=
  do fs <- get_files;
  match fs !! oldpath with
  | None => returning (EvRename oldpath newpath) (Some ENOENT)
  | Some data =>
      match env_rename_err env with
      | Some e => returning (EvRename oldpath newpath) (Some e)
      | None =>
          do_ set_files (<[newpath := data]> (delete oldpath fs));
          returning (EvRename oldpath newpath) None
      end
  end.

(** [os.MkdirAll]; directories are not part of the model. *)
Definition MkdirAll (path : string) : M unit := emit (EvMkdirAll path).

Definition WriteFile (env : Env) (name data : string) : M (option error) :=
  do fs <- get_files;
  match env_write env with
  | WriteOk =>
      do_ set_files (<[name := data]> fs);
      returning (EvWriteFile name data) None
  | WriteOpenErr e => returning (EvWriteFile name data) (Some e)
  | WriteShortErr n e =>
      do_ set_files (<[name := String.substring 0 n data]> fs);
      returning (EvWriteFile name data) (Some e)
  end.

(** [os.Chmod]; permission bits are not part of the model. *)
Definition Chmod (name : string) (mode : Z) : M unit := emit (EvChmod name mode).

End os.

Module filepath.
(** [filepath.Join] of a directory and a file name, without the lexical
    clean-up of the result. *)
Definition Join (dir name : string) : string := dir +:+ "/" +:+ name.

Fixpoint hasSeparator (s : string) : bool :=
  match s with
  | EmptyString => false
  | String c s' => Ascii.eqb c "/" || hasSeparator s'
  end.

(** The path up to its last separator, the separator left out. *)
Fixpoint beforeLast (s : string) : string :=
  match s with
  | EmptyString => EmptyString
  | String c s' => if hasSeparator s' then String c (beforeLast s') else EmptyString
  end.

(** [filepath.Dir]: all but the last element of the path; the root for
    a file of the root, [.] for a bare file name.  As for [Join], the
    lexical clean-up is left out. *)
Definition Dir (path : string) : string :=
  match beforeLast path with
  | EmptyString => if String.prefix "/" path then "/" else "."
  | d => d
  end.
End filepath.

(** *** package casbin *)

Module casbin.
(** [casbin.NewEnforcer(modelFile, policyFile)] reads both files. *)
Definition NewEnforcer (env : Env) (modelFile policyFile : string) : M (result Enforcer) :=
  do fs <- get_files;
  returning (EvNewEnforcer modelFile policyFile)
    match env_casbin_err env with
    | Some e => Err e
    | None =>
        match fs !! modelFile, fs !! policyFile with
        | Some m, Some p => Ok (mkEnforcer m p false)
        | _, _ => Err os.ENOENT
        end
    end.

Definition EnableLog (e : Enforcer) (b : bool) : Enforcer :=
  {| Enforcer_model := Enforcer_model e; Enforcer_policy := Enforcer_policy e;
     Enforcer_log := b |}.
End casbin.

(** *** package cachex and package config *)

Module config.
Definition CacheNSForRole : string := "role".
Definition CacheKeyForSyncToCasbin : string := "sync:casbin".
End config.

Module cachex.
Definition defaultDelimiter : string := ":".

Definition getKey (ns key : string) : string := ns +:+ defaultDelimiter +:+ key.

(** [Cacher.Get]: [(value, exists, err)]. *)
Definition Get (env : Env) (ns key : string) : M (string * bool * option error) :=
  do c <- get_cache;
  returning (EvCacheGet ns key)
    match env_cache_err env with
    | Some e => ("", false, Some e)
    | None =>
        match c !! getKey ns key with
        | None => ("", false, None)
        | Some v => (v, true, None)
        end
    end.

(** [Cacher.Set], used by the mutation handlers ([syncToCasbin]). *)
Definition Set_ (env : Env) (ns key value : string) : M (option error) :=
  do c <- get_cache;
  match env_cache_err env with
  | Some e => returning (EvCacheSet ns key value) (Some e)
  | None =>
      do_ set_cache (<[getKey ns key := value]> c);
      returning (EvCacheSet ns key value) None
  end.
End cachex.

(** *** The queries of package dal as calls *)

Definition RoleDAL_Query (env : Env) (p : RoleQueryParam) (sel : Role → Role)
  : M (result (list Role)) :=
  returning (EvRoleQuery p)
    match env_role_err env with
    | Some e => Err e
    | None => Ok (map sel (dal.Role_rows (env_db env) p))
    end.

Definition MenuDAL_Query (env : Env) (p : MenuQueryParam) (sel : Menu → Menu)
  : M (result (list Menu)) :=
  returning (EvMenuQuery p)
    match env_menu_err env p with
    | Some e => Err e
    | None => Ok (map sel (dal.Menu_rows (env_db env) p))
    end.

Definition MenuResourceDAL_Query (env : Env) (p : MenuResourceQueryParam)
  : M (result (list MenuResource)) :=
  returning (EvMenuResourceQuery p)
    match env_res_err env p with
    | Some e => Err e
    | None => Ok (dal.MenuResource_rows (env_db env) p)
    end.

(** ** type Casbinx *)

(** [GetEnforcer]: the current enforcer, [nil] when nothing was stored.
    The outer [None] is the nil-pointer panic of [a.enforcer.Load()] on a
    [Casbinx] whose holder was never allocated. *)
Definition GetEnforcer (w : World) : option (option Enforcer) := enforcer w.

(** [a.enforcer.Store(e)] *)
Definition Store (e : Enforcer) : M unit :=
  do_ emit (EvStore e);
  set_enforcer (Some (Some e)).

Record policyQueueItem := mkPolicyQueueItem {
  RoleID : string;
  Resources : list MenuResource
}.

(** [queryRoleResources] *)
Definition queryRoleResources (env : Env) (roleID : string)
  : M (result (list MenuResource)) :=
  do menuResult <- MenuDAL_Query env
       {| MenuQueryParam_InIDs := []; MenuQueryParam_Status := MenuStatusEnabled;
          MenuQueryParam_ParentID := ""; MenuQueryParam_RoleID := roleID |}
       dal.Menu_select_path;
  match menuResult with
  | Err err => ret (Err err)
  | Ok [] => ret (Ok [])
  | Ok data =>
      let menuIDs := collectMenuIDs data in
      do menuResourceResult <- MenuResourceDAL_Query env
           {| MenuResourceQueryParam_MenuID := "";
              MenuResourceQueryParam_MenuIDs := menuIDs |};
      match menuResourceResult with
      | Err err => ret (Err err)
      | Ok rows => ret (Ok rows)
      end
  end.

(** [fmt.Sprintf("p, %s, %s, %s \n", item.RoleID, res.Path, res.Method)] *)
Definition policyLine (roleID : string) (res : MenuResource) : string :=
  "p, " +:+ roleID +:+ ", " +:+ MenuResource_Path res +:+ ", "
        +:+ MenuResource_Method res +:+ " " +:+ Strings.newline.

(** The lines one worker writes for one queue item. *)
Definition itemLines (item : policyQueueItem) : list string :=
  map (policyLine (RoleID item)) (Resources item).

(** The queue items received by worker [w], in queue order.  An item
    beyond the end of the receive order stays in the channel. *)
Fixpoint received (w : nat) (recv : list nat) (queue : list policyQueueItem)
  : list policyQueueItem :=
  match recv, queue with
  | r :: recv', item :: queue' =>
      if decide (r = w) then item :: received w recv' queue'
      else received w recv' queue'
  | _, _ => []
  end.

(** The lines in the private buffer [ibuf] of worker [w] when its loop
    over the queue ends. *)
Definition workerLines (sched : Schedule) (queue : list policyQueueItem) (w : nat)
  : list string :=
  flat_map itemLines (received w (sched_recv sched) queue).

Definition ibuf (sched : Schedule) (queue : list policyQueueItem) (w : nat) : string :=
  Strings.concat (workerLines sched queue w).

(** The workers started by [for i := 0; i < threadNum; i++], in the order
    in which they flush. *)
Definition flushers (threadNum : nat) (sched : Schedule) : list nat :=
  filter (λ w, (w < threadNum)%nat) (sched_flush sched).

(** The shared buffer [buf] after [wg.Wait()]: the private buffers of the
    workers, in flush order. *)
Definition compile (threadNum : nat) (sched : Schedule) (queue : list policyQueueItem)
  : string :=
  Strings.concat (map (ibuf sched queue) (flushers threadNum sched)).

(** A schedule of [threadNum] workers over a queue of [n] items: every
    worker flushes once, and, when there is a worker at all, every item is
    received by one of them. *)
Definition valid_schedule (threadNum : nat) (n : nat) (sched : Schedule) : Prop :=
  NoDup (sched_flush sched)
  ∧ length (sched_flush sched) = threadNum
  ∧ Forall (λ w, (w < threadNum)%nat) (sched_flush sched)
  ∧ ((0 < threadNum)%nat →
     length (sched_recv sched) = n
     ∧ Forall (λ w, (w < threadNum)%nat) (sched_recv sched)).

#[global] Instance valid_schedule_dec t n s : Decision (valid_schedule t n s).
Proof. unfold valid_schedule. apply _. Defined.

(** [int32(n)] and [atomic.AddInt32]: two's complement on 32 bits. *)
Definition int32 (z : Z) : Z := (z + 2 ^ 31) mod 2 ^ 32 - 2 ^ 31.
Definition AddInt32 (addr delta : Z) : Z := int32 (addr + delta).

(** The loop of [load] over [roleResult.Data] that queries each role and
    sends its item to the queue. *)
Fixpoint produce (env : Env) (roles : list Role)
         (queue : list policyQueueItem) (resCount : Z)
  : M (list policyQueueItem * Z) :=
  match roles with
  | [] => ret (queue, resCount)
  | item :: rest =>
      do r <- queryRoleResources env (Role_ID item);
      match r with
      | Err err =>
          do_ logging.Error "Failed to query role resources" err;
          produce env rest queue resCount
      | Ok resources =>
          produce env rest
                  (queue ++ [{| RoleID := Role_ID item; Resources := resources |}])
                  (AddInt32 resCount (int32 (Z.of_nat (length resources))))
      end
  end.

(** How a call ends: it returns its [error] result, or the goroutine
    panics. *)
Inductive outcome : Type :=
| Return (err : option error)
| Panic (msg : string).

Definition policyFile (cfg : Config) : string :=
  filepath.Join (General_WorkDir cfg) (Casbin_GenPolicyFile cfg).

Definition modelFile (cfg : Config) : string :=
  filepath.Join (General_WorkDir cfg) (Casbin_ModelFile cfg).

(** The body of [if buf.Len() > 0 { ... }] in [load]. *)
Definition publish (cfg : Config) (env : Env) (buf : string) : M (option error) :=
  do_ os.Rename env (policyFile cfg) (policyFile cfg +:+ ".bak");
  do_ os.MkdirAll (filepath.Dir (policyFile cfg));
  do werr <- os.WriteFile env (policyFile cfg) buf;
  match werr with
  | Some err =>
      do_ logging.Error "Failed to write policy file" err;
      ret (Some err)
  | None =>
      do_ os.Chmod (policyFile cfg) 292 (* 0444 *);
      do r <- casbin.NewEnforcer env (modelFile cfg) (policyFile cfg);
      match r with
      | Err err =>
          do_ logging.Error "Failed to create casbin enforcer" err;
          ret (Some err)
      | Ok e =>
          do_ Store (casbin.EnableLog e (IsDebug cfg));
          ret None
      end
  end.

(** [load] *)
Definition load (cfg : Config) (env : Env) : M outcome :=
  do roleResult <- RoleDAL_Query env
       {| RoleQueryParam_InIDs := []; RoleQueryParam_Status := RoleStatusEnabled |}
       dal.Role_select_id;
  match roleResult with
  | Err err => ret (Return (Some err))
  | Ok [] => ret (Return None)
  | Ok roles =>
      let threadNum := Casbin_LoadThread cfg in
      if threadNum <? 0 then ret (Panic "sync: negative WaitGroup counter")
      else
        do qr <- produce env roles [] 0;
        let buf := compile (Z.to_nat threadNum) (env_sched env) qr.1 in
        do perr <- (if Strings.nonempty buf then publish cfg env buf else ret None);
        match perr with
        | Some err => ret (Return (Some err))
        | None =>
            do_ logging.Info "Casbin load policy"
                  (Z.of_nat (length roles)) qr.2 (Z.of_nat (String.length buf));
            ret (Return None)
        end
  end.

(** [Load] *)
Definition Load (cfg : Config) (env : Env) : M outcome :=
  if Casbin_Disable cfg then ret (Return None)
  else
    do_ set_enforcer (Some None);
    do o <- load cfg env;
    match o with
    | Return (Some err) => ret (Return (Some err))
    | Return None => ret (Return None) (* go a.autoLoad(ctx) *)
    | Panic msg => ret (Panic msg)
    end.

(** *** package strconv *)

Module strconv.

Definition ErrSyntax : error := "invalid syntax".
Definition ErrRange : error := "value out of range".

Definition digit (c : ascii) : option Z :=
  let n := Z.of_nat (nat_of_ascii c) in
  if (48 <=? n) && (n <=? 57) then Some (n - 48) else None.

Fixpoint digits (s : string) (acc : Z) : option Z :=
  match s with
  | EmptyString => Some acc
  | String c s' =>
      match digit c with
      | None => None
      | Some d => digits s' (10 * acc + d)
      end
  end.

(** [strconv.ParseInt(s, 10, 64)]: an optional sign, then one or more
    decimal digits, the value within [int64]. *)
Definition ParseInt (s : string) : result Z :=
  match s with
  | EmptyString => Err ErrSyntax
  | String c rest =>
      let neg := Ascii.eqb c "-" in
      let body := if Ascii.eqb c "+" || neg then rest else s in
      match body with
      | EmptyString => Err ErrSyntax
      | String _ _ =>
          match digits body 0 with
          | None => Err ErrSyntax
          | Some un =>
              if neg then
                if 2 ^ 63 <? un then Err ErrRange else Ok (- un)
              else
                if 2 ^ 63 <=? un then Err ErrRange else Ok un
          end
      end
  end.

End strconv.

(** *** The reload loop *)

(** After one iteration of [for range a.ticker.C]: the loop goes on with
    a value of [lastUpdated], or the goroutine has panicked. *)
Inductive tick : Type :=
| Continue (lastUpdated : Z)
| Crashed (msg : string).

(** The body of the loop of [autoLoad]. *)
Definition autoLoad_tick (cfg : Config) (env : Env) (lastUpdated : Z) : M tick :=
  do r <- cachex.Get env config.CacheNSForRole config.CacheKeyForSyncToCasbin;
  match r with
  | (_, _, Some err) =>
      do_ logging.Error "Failed to get cache" err;
      ret (Continue lastUpdated)
  | (_, false, None) => ret (Continue lastUpdated)
  | (val, true, None) =>
      match strconv.ParseInt val with
      | Err err =>
          do_ logging.Error "Failed to parse cache value" err;
          ret (Continue lastUpdated)
      | Ok updated =>
          if lastUpdated <? updated then
            do o <- load cfg env;
            match o with
            | Return (Some err) =>
                do_ logging.Error "Failed to load casbin policy" err;
                ret (Continue lastUpdated)
            | Return None => ret (Continue updated)
            | Panic msg => ret (Crashed msg)
            end
          else ret (Continue lastUpdated)
      end
  end.

(** [autoLoad] over the ticks delivered so far, one environment per
    tick; [lastUpdated] starts at zero. *)
Fixpoint autoLoad_from (cfg : Config) (ticks : list Env) (lastUpdated : Z) : M tick :=
  match ticks with
  | [] => ret (Continue lastUpdated)
  | env :: rest =>
      do t <- autoLoad_tick cfg env lastUpdated;
      match t with
      | Continue lastUpdated' => autoLoad_from cfg rest lastUpdated'
      | Crashed msg => ret (Crashed msg)
      end
  end.

Definition autoLoad (cfg : Config) (ticks : list Env) : M tick :=
  autoLoad_from cfg ticks 0.

(** [syncToCasbin] of the mutation handlers (package biz): the writer of
    the change signal, [now] being [time.Now().Unix()] printed with [%d]. *)
Definition syncToCasbin (env : Env) (now : string) : M (option error) :=
  cachex.Set_ env config.CacheNSForRole config.CacheKeyForSyncToCasbin now.

(** ** package errors and package middleware *)

Module errors.

Record Error := mkError {
  ID : string;
  Code : Z;
  Detail : string;
  Status : string
}.

(** A Go [error] value: one of this package, or any other. *)
Inductive GoError : Type :=
| Typed (e : Error)
| Plain (msg : string).

Definition DefaultForbiddenID : string := "forbidden".
Definition DefaultInternalServerErrorID : string := "internal_server_error".

Definition Forbidden (id detail : string) : Error :=
  {| ID := if Strings.nonempty id then id else DefaultForbiddenID;
     Code := 403; Detail := detail; Status := "Forbidden" |}.

Definition InternalServerError (id detail : string) : Error :=
  {| ID := if Strings.nonempty id then id else DefaultInternalServerErrorID;
     Code := 500; Detail := detail; Status := "Internal Server Error" |}.

End errors.

Module middleware.

Import errors.

(** What the middleware reads of a [*gin.Context]: the request, and the
    values [util.FromIsRootUser] and [util.FromUserCache(..).RoleIDs]
    find in its context. *)
Record Context := mkContext {
  Request_URL_Path : string;
  Request_Method : string;
  IsRootUser : bool;
  UserCache_RoleIDs : list string
}.

(** What the middleware does with the request: [c.Next()], a JSON
    error response followed by [c.Abort()], or a panic. *)
Inductive Handled : Type :=
| Next
| Aborted (status : Z) (body : Error)
| Panicked.

Definition ErrCasbinDenied : Error := Forbidden "com.casbin.denied" "Permission denied".

(** [util.ResError(c, err)] without a status override. *)
Definition ResError (err : GoError) : Handled :=
  let ierr := match err with
              | Typed e => e
              | Plain msg => InternalServerError "" msg
              end in
  let code := Code ierr in
  let ierr := if 500 <=? code
              then {| ID := ID ierr; Code := Code ierr;
                      Detail := "Internal Server Error"; Status := Status ierr |}
              else ierr in
  Aborted code {| ID := ID ierr; Code := code; Detail := Detail ierr;
                  Status := Status ierr |}.

(** [pathLen >= pl && path[:pl] == p] for some [p] of [prefixes]. *)
Definition hasPrefix (c : Context) (prefixes : list string) : bool :=
  existsb (λ p, String.prefix p (Request_URL_Path c)) prefixes.

Definition SkippedPathPrefixes (c : Context) (prefixes : list string) : bool :=
  match prefixes with [] => false | _ :: _ => hasPrefix c prefixes end.

Definition AllowedPathPrefixes (c : Context) (prefixes : list string) : bool :=
  match prefixes with [] => true | _ :: _ => hasPrefix c prefixes end.

Record CasbinConfig := mkCasbinConfig {
  CasbinConfig_AllowedPathPrefixes : list string;
  CasbinConfig_SkippedPathPrefixes : list string;
  CasbinConfig_Skipper : option (Context → bool);
  (** [None] when the call panics, [Some None] when it returns [nil] *)
  CasbinConfig_GetEnforcer : Context → option (option Enforcer);
  CasbinConfig_GetSubjects : Context → list string
}.

Section WithEnforce.

(** The method [Enforce(sub, obj, act)] of a casbin enforcer. *)
Variable Enforce : Enforcer → string → string → string → result bool.

(** The loop over the subjects. *)
Fixpoint enforceAny (e : Enforcer) (c : Context) (subs : list string) : Handled :=
  match subs with
  | [] => ResError (Typed ErrCasbinDenied)
  | sub :: rest =>
      match Enforce e sub (Request_URL_Path c) (Request_Method c) with
      | Err err => ResError (Plain err)
      | Ok true => Next
      | Ok false => enforceAny e c rest
      end
  end.

(** The condition under which the handler lets the request through
    unchecked. *)
Definition skips (config : CasbinConfig) (c : Context) : bool :=
  negb (AllowedPathPrefixes c (CasbinConfig_AllowedPathPrefixes config))
  || SkippedPathPrefixes c (CasbinConfig_SkippedPathPrefixes config)
  || match CasbinConfig_Skipper config with
     | Some skipper => skipper c
     | None => false
     end.

(** The handler returned by [CasbinWithConfig(config)]. *)
Definition CasbinWithConfig (config : CasbinConfig) (c : Context) : Handled :=
  if skips config c then Next
  else
    match CasbinConfig_GetEnforcer config c with
    | None => Panicked
    | Some None => ResError (Typed ErrCasbinDenied)
    | Some (Some enforcer) =>
        enforceAny enforcer c (CasbinConfig_GetSubjects config c)
    end.

End WithEnforce.

End middleware.

(** ** package bootstrap: the wiring of the middleware *)

Module bootstrap.

Import middleware.

(** The configuration [useHTTPMiddlewares] passes to
    [middleware.CasbinWithConfig], in the world [w] in which the request
    is served; [allowedPrefixes] are the router prefixes. *)
Definition casbinConfig (cfg : Config) (allowedPrefixes : list string) (w : World)
  : CasbinConfig :=
  {| CasbinConfig_AllowedPathPrefixes := allowedPrefixes;
     CasbinConfig_SkippedPathPrefixes := Casbin_SkippedPathPrefixes cfg;
     CasbinConfig_Skipper := Some (λ c, Casbin_Disable cfg || IsRootUser c);
     CasbinConfig_GetEnforcer := λ _, GetEnforcer w;
     CasbinConfig_GetSubjects := UserCache_RoleIDs |}.

End bootstrap.

(** An execution of the subsystem up to some tick: [Load] at start-up
    (from [RBAC.Init]) and, when it started the reload goroutine, the
    loop over the ticks delivered so far. *)
Definition execution (cfg : Config) (env : Env) (ticks : list Env) : M outcome :=
  do o <- Load cfg env;
  match o with
  | Return None =>
      if Casbin_Disable cfg then ret (Return None)
      else
        do t <- autoLoad cfg ticks;
        match t with
        | Continue _ => ret (Return None)
        | Crashed msg => ret (Panic msg)
        end
  | Return (Some err) => ret (Return (Some err))
  | Panic msg => ret (Panic msg)
  end.

(** The world when the process starts: a zero [Casbinx], nothing done
    yet. *)
Definition fresh (fs ch : gmap string string) : World :=
  {| enforcer := None; files := fs; cache := ch; trace := [] |}.

(** * Vocabulary of the properties *)

(** ** Menus, parent paths and grants *)

(** [pid] is an id listed in the parent path [pp]. *)
Definition named_in (pid pp : string) : Prop :=
  pid ≠ "" ∧ pid ∈ Strings.Split pp util.TreePathDelimiter.

#[global] Instance named_in_dec pid pp : Decision (named_in pid pp).
Proof. unfold named_in. apply _. Defined.

(** The two components of the loop state agree, and the slice has no
    duplicate. *)
Definition acc_ok (acc : idAcc) : Prop :=
  NoDup acc.1 ∧ ∀ x, x ∈ acc.1 ↔ x ∈ acc.2.

(** Among the menus of [data], the parent path of a menu names every id
    that the parent path of any of its named ancestors names. *)
Definition paths_closed (data : list Menu) : Prop :=
  ∀ x y, x ∈ data → y ∈ data →
    named_in (Menu_ID y) (Menu_ParentPath x) →
    ∀ p, named_in p (Menu_ParentPath y) → named_in p (Menu_ParentPath x).

(** The scan covers a menu once its id and the ids of its parent path are
    collected. *)
Definition covered (s : gset string) (m : Menu) : Prop :=
  Menu_ID m ∈ s ∧ ∀ p, named_in p (Menu_ParentPath m) → p ∈ s.

(** The parameters with which [queryRoleResources] calls the stores. *)
Definition menuParam (roleID : string) : MenuQueryParam :=
  {| MenuQueryParam_InIDs := []; MenuQueryParam_Status := MenuStatusEnabled;
     MenuQueryParam_ParentID := ""; MenuQueryParam_RoleID := roleID |}.

Definition resParam (menuIDs : list string) : MenuResourceQueryParam :=
  {| MenuResourceQueryParam_MenuID := ""; MenuResourceQueryParam_MenuIDs := menuIDs |}.

(** An enabled menu linked to the role by a row of [role_menu]. *)
Definition linked (db : DB) (roleID : string) (m : Menu) : Prop :=
  m ∈ tbl_menu db
  ∧ Menu_Status m = MenuStatusEnabled
  ∧ ∃ rm, rm ∈ tbl_role_menu db
          ∧ RoleMenu_RoleID rm = roleID ∧ RoleMenu_MenuID rm = Menu_ID m.

(** A resource row whose owning menu is a linked menu or is named in the
    parent path of one. *)
Definition granted (db : DB) (roleID : string) (r : MenuResource) : Prop :=
  r ∈ tbl_menu_resource db
  ∧ ∃ m, linked db roleID m
         ∧ (MenuResource_MenuID r = Menu_ID m
            ∨ named_in (MenuResource_MenuID r) (Menu_ParentPath m)).

(** The aggregation of the role succeeds with exactly the granted rows. *)
Definition aggregates_granted (env : Env) (roleID : string) : Prop :=
  ∀ w, ∃ rows, (queryRoleResources env roleID w).1 = Ok rows
               ∧ ∀ r, r ∈ rows ↔ granted (env_db env) roleID r.

(** The materialized paths of the menus linked to the role are
    consistent: when one of them is named in the parent path of another,
    the ids its own parent path names are named there too. *)
Definition linked_paths_closed (db : DB) (roleID : string) : Prop :=
  ∀ x y, linked db roleID x → linked db roleID y →
    named_in (Menu_ID y) (Menu_ParentPath x) →
    ∀ p, named_in p (Menu_ParentPath y) → named_in p (Menu_ParentPath x).

(** ** The events of a call *)

(** The events a call appends to the trace. *)
Definition new_events {A} (m : M A) (w : World) : list Event :=
  drop (length (trace w)) (trace (m w).2).

(** What the call leaves in the world: only events. *)
Definition add_events (evs : list Event) (w : World) : World :=
  {| enforcer := enforcer w; files := files w; cache := cache w;
     trace := trace w ++ evs |}.

(** The result and the events of [queryRoleResources] do not depend on
    the world it is called in. *)
Definition blank : World :=
  {| enforcer := None; files := ∅; cache := ∅; trace := [] |}.

Definition roleResources (env : Env) (roleID : string) : result (list MenuResource) :=
  (queryRoleResources env roleID blank).1.

Definition roleEvents (env : Env) (roleID : string) : list Event :=
  trace (queryRoleResources env roleID blank).2.

(** ** The stages of a pass *)

(** The lines of the shared buffer, in the order they are in it. *)
Definition compiledLines (threadNum : nat) (sched : Schedule)
           (queue : list policyQueueItem) : list string :=
  flat_map (workerLines sched queue) (flushers threadNum sched).

(** A decidable form of [linked_paths_closed], over the rows the menu
    query returns. *)
Definition closed_check (data : list Menu) : Prop :=
  Forall (λ x, Forall (λ y,
    named_in (Menu_ID y) (Menu_ParentPath x) →
    Forall (λ p, p = "" ∨ named_in p (Menu_ParentPath x))
           (Strings.Split (Menu_ParentPath y) util.TreePathDelimiter)) data) data.

#[global] Instance closed_check_dec data : Decision (closed_check data).
Proof. unfold closed_check. apply _. Defined.

Ltac by_compute := apply (bool_decide_unpack _); vm_compute; exact I.

Definition roleParam : RoleQueryParam :=
  {| RoleQueryParam_InIDs := []; RoleQueryParam_Status := RoleStatusEnabled |}.

(** The rows [load] gets from the role store when the query succeeds. *)
Definition enabledRoles (env : Env) : list Role :=
  map dal.Role_select_id (dal.Role_rows (env_db env) roleParam).

(** The items sent to the queue: one per role whose aggregation
    succeeded, in role order. *)
Fixpoint queueOf (env : Env) (roles : list Role) : list policyQueueItem :=
  match roles with
  | [] => []
  | item :: rest =>
      match roleResources env (Role_ID item) with
      | Ok resources =>
          {| RoleID := Role_ID item; Resources := resources |} :: queueOf env rest
      | Err _ => queueOf env rest
      end
  end.

Definition roleFailure (env : Env) (roleID : string) : list Event :=
  match roleResources env roleID with
  | Ok _ => []
  | Err err => [EvLogError "Failed to query role resources" err]
  end.

(** The events of the loop over the roles. *)
Definition produceEvents (env : Env) (roles : list Role) : list Event :=
  flat_map (λ item, roleEvents env (Role_ID item) ++ roleFailure env (Role_ID item)) roles.

Fixpoint resCountOf (env : Env) (roles : list Role) (resCount : Z) : Z :=
  match roles with
  | [] => resCount
  | item :: rest =>
      match roleResources env (Role_ID item) with
      | Ok resources =>
          resCountOf env rest (AddInt32 resCount (int32 (Z.of_nat (length resources))))
      | Err _ => resCountOf env rest resCount
      end
  end.

(** The shared buffer when [load] reaches [if buf.Len() > 0]; [None]
    when it returns or panics before. *)
Definition compiled (cfg : Config) (env : Env) : option string :=
  match env_role_err env with
  | Some _ => None
  | None =>
      match enabledRoles env with
      | [] => None
      | _ :: _ =>
          if Casbin_LoadThread cfg <? 0 then None
          else Some (compile (Z.to_nat (Casbin_LoadThread cfg)) (env_sched env)
                             (queueOf env (enabledRoles env)))
      end
  end.

(** ** The publishing step, piece by piece *)

Definition bakFile (cfg : Config) : string := policyFile cfg +:+ ".bak".

Definition renameErr (env : Env) (fs : gmap string string) (cfg : Config) : option error :=
  match fs !! policyFile cfg with
  | None => Some os.ENOENT
  | Some _ => env_rename_err env
  end.

Definition afterRename (env : Env) (fs : gmap string string) (cfg : Config)
  : gmap string string :=
  match fs !! policyFile cfg, env_rename_err env with
  | Some data, None => <[bakFile cfg := data]> (delete (policyFile cfg) fs)
  | _, _ => fs
  end.

Definition writeErr (env : Env) : option error :=
  match env_write env with
  | WriteOk => None
  | WriteOpenErr e => Some e
  | WriteShortErr _ e => Some e
  end.

Definition afterWrite (env : Env) (fs : gmap string string) (cfg : Config) (buf : string)
  : gmap string string :=
  match env_write env with
  | WriteOk => <[policyFile cfg := buf]> fs
  | WriteOpenErr _ => fs
  | WriteShortErr n _ => <[policyFile cfg := String.substring 0 n buf]> fs
  end.

Definition built (env : Env) (fs : gmap string string) (cfg : Config) : result Enforcer :=
  match env_casbin_err env with
  | Some e => Err e
  | None =>
      match fs !! modelFile cfg, fs !! policyFile cfg with
      | Some m, Some p => Ok (mkEnforcer m p false)
      | _, _ => Err os.ENOENT
      end
  end.

(** The events of [publish], up to and including the write. *)
Definition writeEvents (cfg : Config) (env : Env) (buf : string) (fs : gmap string string)
  : list Event :=
  [EvRename (policyFile cfg) (bakFile cfg) (renameErr env fs cfg);
   EvMkdirAll (filepath.Dir (policyFile cfg));
   EvWriteFile (policyFile cfg) buf (writeErr env)].

(** ... and after it. *)
Definition buildEvents (cfg : Config) (env : Env) (fs2 : gmap string string) : list Event :=
  match writeErr env with
  | Some e => [EvLogError "Failed to write policy file" e]
  | None =>
      [EvChmod (policyFile cfg) 292;
       EvNewEnforcer (modelFile cfg) (policyFile cfg) (built env fs2 cfg);
       match built env fs2 cfg with
       | Err e => EvLogError "Failed to create casbin enforcer" e
       | Ok e0 => EvStore (casbin.EnableLog e0 (IsDebug cfg))
       end]
  end.

Definition publishErr (cfg : Config) (env : Env) (fs2 : gmap string string) : option error :=
  match writeErr env with
  | Some e => Some e
  | None => match built env fs2 cfg with Err e => Some e | Ok _ => None end
  end.

Definition publishEnforcer (cfg : Config) (env : Env) (fs2 : gmap string string)
           (old : option (option Enforcer)) : option (option Enforcer) :=
  match writeErr env with
  | Some _ => old
  | None =>
      match built env fs2 cfg with
      | Err _ => old
      | Ok e0 => Some (Some (casbin.EnableLog e0 (IsDebug cfg)))
      end
  end.

Definition loadInfo (env : Env) (buf : string) : Event :=
  EvLogInfo "Casbin load policy"
            (Z.of_nat (length (enabledRoles env)))
            (resCountOf env (enabledRoles env) 0)
            (Z.of_nat (String.length buf)).

(** The events of the publishing step of a pass. *)
Definition publishes (ev : Event) : bool :=
  match ev with
  | EvRename _ _ _ | EvMkdirAll _ | EvWriteFile _ _ _ | EvChmod _ _
  | EvNewEnforcer _ _ _ | EvStore _ => true
  | _ => false
  end.

(** The events of a pass, along the return points of [load]. *)
Definition loadEvents (cfg : Config) (env : Env) (fs : gmap string string) : list Event :=
  match env_role_err env with
  | Some e => [EvRoleQuery roleParam (Err e)]
  | None =>
      let roles := enabledRoles env in
      EvRoleQuery roleParam (Ok roles)
      :: match roles with
         | [] => []
         | _ :: _ =>
             if Casbin_LoadThread cfg <? 0 then []
             else
               let buf := compile (Z.to_nat (Casbin_LoadThread cfg)) (env_sched env)
                                  (queueOf env roles) in
               produceEvents env roles
               ++ (if Strings.nonempty buf then
                     let fs2 := afterWrite env (afterRename env fs cfg) cfg buf in
                     writeEvents cfg env buf fs ++ buildEvents cfg env fs2
                     ++ match publishErr cfg env fs2 with
                        | Some _ => []
                        | None => [loadInfo env buf]
                        end
                   else [loadInfo env buf])
         end
  end.

Ltac norm_trace :=
  cbn [fst snd trace enforcer files cache add_events];
  rewrite <- ?app_assoc; cbn [app]; rewrite ?app_nil_r.

(** ** What the specification claims of a pass and of a tick *)

(** Writing the policy file, or building the enforcer from it, failed
    with [e] during the pass. *)
Definition publishing_fails (cfg : Config) (env : Env) (w : World) (e : error) : Prop :=
  (∃ data, EvWriteFile (policyFile cfg) data (Some e) ∈ new_events (load cfg env) w)
  ∨ EvNewEnforcer (modelFile cfg) (policyFile cfg) (Err e) ∈ new_events (load cfg env) w.

(** The claim of the specification: once the write of a pass has failed,
    there is no file at the configured path. *)
Definition failed_write_leaves_no_file (cfg : Config) (env : Env) (w : World) : Prop :=
  ∀ data e,
    EvWriteFile (policyFile cfg) data (Some e) ∈ new_events (load cfg env) w →
    files (load cfg env w).2 !! policyFile cfg = None
    ∧ GetEnforcer (load cfg env w).2 = GetEnforcer w.

Definition methodPaths (rs : list MenuResource) : list (string * string) :=
  map (λ r, (MenuResource_Method r, MenuResource_Path r)) rs.

(** The policy line of a role for a (method, path) pair. *)
Definition pairLine (roleID : string) (mp : string * string) : string :=
  policyLine roleID {| MenuResource_ID := ""; MenuResource_MenuID := "";
                       MenuResource_Method := mp.1; MenuResource_Path := mp.2 |}.

(** The lines of one role: one per row of its aggregated resources, or,
    with [dedup], one per distinct (method, path) pair of them; none when
    its aggregation failed. *)
Definition roleLines (dedup : bool) (env : Env) (role : Role) : list string :=
  match roleResources env (Role_ID role) with
  | Ok rs =>
      map (pairLine (Role_ID role))
          (if dedup then remove_dups (methodPaths rs) else methodPaths rs)
  | Err _ => []
  end.

(** The compiled buffer of the pass is made of the lines of the enabled
    roles, in some order, and nothing else. *)
Definition buffer_holds (dedup : bool) (cfg : Config) (env : Env) : Prop :=
  ∀ buf, compiled cfg env = Some buf →
    ∃ lines, buf = Strings.concat lines
             ∧ lines ≡ₚ flat_map (roleLines dedup env) (enabledRoles env).

(** The lines a role contributes: all of its rows, or none when its
    aggregation failed. *)
Definition contribution (env : Env) (role : Role) : list string :=
  match roleResources env (Role_ID role) with
  | Ok rs => map (policyLine (Role_ID role)) rs
  | Err _ => []
  end.

(** The claim of the specification on a pass that compiles a buffer. *)
Definition failures_isolated (cfg : Config) (env : Env) (w : World) : Prop :=
  ∀ buf, compiled cfg env = Some buf →
    (∃ lines, buf = Strings.concat lines
              ∧ lines ≡ₚ flat_map (contribution env) (enabledRoles env))
    ∧ (∀ role e, role ∈ enabledRoles env →
         roleResources env (Role_ID role) = Err e →
         EvLogError "Failed to query role resources" e ∈ new_events (load cfg env) w)
    ∧ (∀ role, role ∈ enabledRoles env →
         ∃ r, EvMenuQuery (menuParam (Role_ID role)) r ∈ new_events (load cfg env) w)
    ∧ (∀ e, (load cfg env w).1 = Return (Some e) → publishing_fails cfg env w e).

Definition signalKey : string :=
  cachex.getKey config.CacheNSForRole config.CacheKeyForSyncToCasbin.

(** What [Cache.Get] returns for the change signal. *)
Definition getSignal (env : Env) (w : World) : string * bool * option error :=
  match env_cache_err env with
  | Some e => ("", false, Some e)
  | None =>
      match cache w !! signalKey with
      | None => ("", false, None)
      | Some v => (v, true, None)
      end
  end.

Definition afterGet (env : Env) (w : World) : World :=
  add_events [EvCacheGet config.CacheNSForRole config.CacheKeyForSyncToCasbin
                         (getSignal env w)] w.

(** The timestamp the tick reads, when the read and the parse succeed. *)
Definition readSignal (env : Env) (w : World) : option Z :=
  match getSignal env w with
  | (val, true, None) =>
      match strconv.ParseInt val with
      | Ok updated => Some updated
      | Err _ => None
      end
  | _ => None
  end.

(** The read of the signal fails, the key is absent, or its value is
    not a decimal [int64]. *)
Definition signal_unreadable (env : Env) (w : World) : Prop :=
  is_Some (env_cache_err env)
  ∨ cache w !! signalKey = None
  ∨ ∃ v e, cache w !! signalKey = Some v ∧ strconv.ParseInt v = Err e.

Definition reads_or_logs (ev : Event) : bool :=
  match ev with
  | EvCacheGet _ _ _ | EvLogError _ _ => true
  | _ => false
  end.

Definition writes_cache (ev : Event) : bool :=
  match ev with
  | EvCacheSet _ _ _ _ | EvCacheDelete _ _ _ => true
  | _ => false
  end.

(** The claim of the specification: [lastUpdated] moves only in a tick
    whose pass stored a new enforcer generation. *)
Definition advance_needs_swap (cfg : Config) (env : Env) (lastUpdated : Z) (w : World)
  : Prop :=
  ∀ lastUpdated',
    (autoLoad_tick cfg env lastUpdated w).1 = Continue lastUpdated' →
    lastUpdated' ≠ lastUpdated →
    ∃ e, EvStore e ∈ new_events (autoLoad_tick cfg env lastUpdated) w.

(** [m] run in [w] appends events, none of which writes the cache,
    leaves the cache as it is, and changes the holder only if one of its
    events is a [Store]. *)
Definition framed {A} (m : M A) (w : World) : Prop :=
  ∃ evs, trace (m w).2 = trace w ++ evs
         ∧ Forall (λ ev, writes_cache ev = false) evs
         ∧ cache (m w).2 = cache w
         ∧ ((∀ e, EvStore e ∉ evs) → enforcer (m w).2 = enforcer w).

Ltac no_store :=
  let e := fresh "e" in
  let H := fresh "H" in
  intros e H; vm_compute in H;
  repeat (apply elem_of_cons in H as [H|H]; [discriminate|]);
  by apply elem_of_nil in H.

(** ** Concrete worlds *)

Module Examples.

(** The scenario of the specification: role [editor] holds menu [M1]
    (orders), role [exporter] holds only its child [M2]. *)
Definition orders_db : DB := {|
  tbl_role := [mkRole "editor" "enabled"; mkRole "exporter" "enabled"];
  tbl_menu := [mkMenu "M1" "enabled" "" ""; mkMenu "M2" "enabled" "M1" "M1."];
  tbl_role_menu := [mkRoleMenu "editor" "M1"; mkRoleMenu "exporter" "M2"];
  tbl_menu_resource :=
    [mkMenuResource "a" "M1" "GET" "/api/v1/orders";
     mkMenuResource "b" "M1" "POST" "/api/v1/orders";
     mkMenuResource "c" "M2" "GET" "/api/v1/orders/export"]
|}.

(** An environment in which nothing fails. *)
Definition calm (db : DB) (sched : Schedule) : Env := {|
  env_db := db;
  env_role_err := None;
  env_menu_err := λ _, None;
  env_res_err := λ _, None;
  env_sched := sched;
  env_rename_err := None;
  env_write := WriteOk;
  env_casbin_err := None;
  env_cache_err := None
|}.

Definition two_workers : Schedule :=
  {| sched_recv := [0%nat; 1%nat]; sched_flush := [1%nat; 0%nat] |}.

Definition orders_env : Env := calm orders_db two_workers.

(** A menu table whose parent paths are stale: [m1] lies under [m2],
    [m2] was moved under [m3], and the path of [m1] was not rewritten. *)
Definition stale_db : DB := {|
  tbl_role := [mkRole "r1" "enabled"];
  tbl_menu := [mkMenu "m1" "enabled" "m2" "m2.";
               mkMenu "m2" "enabled" "m3" "m3.";
               mkMenu "m3" "enabled" "" ""];
  tbl_role_menu := [mkRoleMenu "r1" "m1"; mkRoleMenu "r1" "m2"];
  tbl_menu_resource :=
    [mkMenuResource "y" "m2" "GET" "/y"; mkMenuResource "z" "m3" "GET" "/z"]
|}.

Definition stale_env : Env :=
  calm stale_db {| sched_recv := [0%nat]; sched_flush := [0%nat] |}.

Definition app_cfg : Config := {|
  Casbin_Disable := false;
  Casbin_SkippedPathPrefixes := [];
  Casbin_LoadThread := 2;
  Casbin_ModelFile := "rbac_model.conf";
  Casbin_GenPolicyFile := "gen_rbac_policy.csv";
  General_WorkDir := "/app";
  General_Debug := false
|}.

Definition old_generation : Enforcer :=
  {| Enforcer_model := "model"; Enforcer_policy := "old"; Enforcer_log := false |}.

(** A running process: a generation is in the handle, its policy file
    on disk, and the change signal was bumped to [5]. *)
Definition deployed : World := {|
  enforcer := Some (Some old_generation);
  files := {[ "/app/rbac_model.conf" := "model";
              "/app/gen_rbac_policy.csv" := "old" ]};
  cache := {[ "role:sync:casbin" := "5" ]};
  trace := []
|}.

Definition with_write (o : WriteOutcome) (env : Env) : Env := {|
  env_db := env_db env;
  env_role_err := env_role_err env;
  env_menu_err := env_menu_err env;
  env_res_err := env_res_err env;
  env_sched := env_sched env;
  env_rename_err := env_rename_err env;
  env_write := o;
  env_casbin_err := env_casbin_err env;
  env_cache_err := env_cache_err env
|}.

(** The disk fills up while the policy file is written. *)
Definition disk_full_env : Env :=
  with_write (WriteShortErr 3 "no space left on device") orders_env.

(** The policy file cannot be opened for writing. *)
Definition read_only_env : Env :=
  with_write (WriteOpenErr "permission denied") orders_env.

Definition orders_buffer : string :=
  compile 2 two_workers (queueOf orders_env (enabledRoles orders_env)).

(** An enabled role without any menu. *)
Definition guest_db : DB := {|
  tbl_role := [mkRole "guest" "enabled"];
  tbl_menu := [mkMenu "M1" "enabled" "" ""];
  tbl_role_menu := [];
  tbl_menu_resource := [mkMenuResource "a" "M1" "GET" "/api/v1/orders"]
|}.

Definition guest_env : Env :=
  calm guest_db {| sched_recv := [0%nat]; sched_flush := [0%nat; 1%nat] |}.

(** Two menus of one role gate the same endpoint. *)
Definition shared_db : DB := {|
  tbl_role := [mkRole "admin" "enabled"];
  tbl_menu := [mkMenu "U1" "enabled" "" ""; mkMenu "U2" "enabled" "" ""];
  tbl_role_menu := [mkRoleMenu "admin" "U1"; mkRoleMenu "admin" "U2"];
  tbl_menu_resource :=
    [mkMenuResource "u1" "U1" "GET" "/api/v1/users";
     mkMenuResource "u2" "U2" "GET" "/api/v1/users"]
|}.

Definition shared_env : Env :=
  calm shared_db {| sched_recv := [1%nat]; sched_flush := [0%nat; 1%nat] |}.

(** The menu query of role [editor] fails. *)
Definition flaky_env : Env := {|
  env_db := orders_db;
  env_role_err := None;
  env_menu_err := λ p, if decide (MenuQueryParam_RoleID p = "editor")
                       then Some "connection reset" else None;
  env_res_err := λ _, None;
  env_sched := {| sched_recv := [1%nat]; sched_flush := [0%nat; 1%nat] |};
  env_rename_err := None;
  env_write := WriteOk;
  env_casbin_err := None;
  env_cache_err := None
|}.

(** [LoadThread = 0] in the configuration file. *)
Definition idle_cfg : Config := {|
  Casbin_Disable := false;
  Casbin_SkippedPathPrefixes := [];
  Casbin_LoadThread := 0;
  Casbin_ModelFile := "rbac_model.conf";
  Casbin_GenPolicyFile := "gen_rbac_policy.csv";
  General_WorkDir := "/app";
  General_Debug := false
|}.

(** No worker: nothing is received, nothing is flushed. *)
Definition idle_env : Env :=
  calm orders_db {| sched_recv := []; sched_flush := [] |}.

(** Every role is disabled. *)
Definition retired_db : DB := {|
  tbl_role := [mkRole "editor" "disabled"];
  tbl_menu := [mkMenu "M1" "enabled" "" ""];
  tbl_role_menu := [mkRoleMenu "editor" "M1"];
  tbl_menu_resource := [mkMenuResource "a" "M1" "GET" "/api/v1/orders"]
|}.

Definition retired_env : Env := calm retired_db two_workers.

(** The cache cannot be reached. *)
Definition outage_env : Env := {|
  env_db := orders_db;
  env_role_err := None;
  env_menu_err := λ _, None;
  env_res_err := λ _, None;
  env_sched := two_workers;
  env_rename_err := None;
  env_write := WriteOk;
  env_casbin_err := None;
  env_cache_err := Some "dial tcp: connection refused"
|}.

(** A casbin engine that would grant everything. *)
Definition permissive : Enforcer → string → string → string → result bool :=
  λ _ _ _ _, Ok true.

(** The process starts on a database without an enabled role, and one
    tick has passed; no change signal was written yet. *)
Definition cold_start : World :=
  (execution app_cfg retired_env [retired_env]
             (fresh {[ "/app/rbac_model.conf" := "model" ]} ∅)).2.

Definition orders_request : middleware.Context := {|
  middleware.Request_URL_Path := "/api/v1/orders";
  middleware.Request_Method := "GET";
  middleware.IsRootUser := false;
  middleware.UserCache_RoleIDs := ["editor"]
|}.

End Examples.

(** * The rest of the subsystem *)

(** ** package mods: the router prefixes *)

Module mods.

Definition apiPrefix : string := "/api/".

(** [Mods.RouterPrefixes], the [allowedPrefixes] of [startHTTPServer]. *)
Definition RouterPrefixes : list string := [apiPrefix].

End mods.

(** ** package schema: [Menus.SplitParentIDs]

    The loop state is the pair [(parentIDs, idMapper)]; the inner loop
    over the ids of a parent path is the one of [queryRoleResources]. *)

Definition split_menu (acc : idAcc) (item : Menu) : idAcc :=
  if decide (Menu_ID item ∈ acc.2) then acc
  else
    let acc1 := (acc.1, {[Menu_ID item]} ∪ acc.2) in
    if Strings.nonempty (Menu_ParentPath item) then
      foldl scan_pid acc1 (Strings.Split (Menu_ParentPath item) util.TreePathDelimiter)
    else acc1.

Definition SplitParentIDs (a : list Menu) : list string :=
  (foldl split_menu ([], ∅) a).1.

(** ** package schema: [Menus.ToMap] and [Menus.ToTree]

    [Menus] is a slice of pointers, and [ToTree] links the menus through
    their [Children] field: a menu is a node of a heap, a [*Menu] its
    address (a nil pointer is an address without a node), and [Children],
    a pointer to a slice, is [None] when nil.  The slice belongs to one
    menu: [ToTree] and the JSON decoder, the only writers of the field,
    allocate it per menu.  The fields other than [ID], [ParentID] and
    [Children] play no part. *)

Module menus.

Record Node := mkNode {
  Node_ID : string;
  Node_ParentID : string;
  Children : option (list nat)
}.

Abbreviation Heap := (gmap nat Node).

(** [Menus.ToMap]; [None] is the panic of dereferencing a nil item. *)
Definition ToMap (h : Heap) (a : list nat) : option (gmap string nat) :=
  foldl (λ om item, m ← om; n ← h !! item; Some (<[Node_ID n := item]> m)) (Some ∅) a.

(** The node at an address that [ToMap] has dereferenced. *)
Definition node (h : Heap) (item : nat) : Node :=
  default (mkNode "" "" None) (h !! item).

(** The body of the loop of [ToTree], on the state [(list, heap)]. *)
Definition tree_step (m : gmap string nat) (st : list nat * Heap) (item : nat)
  : list nat * Heap :=
  let n := node st.2 item in
  if decide (Node_ParentID n = "") then (st.1 ++ [item], st.2)
  else
    match m !! Node_ParentID n with
    | Some parent =>
        let p := node st.2 parent in
        let children := match Children p with
                        | None => [item]
                        | Some cs => cs ++ [item]
                        end in
        (st.1, <[parent := mkNode (Node_ID p) (Node_ParentID p) (Some children)]> st.2)
    | None => st
    end.

(** [Menus.ToTree]: the roots it returns and the heap it leaves. *)
Definition ToTree (h : Heap) (a : list nat) : option (list nat * Heap) :=
  m ← ToMap h a;
  Some (foldl (tree_step m) ([], h) a).

(** The children of a node, nil read as the empty slice. *)
Definition kids (h : Heap) (p : nat) : list nat := default [] (Children (node h p)).

End menus.

(** ** type RBAC: [Init] *)

Module rbac.

(** The fields of [config.C] read by [Init] besides those of [Config]. *)
Record InitConfig := mkInitConfig {
  Storage_DB_AutoMigrate : bool;
  General_MenuFile : string
}.

(** How the two calls of [Init] that leave the subsystem end:
    [AutoMigrate], and [MenuBIZ.InitFromFile] on a path. *)
Record InitEnv := mkInitEnv {
  env_migrate_err : option error;
  env_menu_file_err : string → option error
}.

(** [RBAC.Init] *)
Definition Init (cfg : Config) (icfg : InitConfig) (ienv : InitEnv) (env : Env)
  : M outcome :=
  match (if Storage_DB_AutoMigrate icfg then env_migrate_err ienv else None) with
  | Some err => ret (Return (Some err))
  | None =>
      do o <- Load cfg env;
      match o with
      | Return (Some err) => ret (Return (Some err))
      | Panic msg => ret (Panic msg)
      | Return None =>
          if Strings.nonempty (General_MenuFile icfg) then
            let fullPath := filepath.Join (General_WorkDir cfg) (General_MenuFile icfg) in
            match env_menu_file_err ienv fullPath with
            | Some err =>
                do_ logging.Error "初始化菜单数据失败" err;
                ret (Return None)
            | None => ret (Return None)
            end
          else ret (Return None)
      end
  end.

End rbac.

(** ** package fmt: the verb [%d] *)

Module fmt.

Definition digitChar (d : Z) : ascii := ascii_of_nat (Z.to_nat (48 + d)).

(** The decimal digits of [u] written in front of [acc], the least
    significant digit first and from right to left, as the loop
    [for u >= 10 { ... }] of the integer formatter does.  Twenty digits
    hold every [uint64]. *)
Fixpoint fmtUint (fuel : nat) (u : Z) (acc : string) : string :=
  match fuel with
  | O => acc
  | S fuel' =>
      if u <? 10 then String (digitChar u) acc
      else fmtUint fuel' (u / 10) (String (digitChar (u mod 10)) acc)
  end.

(** [fmt.Sprintf("%d", n)] for an [int64]. *)
Definition Sprintf_d (n : Z) : string :=
  if n <? 0 then String "-" (fmtUint 20 (- n) "") else fmtUint 20 n "".

End fmt.

(** ** package cachex: the memory cache

    [memCache] keeps its entries in a [*cache.Cache] of
    [github.com/patrickmn/go-cache], created by [cache.New(0, ...)]: with
    a default expiration of zero the library never expires an entry that
    is set without a positive duration.  Instants are Unix nanoseconds,
    durations nanoseconds. *)

Module gocache.

Record Item := mkItem {
  Object : string;
  Expiration : Z
}.

Abbreviation Cache := (gmap string Item).

(** The test of [Get] and of [Items] on an entry at the instant [now]. *)
Definition Expired (now : Z) (it : Item) : bool :=
  (0 <? Expiration it) && (Expiration it <? now).

(** [c.Set(k, x, d)]: [d == DefaultExpiration] stands for the default of
    the cache, which is [NoExpiration]. *)
Definition Set_ (now : Z) (c : Cache) (k x : string) (d : Z) : Cache :=
  let d := if d =? 0 then -1 else d in
  let e := if 0 <? d then now + d else 0 in
  <[k := mkItem x e]> c.

Definition Get (now : Z) (c : Cache) (k : string) : option string :=
  match c !! k with
  | None => None
  | Some it => if Expired now it then None else Some (Object it)
  end.

Definition Delete (c : Cache) (k : string) : Cache := delete k c.

(** [c.Items()]: the entries that have not expired. *)
Definition Items (now : Z) (c : Cache) : Cache :=
  filter (λ kv, Expired now kv.2 = false) c.

Definition Flush (c : Cache) : Cache := ∅.

End gocache.

Module memCache.

(** [strings.TrimPrefix] *)
Definition TrimPrefix (s prefix : string) : string :=
  if String.prefix prefix s
  then String.substring (String.length prefix)
                        (String.length s - String.length prefix)%nat s
  else s.

Section WithOptions.

(** [a.opts.Delimiter] *)
Variable Delimiter : string.

Definition getKey (ns key : string) : string := ns +:+ Delimiter +:+ key.

Definition Set_ (now : Z) (c : gocache.Cache) (ns key value : string)
           (expiration : list Z) : gocache.Cache * option error :=
  let exp := match expiration with e :: _ => e | [] => 0 end in
  (gocache.Set_ now c (getKey ns key) value exp, None).

Definition Get (now : Z) (c : gocache.Cache) (ns key : string)
  : string * bool * option error :=
  match gocache.Get now c (getKey ns key) with
  | None => ("", false, None)
  | Some val => (val, true, None)
  end.

Definition Exists (now : Z) (c : gocache.Cache) (ns key : string) : bool * option error :=
  match gocache.Get now c (getKey ns key) with
  | None => (false, None)
  | Some _ => (true, None)
  end.

Definition Delete (c : gocache.Cache) (ns key : string) : gocache.Cache * option error :=
  (gocache.Delete c (getKey ns key), None).

Definition GetAndDelete (now : Z) (c : gocache.Cache) (ns key : string)
  : gocache.Cache * (string * bool * option error) :=
  match Get now c ns key with
  | (_, _, Some err) => (c, ("", false, Some err))
  | (_, false, None) => (c, ("", false, None))
  | (value, true, None) => (gocache.Delete c (getKey ns key), (value, true, None))
  end.

(** [Iterator]: the calls [fn(ctx, key, value)] it makes, [kvs] being
    the entries of [a.cache.Items()] in the order in which [range] yields
    them. *)
Fixpoint Iterator (ns : string) (fn : string → string → bool)
         (kvs : list (string * gocache.Item)) : list (string * string) :=
  match kvs with
  | [] => []
  | (k, v) :: rest =>
      if String.prefix (getKey ns "") k then
        let key := TrimPrefix k (getKey ns "") in
        if fn key (gocache.Object v)
        then (key, gocache.Object v) :: Iterator ns fn rest
        else [(key, gocache.Object v)]
      else Iterator ns fn rest
  end.

Definition Close (c : gocache.Cache) : gocache.Cache * option error :=
  (gocache.Flush c, None).

End WithOptions.

End memCache.

(** ** Authentication: [util.GetToken], [Login.ParseUserID] of package
    biz and [middleware.AuthWithConfig] *)

Module authn.

Import errors.

(** What the authentication stage reads and writes of a [*gin.Context]:
    the header and the query parameter the token is taken from, and the
    values of the request context, those the casbin middleware reads
    ([Base]) and the user id and token. *)
Record Context := mkContext {
  Base : middleware.Context;
  Header_Authorization : string;
  Query_accessToken : string;
  UserID : string;
  UserToken : string
}.

(** [util.NewUserToken], [util.NewIsRootUser], [util.NewUserCache] and
    [util.NewUserID] on the context of the request. *)
Definition NewUserToken (c : Context) (userToken : string) : Context :=
  {| Base := Base c; Header_Authorization := Header_Authorization c;
     Query_accessToken := Query_accessToken c; UserID := UserID c;
     UserToken := userToken |}.

Definition NewIsRootUser (c : Context) : Context :=
  {| Base := {| middleware.Request_URL_Path := middleware.Request_URL_Path (Base c);
                middleware.Request_Method := middleware.Request_Method (Base c);
                middleware.IsRootUser := true;
                middleware.UserCache_RoleIDs := middleware.UserCache_RoleIDs (Base c) |};
     Header_Authorization := Header_Authorization c;
     Query_accessToken := Query_accessToken c; UserID := UserID c;
     UserToken := UserToken c |}.

Definition NewUserCache (c : Context) (roleIDs : list string) : Context :=
  {| Base := {| middleware.Request_URL_Path := middleware.Request_URL_Path (Base c);
                middleware.Request_Method := middleware.Request_Method (Base c);
                middleware.IsRootUser := middleware.IsRootUser (Base c);
                middleware.UserCache_RoleIDs := roleIDs |};
     Header_Authorization := Header_Authorization c;
     Query_accessToken := Query_accessToken c; UserID := UserID c;
     UserToken := UserToken c |}.

Definition NewUserID (c : Context) (userID : string) : Context :=
  {| Base := Base c; Header_Authorization := Header_Authorization c;
     Query_accessToken := Query_accessToken c; UserID := userID;
     UserToken := UserToken c |}.

(** [util.GetToken] *)
Definition GetToken (c : Context) : string :=
  let auth := Header_Authorization c in
  let prefix := "Bearer " in
  let token :=
    if Strings.nonempty auth && String.prefix prefix auth
    then String.substring (String.length prefix)
                          (String.length auth - String.length prefix)%nat auth
    else auth in
  if Strings.nonempty token then token else Query_accessToken c.

(** The fields of [config.C] read by the authentication. *)
Record Settings := mkSettings {
  Auth_Disable : bool;
  Auth_SkippedPathPrefixes : list string;
  Root_ID : string
}.

Definition CacheNSForUser : string := "user".
Definition ErrInvalidTokenID : string := "com.invalid.token".
Definition UserStatusActivated : string := "activated".
Definition DefaultUnauthorizedID : string := "unauthorized".

(** [errors.Unauthorized] *)
Definition Unauthorized (id detail : string) : Error :=
  {| ID := if Strings.nonempty id then id else DefaultUnauthorizedID;
     Code := 401; Detail := detail; Status := "Unauthorized" |}.

Definition invalidToken : Error := Unauthorized ErrInvalidTokenID "Invalid access token".

Record User := mkUser {
  User_ID : string;
  User_Status : string
}.

Record UserRole := mkUserRole {
  UserRole_UserID : string;
  UserRole_RoleID : string
}.

(** How [Auth.ParseSubject] ends: with the subject of the token, with
    [jwtx.ErrInvalidToken], or with another error. *)
Inductive subject : Type :=
| Subject (userID : string)
| ErrInvalidToken
| SubjectError (err : error).

(** What [ParseUserID] meets outside: the token verifier, the user and
    user-role tables with the failures of their queries, the failures of
    the two cache calls, and the JSON codec of [util.UserCache]. *)
Record Stores := mkStores {
  ParseSubject : string → subject;
  tbl_user : list User;
  tbl_user_role : list UserRole;
  user_err : option error;
  user_role_err : option error;
  envGet : Env;
  envSet : Env;
  Unmarshal : string → list string;
  MarshalToString : list string → string
}.

(** [util.ParseUserCache(s).RoleIDs] *)
Definition ParseUserCache (st : Stores) (s : string) : list string :=
  if Strings.nonempty s then Unmarshal st s else [].

(** [UserDAL.Get] with [SelectFields: "status"]: [nil] when there is no
    such user. *)
Definition UserDAL_Get (st : Stores) (id : string) : result (option User) :=
  match user_err st with
  | Some e => Err e
  | None =>
      Ok (match List.find (λ u, bool_decide (User_ID u = id)) (tbl_user st) with
          | Some u => Some {| User_ID := ""; User_Status := User_Status u |}
          | None => None
          end)
  end.

(** [UserBIZ.GetRoleIDs]: the query by [UserID] and [ToRoleIDs]. *)
Definition GetRoleIDs (st : Stores) (id : string) : result (list string) :=
  match user_role_err st with
  | Some e => Err e
  | None =>
      Ok (map UserRole_RoleID
              (filter (λ ur, Is_true (dal.where_str id
                                        (bool_decide (UserRole_UserID ur = id))))
                      (tbl_user_role st)))
  end.

(** How [ParseUserID] ends. *)
Inductive parsed : Type :=
| Parsed (userID : string)
| Failed (err : GoError).

(** [Login.ParseUserID]: the result, and the request with the context
    it was given ([c.Request = c.Request.WithContext(...)]). *)
Definition ParseUserID (s : Settings) (st : Stores) (c : Context) : M (parsed * Context) :=
  let rootID := Root_ID s in
  if Auth_Disable s then ret (Parsed rootID, c)
  else
    let token := GetToken c in
    if negb (Strings.nonempty token) then ret (Failed (Typed invalidToken), c)
    else
      let ctx := NewUserToken c token in
      match ParseSubject st token with
      | ErrInvalidToken => ret (Failed (Typed invalidToken), c)
      | SubjectError err => ret (Failed (Plain err), c)
      | Subject userID =>
          if decide (userID = rootID) then ret (Parsed userID, NewIsRootUser ctx)
          else
            do g <- cachex.Get (envGet st) CacheNSForUser userID;
            match g with
            | (_, _, Some err) => ret (Failed (Plain err), c)
            | (userCacheVal, true, None) =>
                ret (Parsed userID, NewUserCache ctx (ParseUserCache st userCacheVal))
            | (_, false, None) =>
                match UserDAL_Get st userID with
                | Err err => ret (Failed (Plain err), c)
                | Ok None => ret (Failed (Typed invalidToken), c)
                | Ok (Some user) =>
                    if negb (bool_decide (User_Status user = UserStatusActivated))
                    then ret (Failed (Typed invalidToken), c)
                    else
                      match GetRoleIDs st userID with
                      | Err err => ret (Failed (Plain err), c)
                      | Ok roleIDs =>
                          do e <- cachex.Set_ (envSet st) CacheNSForUser userID
                                    (MarshalToString st roleIDs);
                          match e with
                          | Some err => ret (Failed (Plain err), c)
                          | None => ret (Parsed userID, NewUserCache ctx roleIDs)
                          end
                      end
                end
            end
      end.

Record AuthConfig := mkAuthConfig {
  AuthConfig_AllowedPathPrefixes : list string;
  AuthConfig_SkippedPathPrefixes : list string;
  AuthConfig_RootID : string;
  AuthConfig_Skipper : option (Context → bool);
  AuthConfig_ParseUserID : Context → M (parsed * Context)
}.

(** What the handler does with the request: [c.Next()] with the request
    as it is by then, or an error response. *)
Inductive Handled : Type :=
| Next (c : Context)
| Aborted (h : middleware.Handled).

Definition skips (config : AuthConfig) (c : Context) : bool :=
  negb (middleware.AllowedPathPrefixes (Base c) (AuthConfig_AllowedPathPrefixes config))
  || middleware.SkippedPathPrefixes (Base c) (AuthConfig_SkippedPathPrefixes config)
  || match AuthConfig_Skipper config with
     | Some skipper => skipper c
     | None => false
     end.

(** The handler returned by [AuthWithConfig(config)]. *)
Definition AuthWithConfig (config : AuthConfig) (c : Context) : M Handled :=
  if skips config c then ret (Next c)
  else
    do p <- AuthConfig_ParseUserID config c;
    match p with
    | (Failed err, _) => ret (Aborted (middleware.ResError err))
    | (Parsed userID, c') =>
        let ctx := NewUserID c' userID in
        ret (Next (if decide (userID = AuthConfig_RootID config)
                   then NewIsRootUser ctx else ctx))
    end.

(** The configuration [useHTTPMiddlewares] passes to [AuthWithConfig]. *)
Definition authConfig (s : Settings) (st : Stores) (allowedPrefixes : list string)
  : AuthConfig :=
  {| AuthConfig_AllowedPathPrefixes := allowedPrefixes;
     AuthConfig_SkippedPathPrefixes := Auth_SkippedPathPrefixes s;
     AuthConfig_RootID := Root_ID s;
     AuthConfig_Skipper := None;
     AuthConfig_ParseUserID := ParseUserID s st |}.

(** The casbin middleware behind the authentication middleware, as
    [useHTTPMiddlewares] chains them; the rate limiter between the two is
    taken disabled, which makes it the empty handler. *)
Definition authThenCasbin (Enforce : Enforcer → string → string → string → result bool)
           (cfg : Config) (s : Settings) (st : Stores) (c : Context)
  : M middleware.Handled :=
  do a <- AuthWithConfig (authConfig s st mods.RouterPrefixes) c;
  match a with
  | Aborted h => ret h
  | Next c' =>
      λ w, (middleware.CasbinWithConfig Enforce
              (bootstrap.casbinConfig cfg mods.RouterPrefixes w) (Base c'), w)
  end.

End authn.

(** [syncToCasbin] at the Unix time [now]:
    [fmt.Sprintf("%d", time.Now().Unix())] is the value set. *)
Definition syncToCasbinAt (env : Env) (now : Z) : M (option error) :=
  syncToCasbin env (fmt.Sprintf_d now).

(** ** Vocabulary of the further properties *)

(** The answer of the enforcer [e] on the request of [c] for the
    subject [sub]. *)
Definition verdict (Enforce : Enforcer → string → string → string → result bool)
           (e : Enforcer) (c : middleware.Context) (sub : string) : result bool :=
  Enforce e sub (middleware.Request_URL_Path c) (middleware.Request_Method c).

(** The body [util.ResError] sends for an error that is not an
    [*errors.Error]. *)
Definition internalError : errors.Error :=
  {| errors.ID := "internal_server_error"; errors.Code := 500;
     errors.Detail := "Internal Server Error";
     errors.Status := "Internal Server Error" |}.

(** The slice of parent ids has no duplicate and lies within the map. *)
Definition split_ok (acc : idAcc) : Prop :=
  NoDup acc.1 ∧ ∀ x, x ∈ acc.1 → x ∈ acc.2.

(** An id of the map is in the slice or is one of the ids [S]. *)
Definition covers (S : string → Prop) (acc : idAcc) : Prop :=
  ∀ x, x ∈ acc.2 → x ∈ acc.1 ∨ S x.

(** The byte [d] occurs in [s]. *)
Fixpoint occurs (d : ascii) (s : string) : bool :=
  match s with
  | EmptyString => false
  | String c s' => Ascii.eqb c d || occurs d s'
  end.

(** ** Further concrete worlds *)

Module Cases.

(** A casbin engine that refuses [guest], fails on [broken] and grants
    every other subject. *)
Definition moody : Enforcer → string → string → string → result bool :=
  λ _ sub _ _,
    if decide (sub = "guest") then Ok false
    else if decide (sub = "broken") then Err "invalid matcher"
    else Ok true.

(** [LoadThread = -1] in the configuration file. *)
Definition negative_cfg : Config := {|
  Casbin_Disable := false;
  Casbin_SkippedPathPrefixes := [];
  Casbin_LoadThread := -1;
  Casbin_ModelFile := "rbac_model.conf";
  Casbin_GenPolicyFile := "gen_rbac_policy.csv";
  General_WorkDir := "/app";
  General_Debug := false
|}.

(** The settings of a server whose root user is [root] and whose login
    route needs no token. *)
Definition auth_settings : authn.Settings := {|
  authn.Auth_Disable := false;
  authn.Auth_SkippedPathPrefixes := ["/api/v1/login"];
  authn.Root_ID := "root"
|}.

Definition open_settings : authn.Settings := {|
  authn.Auth_Disable := true;
  authn.Auth_SkippedPathPrefixes := ["/api/v1/login"];
  authn.Root_ID := "root"
|}.

(** The token [t-alice] is the one of user [alice], who was frozen after
    her roles were cached; [t-bob] is the one of [bob], activated;
    [t-root] is the one of the root user. *)
Definition users : authn.Stores := {|
  authn.ParseSubject := λ token,
    if decide (token = "t-alice") then authn.Subject "alice"
    else if decide (token = "t-bob") then authn.Subject "bob"
    else if decide (token = "t-root") then authn.Subject "root"
    else authn.ErrInvalidToken;
  authn.tbl_user := [authn.mkUser "alice" "freezed"; authn.mkUser "bob" "activated"];
  authn.tbl_user_role := [authn.mkUserRole "alice" "editor";
                          authn.mkUserRole "bob" "exporter";
                          authn.mkUserRole "bob" "guest"];
  authn.user_err := None;
  authn.user_role_err := None;
  authn.envGet := Examples.orders_env;
  authn.envSet := Examples.orders_env;
  authn.Unmarshal := λ s, if decide (s = "editor!") then ["editor"] else [];
  authn.MarshalToString := λ ids, Strings.concat (map (λ id, id +:+ "!") ids)
|}.

Definition request (auth : string) : authn.Context := {|
  authn.Base := {| middleware.Request_URL_Path := "/api/v1/orders";
                   middleware.Request_Method := "GET";
                   middleware.IsRootUser := false;
                   middleware.UserCache_RoleIDs := [] |};
  authn.Header_Authorization := auth;
  authn.Query_accessToken := "";
  authn.UserID := "";
  authn.UserToken := ""
|}.

(** The running process, with the roles of [alice] in the cache. *)
Definition serving : World := {|
  enforcer := Some (Some Examples.old_generation);
  files := ∅;
  cache := {[ "user:alice" := "editor!" ]};
  trace := []
|}.

End Cases.

(** * Properties *)

(** ** Strings and the id scan *)

Lemma nonempty_true (s : string) : Strings.nonempty s = true ↔ s ≠ "".
Proof. destruct s; simpl; split; congruence. Qed.

Lemma nonempty_false (s : string) : Strings.nonempty s = false ↔ s = "".
Proof. destruct s; simpl; split; congruence. Qed.

Lemma scan_pid_ok acc pid : acc_ok acc → acc_ok (scan_pid acc pid).
Proof.
  intros [Hnd Hsync]. unfold scan_pid.
  destruct (Strings.nonempty pid); [|by split].
  destruct (decide (pid ∈ acc.2)) as [Hin|Hnin]; [by split|].
  split; simpl.
  - apply NoDup_app. split; [done|]. split; [|apply NoDup_singleton].
    intros x Hx Hx'. apply list_elem_of_singleton in Hx' as ->.
    apply Hnin, Hsync, Hx.
  - intros x. rewrite elem_of_app, list_elem_of_singleton, Hsync. set_solver.
Qed.

Lemma scan_pid_elem acc pid x :
  x ∈ (scan_pid acc pid).2 ↔ x ∈ acc.2 ∨ (x = pid ∧ pid ≠ "").
Proof.
  unfold scan_pid. destruct (Strings.nonempty pid) eqn:Hne.
  - apply nonempty_true in Hne.
    destruct (decide (pid ∈ acc.2)); simpl; set_solver.
  - apply nonempty_false in Hne. set_solver.
Qed.

Lemma scan_pids_ok pids : ∀ acc, acc_ok acc → acc_ok (foldl scan_pid acc pids).
Proof.
  induction pids as [|pid pids IH]; intros acc Hacc; simpl; [done|].
  apply IH, scan_pid_ok, Hacc.
Qed.

Lemma scan_pids_elem pids : ∀ acc x,
  x ∈ (foldl scan_pid acc pids).2 ↔ x ∈ acc.2 ∨ (x ≠ "" ∧ x ∈ pids).
Proof.
  induction pids as [|pid pids IH]; intros acc x; simpl.
  - set_solver.
  - rewrite IH, scan_pid_elem, elem_of_cons. naive_solver.
Qed.

Lemma scan_menu_ok acc item : acc_ok acc → acc_ok (scan_menu acc item).
Proof.
  intros Hacc. unfold scan_menu.
  destruct (decide (Menu_ID item ∈ acc.2)) as [Hin|Hnin]; [done|].
  assert (acc_ok (acc.1 ++ [Menu_ID item], {[Menu_ID item]} ∪ acc.2)) as Hacc1.
  { destruct Hacc as [Hnd Hsync]. split; simpl.
    - apply NoDup_app. split; [done|]. split; [|apply NoDup_singleton].
      intros x Hx Hx'. apply list_elem_of_singleton in Hx' as ->.
      apply Hnin, Hsync, Hx.
    - intros x. rewrite elem_of_app, list_elem_of_singleton, Hsync. set_solver. }
  destruct (Strings.nonempty (Menu_ParentPath item)); [|done].
  by apply scan_pids_ok.
Qed.

(** What one round of the outer loop adds: nothing when the id of the
    item is already collected, otherwise the id and the ids its parent
    path names. *)
Lemma scan_menu_elem acc item x :
  x ∈ (scan_menu acc item).2 ↔
  x ∈ acc.2 ∨ (¬ (Menu_ID item ∈ acc.2) ∧
               (x = Menu_ID item ∨ named_in x (Menu_ParentPath item))).
Proof.
  unfold scan_menu, named_in.
  destruct (decide (Menu_ID item ∈ acc.2)) as [Hin|Hnin]; [naive_solver|].
  destruct (Strings.nonempty (Menu_ParentPath item)) eqn:Hpp.
  - rewrite scan_pids_elem. simpl. set_solver.
  - apply nonempty_false in Hpp. rewrite Hpp. simpl.
    split; [set_solver|].
    intros [?|[_ [->|[Hx Hin]]]]; [set_solver..|].
    apply list_elem_of_singleton in Hin. done.
Qed.

Lemma scan_menus_ok data : ∀ acc, acc_ok acc → acc_ok (foldl scan_menu acc data).
Proof.
  induction data as [|item data IH]; intros acc Hacc; simpl; [done|].
  apply IH, scan_menu_ok, Hacc.
Qed.

Lemma scan_menus_mono data : ∀ acc x, x ∈ acc.2 → x ∈ (foldl scan_menu acc data).2.
Proof.
  induction data as [|item data IH]; intros acc x Hx; simpl; [done|].
  apply IH, scan_menu_elem. by left.
Qed.

(** Every collected id is the id of a scanned menu or is named in the
    parent path of one. *)
Lemma scan_menus_sound data : ∀ acc x,
  x ∈ (foldl scan_menu acc data).2 →
  x ∈ acc.2 ∨ ∃ m, m ∈ data ∧ (x = Menu_ID m ∨ named_in x (Menu_ParentPath m)).
Proof.
  induction data as [|item data IH]; intros acc x Hx; simpl in *; [by left|].
  apply IH in Hx as [Hx|(m & Hm & Hx)].
  - apply scan_menu_elem in Hx as [Hx|[_ Hx]]; [by left|].
    right. exists item. split; [apply elem_of_cons; by left|done].
  - right. exists m. split; [apply elem_of_cons; by right|done].
Qed.

(** The id of every scanned menu is collected. *)
Lemma scan_menus_ids data : ∀ acc m,
  m ∈ data → Menu_ID m ∈ (foldl scan_menu acc data).2.
Proof.
  induction data as [|item data IH]; intros acc m Hm; simpl.
  - by apply elem_of_nil in Hm.
  - apply elem_of_cons in Hm as [->|Hm]; [|by apply IH].
    apply scan_menus_mono, scan_menu_elem.
    destruct (decide (Menu_ID item ∈ acc.2)); [by left|right; auto].
Qed.

Lemma scan_menus_complete data :
  NoDup (map Menu_ID data) → paths_closed data →
  ∀ m, m ∈ data → covered (foldl scan_menu ([], ∅) data).2 m.
Proof.
  induction data as [|item data IH] using rev_ind; intros Hnd Hcl m Hm.
  { by apply elem_of_nil in Hm. }
  rewrite foldl_app. simpl.
  rewrite map_app in Hnd. apply NoDup_app in Hnd as (Hnd & Hfresh & _).
  assert (paths_closed data) as Hcl'.
  { intros x y Hx Hy. apply Hcl; apply elem_of_app; by left. }
  specialize (IH Hnd Hcl').
  set (acc := foldl scan_menu ([], ∅) data) in *.
  assert (∀ m', m' ∈ data → covered (scan_menu acc item).2 m') as Hold.
  { intros m' Hm'. destruct (IH m' Hm') as [H1 H2].
    split; [|intros p Hp]; apply scan_menu_elem; left; auto. }
  apply elem_of_app in Hm as [Hm|Hm]; [by apply Hold|].
  apply list_elem_of_singleton in Hm as ->.
  destruct (decide (Menu_ID item ∈ acc.2)) as [Hin|Hnin].
  - (* the round is skipped: the id came from an earlier menu *)
    apply scan_menus_sound in Hin as [Hin|(m' & Hm' & [Heq|Hnamed])].
    + set_solver.
    + exfalso. apply (Hfresh (Menu_ID item)).
      * rewrite Heq. apply list_elem_of_fmap. by exists m'.
      * simpl. apply elem_of_cons. by left.
    + destruct (Hold m' Hm') as [_ Hpp]. split.
      * by apply Hpp.
      * intros p Hp. apply Hpp.
        apply (Hcl m' item); [apply elem_of_app; by left
                             |apply elem_of_app; right; by apply list_elem_of_singleton
                             |done..].
  - split; [|intros p Hp]; apply scan_menu_elem; right; auto.
Qed.

Lemma collectMenuIDs_NoDup data : NoDup (collectMenuIDs data).
Proof.
  unfold collectMenuIDs.
  apply (scan_menus_ok data ([], ∅)). split; simpl; [constructor|set_solver].
Qed.

Lemma collectMenuIDs_elem data x :
  x ∈ collectMenuIDs data ↔ x ∈ (foldl scan_menu ([], ∅) data).2.
Proof.
  unfold collectMenuIDs.
  apply (scan_menus_ok data ([], ∅)). split; simpl; [constructor|set_solver].
Qed.

Lemma collectMenuIDs_nonempty item data : collectMenuIDs (item :: data) ≠ [].
Proof.
  intros Heq.
  assert (Menu_ID item ∈ collectMenuIDs (item :: data)) as Hin.
  { apply collectMenuIDs_elem, scan_menus_ids, elem_of_cons. by left. }
  rewrite Heq in Hin. by apply elem_of_nil in Hin.
Qed.

(** ** The aggregation of one role *)

Lemma roleMenuQuery_elem db roleID id :
  id ∈ dal.roleMenuQuery db roleID ↔
  ∃ rm, rm ∈ tbl_role_menu db ∧ RoleMenu_RoleID rm = roleID ∧ RoleMenu_MenuID rm = id.
Proof.
  unfold dal.roleMenuQuery. rewrite list_elem_of_fmap. split.
  - intros (rm & -> & Hrm). apply list_elem_of_filter in Hrm as [? ?]. eauto.
  - intros (rm & Hrm & Hr & <-). exists rm. split; [done|].
    apply list_elem_of_filter. done.
Qed.

Lemma Menu_rows_linked db roleID m :
  roleID ≠ "" →
  m ∈ dal.Menu_rows db (menuParam roleID) ↔ linked db roleID m.
Proof.
  intros Hrole. apply nonempty_true in Hrole.
  unfold dal.Menu_rows, linked. rewrite list_elem_of_filter.
  unfold dal.Menu_where, dal.where_str, dal.where_ids, menuParam. simpl.
  rewrite Hrole. rewrite <- roleMenuQuery_elem.
  rewrite !andb_True, !bool_decide_spec. naive_solver.
Qed.

Lemma MenuResource_rows_elem db ids r :
  ids ≠ [] →
  r ∈ dal.MenuResource_rows db (resParam ids) ↔
  r ∈ tbl_menu_resource db ∧ MenuResource_MenuID r ∈ ids.
Proof.
  intros Hids. unfold dal.MenuResource_rows. rewrite list_elem_of_filter.
  unfold dal.MenuResource_where, dal.where_str, dal.where_ids, resParam. simpl.
  destruct ids; [done|]. rewrite bool_decide_spec. naive_solver.
Qed.

Lemma Menu_rows_ids_NoDup db p :
  NoDup (map Menu_ID (tbl_menu db)) →
  NoDup (map Menu_ID (map dal.Menu_select_path (dal.Menu_rows db p))).
Proof.
  unfold dal.Menu_rows. induction (tbl_menu db) as [|m l IH]; simpl; [done|].
  intros Hnd. apply NoDup_cons in Hnd as [Hm Hnd].
  rewrite filter_cons. destruct (decide _); simpl; [|by apply IH].
  apply NoDup_cons. split; [|by apply IH].
  intros Hin. apply Hm.
  apply list_elem_of_fmap in Hin as (m1 & -> & Hin).
  apply list_elem_of_fmap in Hin as (m2 & -> & Hin).
  apply list_elem_of_filter in Hin as [_ Hin]. simpl.
  apply list_elem_of_fmap. by exists m2.
Qed.

Lemma add_events_nil w : add_events [] w = w.
Proof. destruct w. unfold add_events. simpl. by rewrite app_nil_r. Qed.

Lemma add_events_app e1 e2 w :
  add_events e2 (add_events e1 w) = add_events (e1 ++ e2) w.
Proof. unfold add_events. simpl. by rewrite app_assoc. Qed.

Lemma new_events_add {A} (m : M A) (a : A) evs w :
  m w = (a, add_events evs w) → new_events m w = evs.
Proof.
  intros Hm. unfold new_events. rewrite Hm. simpl. by rewrite drop_app_length.
Qed.

Lemma queryRoleResources_run env roleID w :
  queryRoleResources env roleID w
  = (roleResources env roleID, add_events (roleEvents env roleID) w).
Proof.
  unfold roleResources, roleEvents, queryRoleResources, MenuDAL_Query,
    MenuResourceDAL_Query, returning, bind, ret, emit, add_events. simpl.
  destruct (env_menu_err env _); simpl; [done|].
  destruct (map _ _); simpl; [done|].
  destruct (env_res_err env _); simpl; by rewrite <- app_assoc.
Qed.

(** The aggregation without store failure, unfolded. *)
Lemma roleResources_ok env roleID :
  (∀ p, env_menu_err env p = None) → (∀ p, env_res_err env p = None) →
  let data := map dal.Menu_select_path (dal.Menu_rows (env_db env) (menuParam roleID)) in
  roleResources env roleID
  = Ok (match data with
        | [] => []
        | _ :: _ => dal.MenuResource_rows (env_db env) (resParam (collectMenuIDs data))
        end)
  ∧ roleEvents env roleID
    = EvMenuQuery (menuParam roleID) (Ok data)
      :: match data with
         | [] => []
         | _ :: _ =>
             [EvMenuResourceQuery (resParam (collectMenuIDs data))
                (Ok (dal.MenuResource_rows (env_db env) (resParam (collectMenuIDs data))))]
         end.
Proof.
  intros Hm Hr data.
  unfold roleResources, roleEvents, queryRoleResources, MenuDAL_Query,
    MenuResourceDAL_Query, returning, bind, ret, emit. simpl.
  fold (menuParam roleID). rewrite Hm. simpl. fold data.
  destruct data as [|item data']; simpl; [done|].
  fold (resParam (collectMenuIDs (item :: data'))). by rewrite Hr.
Qed.

(** C1, amended.  For a role with a non-empty id, when every store
    query succeeds, over a menu table with unique ids in which the parent
    paths of the menus linked to the role are consistent, the aggregated
    resources of the role are exactly the [MenuResource] rows whose owning
    menu is an enabled menu linked to the role or is named in the parent
    path of such a menu; so a role linked only to a descendant menu
    receives the resources of every ancestor in its parent path.  The
    ids passed to the resource query are free of duplicates. *)
Theorem aggregation_exact env roleID :
  (∀ p, env_menu_err env p = None) →
  (∀ p, env_res_err env p = None) →
  roleID ≠ "" →
  NoDup (map Menu_ID (tbl_menu (env_db env))) →
  linked_paths_closed (env_db env) roleID →
  aggregates_granted env roleID
  ∧ ∀ w p r, EvMenuResourceQuery p r ∈ new_events (queryRoleResources env roleID) w →
             NoDup (MenuResourceQueryParam_MenuIDs p).
Proof.
  intros Hm Hr Hrole Hpk Hcl.
  destruct (roleResources_ok env roleID Hm Hr) as [Hres Hevs].
  set (rows := dal.Menu_rows (env_db env) (menuParam roleID)) in *.
  set (data := map dal.Menu_select_path rows) in *.
  assert (∀ m, m ∈ data ↔ ∃ m0, linked (env_db env) roleID m0
                                ∧ m = dal.Menu_select_path m0) as Hdata.
  { intros m. unfold data. rewrite list_elem_of_fmap.
    split; intros (m0 & H1 & H2).
    - exists m0. split; [by apply Menu_rows_linked|done].
    - exists m0. split; [done|by apply Menu_rows_linked]. }
  split.
  - intros w. rewrite queryRoleResources_run. simpl. rewrite Hres.
    eexists. split; [done|]. intros r. unfold granted.
    destruct data as [|item data'] eqn:Hd.
    + split; [intros Hin; by apply elem_of_nil in Hin|].
      intros (_ & m & Hl & _). exfalso.
      assert (dal.Menu_select_path m ∈ @nil Menu) as Habs by (apply Hdata; eauto).
      by apply elem_of_nil in Habs.
    + rewrite MenuResource_rows_elem by apply collectMenuIDs_nonempty.
      rewrite collectMenuIDs_elem.
      split; intros [Hin Hid]; (split; [done|]).
      * apply scan_menus_sound in Hid as [Hid|(m & Hmd & Hid)]; [set_solver|].
        apply Hdata in Hmd as (m0 & Hl & ->). by exists m0.
      * destruct Hid as (m0 & Hl & Hid).
        assert (covered (foldl scan_menu ([], ∅) (item :: data')).2
                        (dal.Menu_select_path m0)) as [Hc1 Hc2].
        { apply scan_menus_complete.
          - rewrite <- Hd. by apply Menu_rows_ids_NoDup.
          - intros x y Hx Hy. apply Hdata in Hx as (x0 & Hx0 & ->).
            apply Hdata in Hy as (y0 & Hy0 & ->). simpl. by apply Hcl.
          - apply Hdata. eauto. }
        destruct Hid as [->|Hid]; [done|by apply Hc2].
  - intros w p r Hp.
    rewrite (new_events_add _ _ _ _ (queryRoleResources_run env roleID w)) in Hp.
    rewrite Hevs in Hp.
    apply elem_of_cons in Hp as [Hp|Hp]; [done|].
    destruct data; [by apply elem_of_nil in Hp|].
    apply list_elem_of_singleton in Hp. injection Hp as ->. simpl.
    apply collectMenuIDs_NoDup.
Qed.

(** ** The worker pool *)

Lemma append_assoc (a b c : string) : (a +:+ b) +:+ c = a +:+ (b +:+ c).
Proof.
  induction a as [|x a IH]; [done|].
  change (String x ((a +:+ b) +:+ c) = String x (a +:+ (b +:+ c))).
  by rewrite IH.
Qed.

Lemma concat_app l1 l2 :
  Strings.concat (l1 ++ l2) = Strings.concat l1 +:+ Strings.concat l2.
Proof.
  induction l1 as [|s l1 IH]; simpl; [done|].
  fold (Strings.concat (l1 ++ l2)). fold (Strings.concat l1).
  by rewrite IH, append_assoc.
Qed.

Lemma concat_flat_map {A} (f : A → list string) (l : list A) :
  Strings.concat (map (λ a, Strings.concat (f a)) l) = Strings.concat (flat_map f l).
Proof.
  induction l as [|a l IH]; simpl; [done|].
  rewrite concat_app. by rewrite <- IH.
Qed.

Lemma compile_lines threadNum sched queue :
  compile threadNum sched queue = Strings.concat (compiledLines threadNum sched queue).
Proof. unfold compile, compiledLines, ibuf. apply concat_flat_map. Qed.

Lemma flat_map_insert {A} (r : nat) (x : A) (f : nat → list A) (ws : list nat) :
  NoDup ws → r ∈ ws →
  flat_map (λ w, if decide (r = w) then x :: f w else f w) ws
  ≡ₚ x :: flat_map f ws.
Proof.
  induction ws as [|w ws IH]; intros Hnd Hr; [by apply elem_of_nil in Hr|].
  apply NoDup_cons in Hnd as [Hw Hnd]. simpl.
  destruct (decide (r = w)) as [->|Hne].
  - simpl. constructor. apply Permutation_app_head.
    clear IH Hr Hnd. induction ws as [|w' ws IH]; simpl; [done|].
    destruct (decide (w = w')) as [->|_].
    + exfalso. apply Hw, elem_of_cons. by left.
    + apply Permutation_app_head, IH. intros Hin. apply Hw, elem_of_cons. by right.
  - apply elem_of_cons in Hr as [?|Hr]; [done|].
    rewrite (IH Hnd Hr). symmetry. apply Permutation_middle.
Qed.

(** Whatever the receive order, the workers share out the queue. *)
Lemma received_perm (ws : list nat) :
  NoDup ws →
  ∀ recv queue, length recv = length queue → Forall (λ w, w ∈ ws) recv →
  flat_map (λ w, received w recv queue) ws ≡ₚ queue.
Proof.
  intros Hnd recv. induction recv as [|r recv IH]; intros queue Hlen Hall.
  - destruct queue; [|done]. clear. induction ws; simpl; [done|]. done.
  - destruct queue as [|item queue]; [done|].
    apply Forall_cons in Hall as [Hr Hall]. simpl in Hlen.
    simpl. rewrite (flat_map_insert r item (λ w, received w recv queue) ws Hnd Hr).
    constructor. apply IH; [lia|done].
Qed.

Lemma flush_complete threadNum (flush : list nat) w :
  NoDup flush → length flush = threadNum →
  Forall (λ w, (w < threadNum)%nat) flush →
  (w < threadNum)%nat → w ∈ flush.
Proof.
  intros Hnd Hlen Hall Hw.
  assert (flush ≡ₚ seq 0 threadNum) as Hperm.
  { apply submseteq_length_Permutation.
    - apply NoDup_submseteq; [done|].
      intros x Hx. rewrite Forall_forall in Hall.
      apply elem_of_seq. specialize (Hall x Hx). lia.
    - rewrite length_seq. lia. }
  rewrite Hperm. apply elem_of_seq. lia.
Qed.

Lemma flat_map_flat_map {A B C} (f : A → list B) (g : B → list C) (l : list A) :
  flat_map g (flat_map f l) = flat_map (λ a, flat_map g (f a)) l.
Proof.
  induction l as [|a l IH]; simpl; [done|].
  by rewrite flat_map_app, IH.
Qed.

(** With at least one worker, the shared buffer holds the lines of every
    queue item, each as often as the item has it, in some order. *)
Lemma flushers_valid threadNum sched :
  Forall (λ w, (w < threadNum)%nat) (sched_flush sched) →
  flushers threadNum sched = sched_flush sched.
Proof.
  unfold flushers. induction 1 as [|w l Hw Hl IH]; [done|].
  rewrite filter_cons. destruct (decide _); [|done]. by rewrite IH.
Qed.

Lemma compiledLines_perm threadNum sched queue :
  (0 < threadNum)%nat →
  valid_schedule threadNum (length queue) sched →
  compiledLines threadNum sched queue ≡ₚ flat_map itemLines queue.
Proof.
  intros Hpos (Hnd & Hlen & Hall & Hrecv).
  destruct (Hrecv Hpos) as [Hrl Hrall].
  unfold compiledLines, workerLines. rewrite flushers_valid by done.
  rewrite <- flat_map_flat_map.
  apply Permutation_flat_map, received_perm; [done..|].
  eapply Forall_impl; [exact Hrall|].
  intros w Hw. simpl in Hw. by eapply flush_complete.
Qed.

(** Without a worker nothing is taken from the queue. *)
Lemma compile_no_worker sched queue : compile 0 sched queue = "".
Proof.
  unfold compile, flushers.
  induction (sched_flush sched) as [|w l IH]; [done|].
  rewrite filter_cons. destruct (decide _); [lia|done].
Qed.

Lemma policyLine_nonempty roleID res : policyLine roleID res ≠ "".
Proof. done. Qed.

Lemma concat_empty l : Strings.concat l = "" → Forall (λ s, s = "") l.
Proof.
  induction l as [|s l IH]; simpl; [constructor|].
  destruct s; simpl; [|done]. intros H. constructor; [done|by apply IH].
Qed.

(** The buffer is empty exactly when no line was written: lines are
    never empty. *)
Lemma compile_empty threadNum sched queue :
  compile threadNum sched queue = "" ↔ compiledLines threadNum sched queue = [].
Proof.
  rewrite compile_lines. split; [|by intros ->].
  intros H. apply concat_empty in H.
  destruct (compiledLines threadNum sched queue) as [|l ls] eqn:Hl; [done|].
  exfalso. apply Forall_cons in H as [H _].
  assert (l ∈ compiledLines threadNum sched queue) as Hin
    by (rewrite Hl; apply elem_of_cons; by left).
  unfold compiledLines, workerLines, itemLines in Hin.
  apply list_elem_of_In, in_flat_map in Hin as (w & _ & Hin).
  apply in_flat_map in Hin as (item & _ & Hin).
  apply in_map_iff in Hin as (res & Hres & _).
  subst. by apply (policyLine_nonempty (RoleID item) res).
Qed.

Lemma closed_check_linked db roleID :
  roleID ≠ "" →
  closed_check (dal.Menu_rows db (menuParam roleID)) →
  linked_paths_closed db roleID.
Proof.
  intros Hrole Hchk x y Hx Hy Hxy p [Hp Hin].
  apply Menu_rows_linked in Hx; [|done]. apply Menu_rows_linked in Hy; [|done].
  unfold closed_check in Hchk. rewrite Forall_forall in Hchk.
  specialize (Hchk x Hx). rewrite Forall_forall in Hchk.
  specialize (Hchk y Hy Hxy). rewrite Forall_forall in Hchk.
  destruct (Hchk p Hin); done.
Qed.

Example orders_exporter :
  roleResources Examples.orders_env "exporter"
  = Ok [mkMenuResource "a" "M1" "GET" "/api/v1/orders";
        mkMenuResource "b" "M1" "POST" "/api/v1/orders";
        mkMenuResource "c" "M2" "GET" "/api/v1/orders/export"].
Proof. reflexivity. Qed.

Example orders_editor :
  roleResources Examples.orders_env "editor"
  = Ok [mkMenuResource "a" "M1" "GET" "/api/v1/orders";
        mkMenuResource "b" "M1" "POST" "/api/v1/orders"].
Proof. reflexivity. Qed.

Lemma aggregation_exact_witness :
  aggregates_granted Examples.orders_env "exporter"
  ∧ ∀ w p r, EvMenuResourceQuery p r
               ∈ new_events (queryRoleResources Examples.orders_env "exporter") w →
             NoDup (MenuResourceQueryParam_MenuIDs p).
Proof.
  apply (aggregation_exact Examples.orders_env "exporter").
  - reflexivity.
  - reflexivity.
  - discriminate.
  - by_compute.
  - apply closed_check_linked; [discriminate|by_compute].
Defined.

(** C1, as stated, fails: [m2] is linked to the role and its parent path
    names [m3], but [m2] was already collected as an id of the stale path
    of [m1], so its own path is not read and the resource of [m3] is
    missing. *)
Lemma aggregation_skips_stale_ancestor :
  ¬ aggregates_granted Examples.stale_env "r1".
Proof.
  intros Hagg. destruct (Hagg blank) as (rows & Hrows & Hiff).
  vm_compute in Hrows. injection Hrows as <-.
  assert (granted Examples.stale_db "r1" (mkMenuResource "z" "m3" "GET" "/z")) as Hz.
  { split; [by_compute|].
    exists (mkMenu "m2" "enabled" "m3" "m3."). split.
    - split; [by_compute|]. split; [done|].
      exists (mkRoleMenu "r1" "m2"). split; [by_compute|done].
    - right. by_compute. }
  apply Hiff in Hz. revert Hz. by_compute.
Qed.

(** ** One pass of [load] *)

Lemma bind_run {A B} (m : M A) (k : A → M B) w :
  bind m k w = k (m w).1 (m w).2.
Proof. unfold bind. by destruct (m w). Qed.

Lemma produce_run env roles : ∀ queue resCount w,
  produce env roles queue resCount w
  = ((queue ++ queueOf env roles, resCountOf env roles resCount),
     add_events (produceEvents env roles) w).
Proof.
  induction roles as [|item rest IH]; intros queue resCount w.
  - simpl. unfold ret. by rewrite app_nil_r, add_events_nil.
  - cbn [produce]. rewrite bind_run, queryRoleResources_run.
    unfold produceEvents, roleFailure. cbn [fst snd queueOf resCountOf flat_map].
    destruct (roleResources env (Role_ID item)) as [resources|err].
    + rewrite IH, add_events_app, <- app_assoc. simpl. by rewrite app_nil_r.
    + rewrite bind_run. unfold logging.Error, emit. cbn [fst snd].
      rewrite IH. fold (add_events [EvLogError "Failed to query role resources" err]
                                   (add_events (roleEvents env (Role_ID item)) w)).
      by rewrite !add_events_app, <- !app_assoc.
Qed.

(** *** The publishing step, piece by piece *)

Lemma publish_run cfg env buf w :
  let fs2 := afterWrite env (afterRename env (files w) cfg) cfg buf in
  publish cfg env buf w
  = (publishErr cfg env fs2,
     {| enforcer := publishEnforcer cfg env fs2 (enforcer w);
        files := fs2; cache := cache w;
        trace := trace w ++ writeEvents cfg env buf (files w) ++ buildEvents cfg env fs2 |}).
Proof.
  unfold publish, os.Rename, os.MkdirAll, os.WriteFile, os.Chmod, casbin.NewEnforcer,
    Store, logging.Error, returning, bind, ret, emit, get_files, set_files, set_enforcer,
    publishErr, publishEnforcer, writeEvents, buildEvents, built, writeErr, afterWrite,
    afterRename, renameErr, bakFile.
  destruct w as [enf fs ch tr]. cbn [enforcer files cache trace fst snd].
  destruct (fs !! policyFile cfg) as [data|];
    destruct (env_rename_err env) as [re|];
    destruct (env_write env) as [|we|n we];
    cbn [enforcer files cache trace fst snd];
    try (rewrite <- !app_assoc; reflexivity);
    destruct (env_casbin_err env) as [ce|];
    cbn [enforcer files cache trace fst snd];
    try (rewrite <- !app_assoc; reflexivity);
    repeat match goal with
           | |- context [match ?m !! ?k with _ => _ end] => destruct (m !! k)
           end;
    cbn [enforcer files cache trace fst snd];
    rewrite <- !app_assoc; reflexivity.
Qed.

(** [load], unfolded along its return points. *)
Lemma load_run cfg env w :
  load cfg env w
  = match env_role_err env with
    | Some e => (Return (Some e), add_events [EvRoleQuery roleParam (Err e)] w)
    | None =>
        let roles := enabledRoles env in
        let w0 := add_events [EvRoleQuery roleParam (Ok roles)] w in
        match roles with
        | [] => (Return None, w0)
        | _ :: _ =>
            if Casbin_LoadThread cfg <? 0
            then (Panic "sync: negative WaitGroup counter", w0)
            else
              let w1 := add_events (produceEvents env roles) w0 in
              let buf := compile (Z.to_nat (Casbin_LoadThread cfg)) (env_sched env)
                                 (queueOf env roles) in
              if Strings.nonempty buf then
                match publish cfg env buf w1 with
                | (Some err, w2) => (Return (Some err), w2)
                | (None, w2) => (Return None, add_events [loadInfo env buf] w2)
                end
              else (Return None, add_events [loadInfo env buf] w1)
        end
    end.
Proof.
  unfold load. rewrite bind_run. unfold RoleDAL_Query, returning.
  rewrite bind_run. unfold emit, ret. cbn [fst snd].
  fold roleParam.
  destruct (env_role_err env) as [e|]; [done|].
  fold (enabledRoles env).
  destruct (enabledRoles env) as [|item roles] eqn:Hroles; [done|].
  destruct (Casbin_LoadThread cfg <? 0); [done|].
  rewrite bind_run, produce_run. cbn [fst snd app].
  rewrite bind_run.
  destruct (Strings.nonempty _) eqn:Hne.
  - destruct (publish _ _ _ _) as [[err|] w2]; cbn [fst snd]; [done|].
    rewrite bind_run. unfold logging.Info, emit, loadInfo. cbn [fst snd].
    by rewrite Hroles.
  - unfold ret. cbn [fst snd]. rewrite bind_run.
    unfold logging.Info, emit, loadInfo. cbn [fst snd]. by rewrite Hroles.
Qed.

Lemma new_events_eq {A} (m : M A) w evs :
  trace (m w).2 = trace w ++ evs → new_events m w = evs.
Proof. intros H. unfold new_events. rewrite H. by rewrite drop_app_length. Qed.

Lemma roleEvents_quiet env roleID :
  Forall (λ ev, publishes ev = false) (roleEvents env roleID).
Proof.
  unfold roleEvents, queryRoleResources, MenuDAL_Query, MenuResourceDAL_Query,
    returning, bind, ret, emit. simpl.
  destruct (env_menu_err env _); simpl; [by repeat constructor|].
  destruct (map _ _); simpl; [by repeat constructor|].
  destruct (env_res_err env _); simpl; by repeat constructor.
Qed.

Lemma produceEvents_quiet env roles :
  Forall (λ ev, publishes ev = false) (produceEvents env roles).
Proof.
  unfold produceEvents. induction roles as [|item rest IH]; simpl; [constructor|].
  rewrite !Forall_app. split; [split|done].
  - apply roleEvents_quiet.
  - unfold roleFailure. destruct (roleResources env _); by repeat constructor.
Qed.

Lemma quiet_not_in evs ev :
  Forall (λ ev, publishes ev = false) evs → publishes ev = true → ev ∉ evs.
Proof.
  intros Hall Hev Hin. rewrite Forall_forall in Hall.
  specialize (Hall ev Hin). congruence.
Qed.

Lemma load_trace cfg env w :
  trace (load cfg env w).2 = trace w ++ loadEvents cfg env (files w).
Proof.
  rewrite load_run. unfold loadEvents.
  destruct (env_role_err env); [done|]. cbn zeta.
  destruct (enabledRoles env) as [|item roles] eqn:Hr; [done|]. rewrite <- Hr.
  destruct (Casbin_LoadThread cfg <? 0); [done|].
  destruct (Strings.nonempty _).
  - rewrite publish_run. cbn [files add_events].
    destruct (publishErr _ _ _); norm_trace; reflexivity.
  - norm_trace. reflexivity.
Qed.

Lemma load_new_events cfg env w :
  new_events (load cfg env) w = loadEvents cfg env (files w).
Proof. apply new_events_eq, load_trace. Qed.

Lemma load_cache cfg env w : cache (load cfg env w).2 = cache w.
Proof.
  rewrite load_run.
  destruct (env_role_err env); [done|]. cbn zeta.
  destruct (enabledRoles env) as [|item roles]; [done|].
  destruct (Casbin_LoadThread cfg <? 0); [done|].
  destruct (Strings.nonempty _); [|done].
  rewrite publish_run. by destruct (publishErr _ _ _).
Qed.

Lemma store_in_buildEvents cfg env fs2 e0 :
  writeErr env = None → built env fs2 cfg = Ok e0 →
  EvStore (casbin.EnableLog e0 (IsDebug cfg)) ∈ buildEvents cfg env fs2.
Proof.
  intros Hw Hb. unfold buildEvents. rewrite Hw, Hb.
  rewrite !elem_of_cons. auto.
Qed.

(** The holder changes only by a [Store], which the trace shows. *)
Lemma load_enforcer cfg env w :
  (∀ e, EvStore e ∉ new_events (load cfg env) w) →
  enforcer (load cfg env w).2 = enforcer w.
Proof.
  rewrite load_new_events, load_run. unfold loadEvents.
  destruct (env_role_err env); [done|]. cbn zeta.
  destruct (enabledRoles env) as [|item roles] eqn:Hr; [done|]. rewrite <- Hr.
  destruct (Casbin_LoadThread cfg <? 0); [done|].
  destruct (Strings.nonempty _); [|done].
  rewrite publish_run. cbn [files add_events].
  set (fs2 := afterWrite _ _ _ _).
  intros Hno.
  assert (publishEnforcer cfg env fs2 (enforcer w) = enforcer w) as Heq.
  { unfold publishEnforcer.
    destruct (writeErr env) eqn:Hw; [done|].
    destruct (built env fs2 cfg) as [e0|] eqn:Hb; [|done].
    exfalso. apply (Hno (casbin.EnableLog e0 (IsDebug cfg))).
    apply elem_of_cons. right. apply elem_of_app. right.
    apply elem_of_app. right. apply elem_of_app. left.
    by apply store_in_buildEvents. }
  destruct (publishErr _ _ _); cbn [snd enforcer add_events]; exact Heq.
Qed.

(** A pass that does not reach the publishing step leaves the files and
    the holder alone. *)
Lemma load_quiet cfg env w :
  (∀ buf, compiled cfg env = Some buf → buf = "") →
  Forall (λ ev, publishes ev = false) (new_events (load cfg env) w)
  ∧ files (load cfg env w).2 = files w
  ∧ enforcer (load cfg env w).2 = enforcer w
  ∧ (load cfg env w).1
    = match env_role_err env with
      | Some e => Return (Some e)
      | None => match compiled cfg env, enabledRoles env with
                | None, _ :: _ => Panic "sync: negative WaitGroup counter"
                | _, _ => Return None
                end
      end.
Proof.
  intros Hbuf. rewrite load_new_events, load_run.
  unfold loadEvents, compiled in *.
  destruct (env_role_err env); [by repeat constructor|]. cbn zeta.
  destruct (enabledRoles env) as [|item roles] eqn:Hr; [by repeat constructor|].
  rewrite <- Hr in *.
  destruct (Casbin_LoadThread cfg <? 0); [by repeat constructor|].
  rewrite (Hbuf _ eq_refl). cbn [Strings.nonempty fst snd add_events files enforcer].
  split; [|done].
  constructor; [done|]. apply Forall_app. split; [apply produceEvents_quiet|].
  by repeat constructor.
Qed.

(** A pass that reaches the publishing step. *)
Lemma load_publishing cfg env w buf :
  compiled cfg env = Some buf → buf ≠ "" →
  let fs2 := afterWrite env (afterRename env (files w) cfg) cfg buf in
  (load cfg env w).1 = Return (publishErr cfg env fs2)
  ∧ files (load cfg env w).2 = fs2
  ∧ enforcer (load cfg env w).2 = publishEnforcer cfg env fs2 (enforcer w)
  ∧ new_events (load cfg env) w
    = EvRoleQuery roleParam (Ok (enabledRoles env))
      :: produceEvents env (enabledRoles env)
      ++ writeEvents cfg env buf (files w) ++ buildEvents cfg env fs2
      ++ match publishErr cfg env fs2 with
         | Some _ => []
         | None => [loadInfo env buf]
         end.
Proof.
  intros Hc Hne fs2. rewrite load_new_events, load_run.
  unfold loadEvents, compiled in *.
  destruct (env_role_err env); [done|]. cbn zeta.
  destruct (enabledRoles env) as [|item roles] eqn:Hr; [done|].
  rewrite <- Hr in *.
  destruct (Casbin_LoadThread cfg <? 0); [done|].
  injection Hc as Hc. rewrite Hc.
  apply nonempty_true in Hne. rewrite Hne.
  rewrite publish_run. cbn [files add_events]. fold fs2.
  destruct (publishErr cfg env fs2); done.
Qed.

Lemma publishes_writeEvents cfg env buf fs :
  Forall (λ ev, publishes ev = true) (writeEvents cfg env buf fs).
Proof. by repeat constructor. Qed.

Lemma publishes_buildEvents cfg env fs2 :
  writeErr env = None → Forall (λ ev, publishes ev = true) (buildEvents cfg env fs2)
  ∨ ∃ e, built env fs2 cfg = Err e.
Proof.
  intros Hw. unfold buildEvents. rewrite Hw.
  destruct (built env fs2 cfg) as [e0|e]; [left; by repeat constructor|right; eauto].
Qed.

(** What the events of a pass say about its publishing step. *)
Lemma publishing_fails_inv cfg env w e :
  publishing_fails cfg env w e →
  ∃ buf, compiled cfg env = Some buf ∧ buf ≠ ""
         ∧ publishErr cfg env (afterWrite env (afterRename env (files w) cfg) cfg buf) = Some e
         ∧ (EvLogError "Failed to write policy file" e
              ∈ buildEvents cfg env (afterWrite env (afterRename env (files w) cfg) cfg buf)
            ∨ EvLogError "Failed to create casbin enforcer" e
              ∈ buildEvents cfg env (afterWrite env (afterRename env (files w) cfg) cfg buf)).
Proof.
  intros Hf.
  destruct (compiled cfg env) as [buf|] eqn:Hc; last first.
  { exfalso. destruct (load_quiet cfg env w) as (Hq & _); [by rewrite Hc|].
    destruct Hf as [[data Hin]|Hin]; by apply (quiet_not_in _ _ Hq) in Hin. }
  destruct (decide (buf = "")) as [->|Hne].
  { exfalso. destruct (load_quiet cfg env w) as (Hq & _).
    { rewrite Hc. by intros ? [= <-]. }
    destruct Hf as [[data Hin]|Hin]; by apply (quiet_not_in _ _ Hq) in Hin. }
  exists buf. split; [done|]. split; [done|].
  destruct (load_publishing cfg env w buf Hc Hne) as (_ & _ & _ & Hev).
  unfold publishing_fails in Hf. rewrite Hev in Hf. clear Hev.
  set (fs2 := afterWrite _ _ _ _) in *.
  assert (∀ ev, publishes ev = true →
            ev ∈ EvRoleQuery roleParam (Ok (enabledRoles env))
                 :: produceEvents env (enabledRoles env)
                 ++ writeEvents cfg env buf (files w) ++ buildEvents cfg env fs2
                 ++ match publishErr cfg env fs2 with
                    | Some _ => []
                    | None => [loadInfo env buf]
                    end →
            ev ∈ writeEvents cfg env buf (files w) ++ buildEvents cfg env fs2) as Hloc.
  { intros ev Hp Hin. apply elem_of_cons in Hin as [->|Hin]; [done|].
    apply elem_of_app in Hin as [Hin|Hin].
    { by apply (quiet_not_in _ _ (produceEvents_quiet env _)) in Hin. }
    rewrite app_assoc in Hin. apply elem_of_app in Hin as [Hin|Hin]; [done|].
    destruct (publishErr cfg env fs2); [by apply elem_of_nil in Hin|].
    apply list_elem_of_singleton in Hin as ->. done. }
  unfold publishErr, buildEvents in *.
  destruct Hf as [[data Hin]|Hin]; apply Hloc in Hin; try done;
    unfold writeEvents in Hin;
    rewrite elem_of_app, !elem_of_cons in Hin;
    destruct (writeErr env) as [we|] eqn:Hw.
  - destruct Hin as [[?|[?|[[= _ <-]|Hnil]]]|Hin]; try done.
    + split; [done|]. left. apply elem_of_cons. by left.
    + by apply elem_of_nil in Hnil.
    + apply list_elem_of_singleton in Hin. done.
  - destruct Hin as [[?|[?|[?|Hnil]]]|Hin]; try done.
    + by apply elem_of_nil in Hnil.
    + rewrite !elem_of_cons in Hin.
      destruct (built env fs2 cfg); destruct Hin as [?|[?|[?|Hnil]]]; try done;
        by apply elem_of_nil in Hnil.
  - destruct Hin as [[?|[?|[?|Hnil]]]|Hin]; try done.
    + by apply elem_of_nil in Hnil.
    + apply list_elem_of_singleton in Hin. done.
  - destruct Hin as [[?|[?|[?|Hnil]]]|Hin]; try done.
    + by apply elem_of_nil in Hnil.
    + rewrite !elem_of_cons in Hin.
      destruct (built env fs2 cfg) as [e0|e1];
        destruct Hin as [?|[Hin|[?|Hnil]]]; try done;
        try (by apply elem_of_nil in Hnil).
      injection Hin as <-. split; [done|]. right.
      rewrite !elem_of_cons. auto.
Qed.

Lemma empty_buffer_returns cfg env w :
  compiled cfg env = Some "" → (load cfg env w).1 = Return None.
Proof.
  intros Hc. destruct (load_quiet cfg env w) as (_ & _ & _ & Ho).
  { rewrite Hc. by intros ? [= <-]. }
  rewrite Ho, Hc. unfold compiled in Hc.
  destruct (env_role_err env); [done|]. by destruct (enabledRoles env).
Qed.

(** C5.  A reload pass whose compiled buffer is empty returns without an
    error, writes no policy file (no call of the publishing step is made
    and the file system is as before), and leaves the enforcer handle as
    it was: [GetEnforcer] returns afterwards what it returned before. *)
Theorem empty_buffer_keeps_generation cfg env w :
  compiled cfg env = Some "" →
  (load cfg env w).1 = Return None
  ∧ Forall (λ ev, publishes ev = false) (new_events (load cfg env) w)
  ∧ files (load cfg env w).2 = files w
  ∧ GetEnforcer (load cfg env w).2 = GetEnforcer w.
Proof.
  intros Hc. destruct (load_quiet cfg env w) as (Hq & Hf & He & _).
  { rewrite Hc. by intros ? [= <-]. }
  split; [by apply empty_buffer_returns|done].
Qed.

(** A pass whose publishing step fails makes no [Store]. *)
Lemma publishing_fails_no_store cfg env w e :
  publishing_fails cfg env w e → ∀ e', EvStore e' ∉ new_events (load cfg env) w.
Proof.
  intros Hf. apply publishing_fails_inv in Hf as (buf & Hc & Hne & Herr & _).
  destruct (load_publishing cfg env w buf Hc Hne) as (_ & _ & _ & Hev).
  set (fs2 := afterWrite _ _ _ _) in *.
  intros e' Hin. rewrite Hev, Herr in Hin.
  apply elem_of_cons in Hin as [?|Hin]; [done|].
  apply elem_of_app in Hin as [Hin|Hin].
  { by apply (quiet_not_in _ _ (produceEvents_quiet env _)) in Hin. }
  rewrite app_nil_r in Hin. apply elem_of_app in Hin as [Hin|Hin].
  { unfold writeEvents in Hin. rewrite !elem_of_cons in Hin.
    destruct Hin as [?|[?|[?|Hnil]]]; try done. by apply elem_of_nil in Hnil. }
  unfold publishErr, buildEvents in *.
  destruct (writeErr env).
  - apply list_elem_of_singleton in Hin. done.
  - destruct (built env fs2 cfg); [done|].
    rewrite !elem_of_cons in Hin.
    destruct Hin as [?|[?|[?|Hnil]]]; try done. by apply elem_of_nil in Hnil.
Qed.

(** C6.  When writing the policy file fails, or building the new
    enforcer from the model and policy files fails, [load] returns that
    error, logs it, and does not touch the enforcer handle: no [Store] is
    made and [GetEnforcer] returns afterwards what it returned before. *)
Theorem publish_failure_keeps_generation cfg env w e :
  publishing_fails cfg env w e →
  (load cfg env w).1 = Return (Some e)
  ∧ (EvLogError "Failed to write policy file" e ∈ new_events (load cfg env) w
     ∨ EvLogError "Failed to create casbin enforcer" e ∈ new_events (load cfg env) w)
  ∧ (∀ e', EvStore e' ∉ new_events (load cfg env) w)
  ∧ GetEnforcer (load cfg env w).2 = GetEnforcer w.
Proof.
  intros Hf. pose proof (publishing_fails_no_store cfg env w e Hf) as Hns.
  apply publishing_fails_inv in Hf as (buf & Hc & Hne & Herr & Hlog).
  destruct (load_publishing cfg env w buf Hc Hne) as (Ho & _ & _ & Hev).
  split; [by rewrite Ho, Herr|]. split; [|split; [done|]].
  - rewrite Hev.
    destruct Hlog as [Hlog|Hlog]; [left|right];
      apply elem_of_cons; right; apply elem_of_app; right;
      apply elem_of_app; right; apply elem_of_app; by left.
  - unfold GetEnforcer. by apply load_enforcer.
Qed.

(** ** Backup, then overwrite *)

Lemma append_ne (s t : string) : t ≠ "" → s +:+ t ≠ s.
Proof.
  intros Ht. induction s as [|c s IH]; [done|].
  change (String c (s +:+ t) ≠ String c s). congruence.
Qed.

Lemma bakFile_ne cfg : bakFile cfg ≠ policyFile cfg.
Proof. by apply append_ne. Qed.

(** A publishing event of a pass belongs to its publishing step, which
    the pass reaches with a non-empty buffer. *)
Lemma publish_event_inv cfg env w ev :
  publishes ev = true → ev ∈ new_events (load cfg env) w →
  ∃ buf, compiled cfg env = Some buf ∧ buf ≠ ""
         ∧ ev ∈ writeEvents cfg env buf (files w)
                ++ buildEvents cfg env (afterWrite env (afterRename env (files w) cfg) cfg buf).
Proof.
  intros Hp Hin.
  destruct (compiled cfg env) as [buf|] eqn:Hc; last first.
  { exfalso. destruct (load_quiet cfg env w) as (Hq & _); [by rewrite Hc|].
    by apply (quiet_not_in _ _ Hq) in Hin. }
  destruct (decide (buf = "")) as [->|Hne].
  { exfalso. destruct (load_quiet cfg env w) as (Hq & _).
    { rewrite Hc. by intros ? [= <-]. }
    by apply (quiet_not_in _ _ Hq) in Hin. }
  exists buf. split; [done|]. split; [done|].
  destruct (load_publishing cfg env w buf Hc Hne) as (_ & _ & _ & Hev).
  rewrite Hev in Hin. clear Hev.
  apply elem_of_cons in Hin as [->|Hin]; [done|].
  apply elem_of_app in Hin as [Hin|Hin].
  { by apply (quiet_not_in _ _ (produceEvents_quiet env _)) in Hin. }
  rewrite app_assoc in Hin. apply elem_of_app in Hin as [Hin|Hin]; [done|].
  destruct (publishErr cfg env _); [by apply elem_of_nil in Hin|].
  apply list_elem_of_singleton in Hin as ->. done.
Qed.

Lemma writeFile_event_inv cfg env w data werr :
  EvWriteFile (policyFile cfg) data werr ∈ new_events (load cfg env) w →
  compiled cfg env = Some data ∧ data ≠ "" ∧ werr = writeErr env.
Proof.
  intros Hin.
  apply publish_event_inv in Hin as (buf & Hc & Hne & Hin); [|done].
  apply elem_of_app in Hin as [Hin|Hin].
  - unfold writeEvents in Hin. rewrite !elem_of_cons in Hin.
    destruct Hin as [?|[?|[[= <- <-]|Hnil]]]; try done.
    by apply elem_of_nil in Hnil.
  - exfalso. unfold buildEvents in Hin.
    destruct (writeErr env).
    + apply list_elem_of_singleton in Hin. done.
    + rewrite !elem_of_cons in Hin.
      destruct (built env _ cfg); destruct Hin as [?|[?|[?|Hnil]]]; try done;
        by apply elem_of_nil in Hnil.
Qed.

(** C10, amended.  In every pass that writes the policy file, the rename
    of the file to its [.bak] name is attempted just before (then
    [MkdirAll], then the write), its result ignored.  When the write
    fails the enforcer handle is unchanged; when moreover the rename had
    succeeded and the write failed before creating the file, no file is
    left at the configured path and the previous content is at the [.bak]
    path. *)
Theorem backup_then_write cfg env w data werr :
  EvWriteFile (policyFile cfg) data werr ∈ new_events (load cfg env) w →
  ∃ rerr pre post,
    new_events (load cfg env) w
    = pre ++ [EvRename (policyFile cfg) (policyFile cfg +:+ ".bak") rerr;
              EvMkdirAll (filepath.Dir (policyFile cfg));
              EvWriteFile (policyFile cfg) data werr] ++ post
    ∧ ∀ e, werr = Some e →
        GetEnforcer (load cfg env w).2 = GetEnforcer w
        ∧ (rerr = None → env_write env = WriteOpenErr e →
           files (load cfg env w).2 !! policyFile cfg = None
           ∧ files (load cfg env w).2 !! (policyFile cfg +:+ ".bak")
             = files w !! policyFile cfg
           ∧ is_Some (files w !! policyFile cfg)).
Proof.
  intros Hin. pose proof Hin as Hin'.
  apply writeFile_event_inv in Hin' as (Hc & Hne & ->).
  destruct (load_publishing cfg env w data Hc Hne) as (_ & Hfs & _ & Hev).
  exists (renameErr env (files w) cfg),
    (EvRoleQuery roleParam (Ok (enabledRoles env)) :: produceEvents env (enabledRoles env)).
  eexists. split.
  { rewrite Hev. unfold writeEvents, bakFile. reflexivity. }
  intros e Hw. split.
  - unfold GetEnforcer. apply load_enforcer.
    apply (publishing_fails_no_store cfg env w e).
    left. exists data. by rewrite <- Hw.
  - intros Hr Hopen. rewrite Hfs. unfold afterWrite, afterRename, renameErr in *.
    rewrite Hopen. fold (bakFile cfg).
    destruct (files w !! policyFile cfg) as [old|] eqn:Hold; [|done].
    rewrite Hr. split; [|split; [|by eexists]].
    + rewrite lookup_insert_ne by apply bakFile_ne. apply lookup_delete_eq.
    + apply lookup_insert_eq.
Qed.

Example orders_buffer_text :
  Examples.orders_buffer
  = "p, exporter, /api/v1/orders, GET " +:+ Strings.newline
    +:+ "p, exporter, /api/v1/orders, POST " +:+ Strings.newline
    +:+ "p, exporter, /api/v1/orders/export, GET " +:+ Strings.newline
    +:+ "p, editor, /api/v1/orders, GET " +:+ Strings.newline
    +:+ "p, editor, /api/v1/orders, POST " +:+ Strings.newline.
Proof. reflexivity. Qed.

Lemma empty_buffer_keeps_generation_witness :
  (load Examples.app_cfg Examples.guest_env Examples.deployed).1 = Return None
  ∧ Forall (λ ev, publishes ev = false)
           (new_events (load Examples.app_cfg Examples.guest_env) Examples.deployed)
  ∧ files (load Examples.app_cfg Examples.guest_env Examples.deployed).2
    = files Examples.deployed
  ∧ GetEnforcer (load Examples.app_cfg Examples.guest_env Examples.deployed).2
    = GetEnforcer Examples.deployed.
Proof.
  apply (empty_buffer_keeps_generation Examples.app_cfg Examples.guest_env).
  reflexivity.
Defined.

Lemma publish_failure_keeps_generation_witness :
  (load Examples.app_cfg Examples.read_only_env Examples.deployed).1
  = Return (Some "permission denied")
  ∧ (EvLogError "Failed to write policy file" "permission denied"
       ∈ new_events (load Examples.app_cfg Examples.read_only_env) Examples.deployed
     ∨ EvLogError "Failed to create casbin enforcer" "permission denied"
       ∈ new_events (load Examples.app_cfg Examples.read_only_env) Examples.deployed)
  ∧ (∀ e', EvStore e'
           ∉ new_events (load Examples.app_cfg Examples.read_only_env) Examples.deployed)
  ∧ GetEnforcer (load Examples.app_cfg Examples.read_only_env Examples.deployed).2
    = GetEnforcer Examples.deployed.
Proof.
  apply (publish_failure_keeps_generation Examples.app_cfg Examples.read_only_env).
  left. exists Examples.orders_buffer. by_compute.
Defined.

Lemma backup_then_write_witness :
  ∃ rerr pre post,
    new_events (load Examples.app_cfg Examples.read_only_env) Examples.deployed
    = pre ++ [EvRename (policyFile Examples.app_cfg)
                       (policyFile Examples.app_cfg +:+ ".bak") rerr;
              EvMkdirAll (filepath.Dir (policyFile Examples.app_cfg));
              EvWriteFile (policyFile Examples.app_cfg) Examples.orders_buffer
                          (Some "permission denied")] ++ post
    ∧ ∀ e, Some "permission denied" = Some e →
        GetEnforcer (load Examples.app_cfg Examples.read_only_env Examples.deployed).2
        = GetEnforcer Examples.deployed
        ∧ (rerr = None → env_write Examples.read_only_env = WriteOpenErr e →
           files (load Examples.app_cfg Examples.read_only_env Examples.deployed).2
             !! policyFile Examples.app_cfg = None
           ∧ files (load Examples.app_cfg Examples.read_only_env Examples.deployed).2
               !! (policyFile Examples.app_cfg +:+ ".bak")
             = files Examples.deployed !! policyFile Examples.app_cfg
           ∧ is_Some (files Examples.deployed !! policyFile Examples.app_cfg)).
Proof.
  apply (backup_then_write Examples.app_cfg Examples.read_only_env Examples.deployed).
  by_compute.
Defined.

(** C10, as stated, fails: the rename succeeds, the write fails after
    the file was created, and a truncated file is at the configured
    path. *)
Lemma failed_write_leaves_truncated_file :
  ¬ failed_write_leaves_no_file Examples.app_cfg Examples.disk_full_env Examples.deployed.
Proof.
  intros H.
  destruct (H Examples.orders_buffer "no space left on device") as [Hnone _].
  { by_compute. }
  vm_compute in Hnone. discriminate.
Qed.

Example truncated_file_content :
  files (load Examples.app_cfg Examples.disk_full_env Examples.deployed).2
    !! "/app/gen_rbac_policy.csv" = Some "p, "
  ∧ files (load Examples.app_cfg Examples.disk_full_env Examples.deployed).2
    !! "/app/gen_rbac_policy.csv.bak" = Some "old".
Proof. split; reflexivity. Qed.

(** ** The lines of the compiled buffer *)

Lemma queue_lines env roles :
  flat_map itemLines (queueOf env roles) = flat_map (roleLines false env) roles.
Proof.
  induction roles as [|role roles IH]; simpl; [done|].
  unfold roleLines at 1.
  destruct (roleResources env (Role_ID role)) as [rs|e]; simpl; [|done].
  rewrite IH. f_equal. unfold itemLines, methodPaths. simpl.
  by rewrite map_map.
Qed.

Lemma compiled_lines cfg env buf :
  0 < Casbin_LoadThread cfg →
  valid_schedule (Z.to_nat (Casbin_LoadThread cfg))
                 (length (queueOf env (enabledRoles env))) (env_sched env) →
  compiled cfg env = Some buf →
  ∃ lines, buf = Strings.concat lines
           ∧ lines ≡ₚ flat_map itemLines (queueOf env (enabledRoles env)).
Proof.
  intros Hpos Hvalid Hc. unfold compiled in Hc.
  destruct (env_role_err env); [done|].
  destruct (enabledRoles env) as [|item roles] eqn:Hr; [done|]. rewrite <- Hr in *.
  destruct (Casbin_LoadThread cfg <? 0); [done|]. injection Hc as <-.
  exists (compiledLines (Z.to_nat (Casbin_LoadThread cfg)) (env_sched env)
                        (queueOf env (enabledRoles env))).
  split; [apply compile_lines|].
  eapply compiledLines_perm; [|exact Hvalid]. lia.
Qed.

Lemma compiled_written cfg env w buf :
  compiled cfg env = Some buf → buf ≠ "" →
  EvWriteFile (policyFile cfg) buf (writeErr env) ∈ new_events (load cfg env) w.
Proof.
  intros Hc Hne.
  destruct (load_publishing cfg env w buf Hc Hne) as (_ & _ & _ & ->).
  apply elem_of_cons. right. apply elem_of_app. right. apply elem_of_app. left.
  unfold writeEvents. rewrite !elem_of_cons. auto.
Qed.

(** C2, amended.  With at least one worker, the compiled buffer of a
    pass consists of one line [p, <roleID>, <path>, <method>] for every
    row of the aggregated resources of every enabled role whose
    aggregation succeeded, and of no other line; a (method, path) pair
    carried by several rows of a role gives as many equal lines.  A
    non-empty buffer is what the pass writes to the policy file. *)
Theorem buffer_one_line_per_row cfg env :
  0 < Casbin_LoadThread cfg →
  valid_schedule (Z.to_nat (Casbin_LoadThread cfg))
                 (length (queueOf env (enabledRoles env))) (env_sched env) →
  buffer_holds false cfg env
  ∧ ∀ w buf, compiled cfg env = Some buf → buf ≠ "" →
             ∃ werr, EvWriteFile (policyFile cfg) buf werr ∈ new_events (load cfg env) w.
Proof.
  intros Hpos Hvalid. split.
  - intros buf Hc.
    destruct (compiled_lines cfg env buf Hpos Hvalid Hc) as (lines & Hb & Hp).
    exists lines. split; [done|]. by rewrite <- queue_lines.
  - intros w buf Hc Hne. eexists. by apply compiled_written.
Qed.

(** ** Isolation of the roles whose aggregation fails *)

Lemma queue_contribution env roles :
  flat_map itemLines (queueOf env roles) = flat_map (contribution env) roles.
Proof.
  induction roles as [|role roles IH]; simpl; [done|].
  unfold contribution at 1.
  destruct (roleResources env (Role_ID role)) as [rs|e]; simpl; [|done].
  by rewrite IH.
Qed.

Lemma roleEvents_head env roleID :
  ∃ r tl, roleEvents env roleID = EvMenuQuery (menuParam roleID) r :: tl.
Proof.
  unfold roleEvents, queryRoleResources, MenuDAL_Query, MenuResourceDAL_Query,
    returning, bind, ret, emit. simpl. fold (menuParam roleID).
  destruct (env_menu_err env _); simpl; [by eexists _, _|].
  destruct (map _ _); simpl; [by eexists _, _|].
  destruct (env_res_err env _); simpl; by eexists _, _.
Qed.

Lemma produceEvents_role env roles role :
  role ∈ roles →
  (∃ r, EvMenuQuery (menuParam (Role_ID role)) r ∈ produceEvents env roles)
  ∧ ∀ e, roleResources env (Role_ID role) = Err e →
         EvLogError "Failed to query role resources" e ∈ produceEvents env roles.
Proof.
  intros Hin. unfold produceEvents.
  split.
  - destruct (roleEvents_head env (Role_ID role)) as (r & tl & Hr).
    exists r. apply list_elem_of_In, in_flat_map. exists role.
    split; [by apply list_elem_of_In|].
    apply list_elem_of_In. rewrite Hr. apply elem_of_app. left.
    apply elem_of_cons. by left.
  - intros e He. apply list_elem_of_In, in_flat_map. exists role.
    split; [by apply list_elem_of_In|].
    apply list_elem_of_In, elem_of_app. right.
    unfold roleFailure. rewrite He. apply elem_of_cons. by left.
Qed.

Lemma compiled_events cfg env w buf :
  compiled cfg env = Some buf →
  ∃ tl, new_events (load cfg env) w
        = EvRoleQuery roleParam (Ok (enabledRoles env))
          :: produceEvents env (enabledRoles env) ++ tl.
Proof.
  intros Hc. rewrite load_new_events. unfold loadEvents, compiled in *.
  destruct (env_role_err env); [done|]. cbn zeta.
  destruct (enabledRoles env) as [|item roles] eqn:Hr; [done|]. rewrite <- Hr in *.
  destruct (Casbin_LoadThread cfg <? 0); [done|]. by eexists.
Qed.

Lemma load_error_publishing cfg env w buf e :
  compiled cfg env = Some buf →
  (load cfg env w).1 = Return (Some e) → publishing_fails cfg env w e.
Proof.
  intros Hc Ho.
  destruct (decide (buf = "")) as [->|Hne].
  { pose proof (empty_buffer_returns cfg env w Hc) as Ho'. congruence. }
  destruct (load_publishing cfg env w buf Hc Hne) as (Ho' & _ & _ & Hev).
  rewrite Ho' in Ho. injection Ho as Ho.
  unfold publishing_fails. rewrite Hev. clear Hev Ho'.
  set (fs2 := afterWrite _ _ _ _) in *.
  unfold publishErr in Ho.
  destruct (writeErr env) as [we|] eqn:Hw.
  - injection Ho as ->. left. exists buf.
    apply elem_of_cons. right. apply elem_of_app. right. apply elem_of_app. left.
    unfold writeEvents. rewrite Hw, !elem_of_cons. auto.
  - destruct (built env fs2 cfg) as [e0|e1] eqn:Hb; [done|]. injection Ho as ->.
    right. apply elem_of_cons. right. apply elem_of_app. right. apply elem_of_app. right.
    apply elem_of_app. left. unfold buildEvents. rewrite Hw, Hb, !elem_of_cons. auto.
Qed.

(** C7, amended.  In a pass with at least one worker, the roles whose
    resource query fails contribute no line to the compiled buffer and
    every role whose query succeeds contributes all of its lines; each
    failure is logged; the loop goes on to query every role, and when the
    pass returns an error it is an error of the publishing step, not of
    a role. *)
Theorem role_failures_isolated cfg env w :
  0 < Casbin_LoadThread cfg →
  valid_schedule (Z.to_nat (Casbin_LoadThread cfg))
                 (length (queueOf env (enabledRoles env))) (env_sched env) →
  failures_isolated cfg env w.
Proof.
  intros Hpos Hvalid buf Hc.
  destruct (compiled_events cfg env w buf Hc) as (tl & Hev).
  split; [|split; [|split]].
  - destruct (compiled_lines cfg env buf Hpos Hvalid Hc) as (lines & Hb & Hp).
    exists lines. split; [done|]. by rewrite <- queue_contribution.
  - intros role e Hin He. rewrite Hev.
    apply elem_of_cons. right. apply elem_of_app. left.
    by apply (produceEvents_role env _ role Hin).
  - intros role Hin.
    destruct (produceEvents_role env _ role Hin) as [[r Hr] _].
    exists r. rewrite Hev. apply elem_of_cons. right. apply elem_of_app. by left.
  - intros e. by apply load_error_publishing with buf.
Qed.

Lemma buffer_one_line_per_row_witness :
  buffer_holds false Examples.app_cfg Examples.shared_env
  ∧ ∀ w buf, compiled Examples.app_cfg Examples.shared_env = Some buf → buf ≠ "" →
             ∃ werr, EvWriteFile (policyFile Examples.app_cfg) buf werr
                       ∈ new_events (load Examples.app_cfg Examples.shared_env) w.
Proof.
  apply (buffer_one_line_per_row Examples.app_cfg Examples.shared_env).
  - reflexivity.
  - by_compute.
Defined.

(** C2, as stated, fails: the endpoint shared by two menus of the role
    is in the buffer twice. *)
Lemma shared_endpoint_written_twice :
  ¬ buffer_holds true Examples.app_cfg Examples.shared_env.
Proof.
  intros H.
  destruct (H ("p, admin, /api/v1/users, GET " +:+ Strings.newline
               +:+ "p, admin, /api/v1/users, GET " +:+ Strings.newline))
    as (lines & Hb & Hp); [reflexivity|].
  vm_compute in Hp. apply Permutation_singleton_r in Hp. subst lines.
  vm_compute in Hb. discriminate.
Qed.

Lemma role_failures_isolated_witness :
  failures_isolated Examples.app_cfg Examples.flaky_env Examples.deployed.
Proof.
  apply (role_failures_isolated Examples.app_cfg Examples.flaky_env).
  - reflexivity.
  - by_compute.
Defined.

Example flaky_pass :
  compiled Examples.app_cfg Examples.flaky_env
  = Some ("p, exporter, /api/v1/orders, GET " +:+ Strings.newline
          +:+ "p, exporter, /api/v1/orders, POST " +:+ Strings.newline
          +:+ "p, exporter, /api/v1/orders/export, GET " +:+ Strings.newline)
  ∧ (load Examples.app_cfg Examples.flaky_env Examples.deployed).1 = Return None
  ∧ EvLogError "Failed to query role resources" "connection reset"
      ∈ new_events (load Examples.app_cfg Examples.flaky_env) Examples.deployed.
Proof. split; [reflexivity|]. split; [reflexivity|by_compute]. Qed.

Example idle_schedule_valid :
  valid_schedule 0 2 (env_sched Examples.idle_env).
Proof. by_compute. Qed.

(** C7, as stated, fails: with [LoadThread = 0] no worker takes the
    items from the queue, and the roles whose query succeeded contribute
    nothing either. *)
Lemma no_worker_no_lines :
  ¬ failures_isolated Examples.idle_cfg Examples.idle_env Examples.deployed.
Proof.
  intros H. destruct (H "") as ((lines & Hb & Hp) & _); [reflexivity|].
  symmetry in Hb. apply concat_empty in Hb. rewrite Forall_forall in Hb.
  assert (policyLine "editor" (mkMenuResource "a" "M1" "GET" "/api/v1/orders") ∈ lines)
    as Hin.
  { rewrite Hp. by_compute. }
  apply Hb in Hin. vm_compute in Hin. discriminate.
Qed.

Example idle_pass :
  (load Examples.idle_cfg Examples.idle_env Examples.deployed).1 = Return None
  ∧ GetEnforcer (load Examples.idle_cfg Examples.idle_env Examples.deployed).2
    = Some (Some Examples.old_generation).
Proof. split; reflexivity. Qed.

(** ** The reload loop *)

Lemma tick_run cfg env lastUpdated w :
  autoLoad_tick cfg env lastUpdated w
  = let w1 := afterGet env w in
    match getSignal env w with
    | (_, _, Some err) =>
        (Continue lastUpdated, add_events [EvLogError "Failed to get cache" err] w1)
    | (_, false, None) => (Continue lastUpdated, w1)
    | (val, true, None) =>
        match strconv.ParseInt val with
        | Err err =>
            (Continue lastUpdated,
             add_events [EvLogError "Failed to parse cache value" err] w1)
        | Ok updated =>
            if lastUpdated <? updated then
              match load cfg env w1 with
              | (Return (Some err), w2) =>
                  (Continue lastUpdated,
                   add_events [EvLogError "Failed to load casbin policy" err] w2)
              | (Return None, w2) => (Continue updated, w2)
              | (Panic msg, w2) => (Crashed msg, w2)
              end
            else (Continue lastUpdated, w1)
        end
    end.
Proof.
  unfold autoLoad_tick. rewrite bind_run.
  unfold cachex.Get, returning, get_cache. rewrite !bind_run.
  unfold emit, ret. cbn [fst snd cache].
  fold signalKey. fold (getSignal env w).
  change {| enforcer := enforcer w; files := files w; cache := cache w;
            trace := trace w ++ [EvCacheGet config.CacheNSForRole
                                   config.CacheKeyForSyncToCasbin (getSignal env w)] |}
    with (afterGet env w).
  destruct (getSignal env w) as [[val [|]] [err|]]; try reflexivity.
  destruct (strconv.ParseInt val) as [updated|err]; [|reflexivity].
  destruct (lastUpdated <? updated); [|reflexivity].
  rewrite bind_run.
  destruct (load cfg env (afterGet env w)) as [[[err|]|msg] w2]; reflexivity.
Qed.

(** The value of [lastUpdated] after a tick, by cases. *)
Lemma tick_lastUpdated cfg env lastUpdated w :
  (autoLoad_tick cfg env lastUpdated w).1
  = match readSignal env w with
    | Some updated =>
        if lastUpdated <? updated then
          match (load cfg env (afterGet env w)).1 with
          | Return None => Continue updated
          | Return (Some _) => Continue lastUpdated
          | Panic msg => Crashed msg
          end
        else Continue lastUpdated
    | None => Continue lastUpdated
    end.
Proof.
  rewrite tick_run. unfold readSignal. cbn zeta.
  destruct (getSignal env w) as [[val [|]] [err|]]; try reflexivity.
  destruct (strconv.ParseInt val) as [updated|err]; [|reflexivity].
  destruct (lastUpdated <? updated); [|reflexivity].
  destruct (load cfg env (afterGet env w)) as [[[err|]|msg] w2]; reflexivity.
Qed.

(** C4, amended.  [lastUpdated] is advanced, to the value of the signal,
    only in a tick that reloads (the signal is read, parsed and strictly
    greater) and whose pass returns no error, and in every such tick,
    whether or not the pass stored a new enforcer generation; a pass that
    returns an error, and a tick that does not reload, leave
    [lastUpdated] unchanged. *)
Theorem lastUpdated_follows_load cfg env lastUpdated w lastUpdated' :
  (autoLoad_tick cfg env lastUpdated w).1 = Continue lastUpdated' →
  (lastUpdated' ≠ lastUpdated →
   readSignal env w = Some lastUpdated' ∧ lastUpdated < lastUpdated'
   ∧ (load cfg env (afterGet env w)).1 = Return None)
  ∧ (∀ updated, readSignal env w = Some updated → lastUpdated < updated →
       (load cfg env (afterGet env w)).1 = Return None → lastUpdated' = updated)
  ∧ (∀ e, (load cfg env (afterGet env w)).1 = Return (Some e) →
       lastUpdated' = lastUpdated)
  ∧ ((∀ updated, readSignal env w = Some updated → updated <= lastUpdated) →
     lastUpdated' = lastUpdated).
Proof.
  rewrite tick_lastUpdated. intros Ht.
  destruct (readSignal env w) as [updated|]; last first.
  { injection Ht as <-. repeat split; try done. }
  destruct (lastUpdated <? updated) eqn:Hlt.
  - apply Z.ltb_lt in Hlt.
    destruct ((load cfg env (afterGet env w)).1) as [[err|]|msg]; [| |done];
      injection Ht as <-; repeat split; try done.
    + intros u [= <-] _ _. done.
    + intros H. specialize (H _ eq_refl). lia.
  - apply Z.ltb_ge in Hlt. injection Ht as <-. repeat split; try done.
    intros u [= <-] ?. lia.
Qed.

(** *** What a computation may do to the cache and to the holder *)

Lemma framed_ret {A} (a : A) w : framed (ret a) w.
Proof. exists []. simpl. by rewrite app_nil_r. Qed.

Lemma framed_emit ev w : writes_cache ev = false → framed (emit ev) w.
Proof. intros Hev. exists [ev]. simpl. repeat split; try done. by repeat constructor. Qed.

Lemma framed_bind {A B} (m : M A) (k : A → M B) w :
  framed m w → (∀ a w', framed (k a) w') → framed (bind m k) w.
Proof.
  intros (evs1 & Ht1 & Hc1 & Hch1 & He1) Hk.
  destruct (Hk (m w).1 (m w).2) as (evs2 & Ht2 & Hc2 & Hch2 & He2).
  exists (evs1 ++ evs2). rewrite bind_run. repeat split.
  - by rewrite Ht2, Ht1, app_assoc.
  - by apply Forall_app.
  - by rewrite Hch2.
  - intros Hno. rewrite He2, He1; [done| |];
      intros e Hin; apply (Hno e), elem_of_app; auto.
Qed.

Lemma framed_new_events {A} (m : M A) w :
  framed m w →
  Forall (λ ev, writes_cache ev = false) (new_events m w)
  ∧ cache (m w).2 = cache w
  ∧ trace (m w).2 = trace w ++ new_events m w
  ∧ ((∀ e, EvStore e ∉ new_events m w) → enforcer (m w).2 = enforcer w).
Proof.
  intros (evs & Ht & Hc & Hch & He).
  by rewrite (new_events_eq m w evs Ht).
Qed.

Lemma roleEvents_no_cache env roleID :
  Forall (λ ev, writes_cache ev = false) (roleEvents env roleID).
Proof.
  unfold roleEvents, queryRoleResources, MenuDAL_Query, MenuResourceDAL_Query,
    returning, bind, ret, emit. simpl.
  destruct (env_menu_err env _); simpl; [by repeat constructor|].
  destruct (map _ _); simpl; [by repeat constructor|].
  destruct (env_res_err env _); simpl; by repeat constructor.
Qed.

Lemma loadEvents_no_cache cfg env fs :
  Forall (λ ev, writes_cache ev = false) (loadEvents cfg env fs).
Proof.
  unfold loadEvents.
  destruct (env_role_err env); [by repeat constructor|]. cbn zeta.
  constructor; [done|].
  destruct (enabledRoles env) as [|item roles] eqn:Hr; [constructor|]. rewrite <- Hr.
  destruct (Casbin_LoadThread cfg <? 0); [constructor|].
  apply Forall_app. split.
  - unfold produceEvents. generalize (enabledRoles env). intros l.
    induction l as [|role l IH]; simpl; [constructor|].
    rewrite !Forall_app. split; [split|done]; [apply roleEvents_no_cache|].
    unfold roleFailure. destruct (roleResources env _); by repeat constructor.
  - destruct (Strings.nonempty _); [|by repeat constructor].
    rewrite !Forall_app. split; [by repeat constructor|]. split.
    + unfold buildEvents. destruct (writeErr env); [by repeat constructor|].
      destruct (built env _ cfg); by repeat constructor.
    + destruct (publishErr _ _ _); by repeat constructor.
Qed.

Lemma framed_load cfg env w : framed (load cfg env) w.
Proof.
  exists (loadEvents cfg env (files w)). split; [apply load_trace|].
  split; [apply loadEvents_no_cache|]. split; [apply load_cache|].
  intros Hno. apply load_enforcer. by rewrite load_new_events.
Qed.

Lemma framed_tick cfg env lastUpdated w : framed (autoLoad_tick cfg env lastUpdated) w.
Proof.
  unfold autoLoad_tick. apply framed_bind.
  - unfold cachex.Get, returning. apply framed_bind; [exists []; simpl; by rewrite app_nil_r|].
    intros c w'. apply framed_bind; [by apply framed_emit|].
    intros _ w''. apply framed_ret.
  - intros [[val ok] err] w'.
    destruct err as [err|].
    { destruct ok; (apply framed_bind; [by apply framed_emit|intros; apply framed_ret]). }
    destruct ok; [|apply framed_ret].
    destruct (strconv.ParseInt val) as [updated|err].
    + destruct (lastUpdated <? updated); [|apply framed_ret].
      apply framed_bind; [apply framed_load|].
      intros [[err|]|msg] w''; try apply framed_ret.
      apply framed_bind; [by apply framed_emit|intros; apply framed_ret].
    + apply framed_bind; [by apply framed_emit|intros; apply framed_ret].
Qed.

Lemma framed_autoLoad_from cfg ticks :
  ∀ lastUpdated w, framed (autoLoad_from cfg ticks lastUpdated) w.
Proof.
  induction ticks as [|env rest IH]; intros lastUpdated w; simpl.
  - apply framed_ret.
  - apply framed_bind; [apply framed_tick|].
    intros [lastUpdated'|msg] w'; [apply IH|apply framed_ret].
Qed.

Lemma signal_unreadable_None env w :
  signal_unreadable env w → readSignal env w = None.
Proof.
  unfold readSignal, getSignal.
  intros [[e He]|[Hk|(v & e & Hk & Hp)]].
  - by rewrite He.
  - rewrite Hk. by destruct (env_cache_err env).
  - rewrite Hk. destruct (env_cache_err env); [done|]. by rewrite Hp.
Qed.

(** C8.  A tick in which the read of the change signal fails, the key
    is absent, or its value does not parse, keeps [lastUpdated], does not
    reload (it only reads the cache and logs), and leaves the enforcer
    handle and the files alone.  No tick ever writes or deletes a cache
    key: after any number of ticks the cache is what it was, so the
    signal reads the same on the next tick. *)
Theorem unreadable_signal_skips_tick cfg env lastUpdated w ticks :
  (signal_unreadable env w →
   (autoLoad_tick cfg env lastUpdated w).1 = Continue lastUpdated
   ∧ Forall (λ ev, reads_or_logs ev = true)
            (new_events (autoLoad_tick cfg env lastUpdated) w)
   ∧ GetEnforcer (autoLoad_tick cfg env lastUpdated w).2 = GetEnforcer w
   ∧ files (autoLoad_tick cfg env lastUpdated w).2 = files w)
  ∧ cache (autoLoad_from cfg ticks lastUpdated w).2 = cache w
  ∧ Forall (λ ev, writes_cache ev = false)
           (new_events (autoLoad_from cfg ticks lastUpdated) w)
  ∧ ∀ env', readSignal env' (autoLoad_from cfg ticks lastUpdated w).2 = readSignal env' w.
Proof.
  destruct (framed_new_events _ w (framed_autoLoad_from cfg ticks lastUpdated w))
    as (Hnw & Hcache & _ & _).
  split; [|split; [done|split; [done|]]].
  - intros Hun. rewrite tick_lastUpdated, (signal_unreadable_None _ _ Hun).
    split; [done|].
    assert (∃ evs, autoLoad_tick cfg env lastUpdated w = (Continue lastUpdated, add_events evs w)
                   ∧ Forall (λ ev, reads_or_logs ev = true) evs) as (evs & Heq & Hevs).
    { rewrite tick_run. unfold afterGet. cbn zeta.
      apply signal_unreadable_None in Hun. unfold readSignal in Hun.
      destruct (getSignal env w) as [[val [|]] [err|]];
        try (eexists; split; [by rewrite ?add_events_app|by repeat constructor]).
      destruct (strconv.ParseInt val) as [updated|err]; [done|].
      eexists; split; [by rewrite ?add_events_app|by repeat constructor]. }
    rewrite (new_events_add _ _ _ _ Heq), Heq. done.
  - intros env'. unfold readSignal, getSignal. by rewrite Hcache.
Qed.

Lemma lastUpdated_follows_load_witness :
  (5 ≠ 0 →
   readSignal Examples.orders_env Examples.deployed = Some 5 ∧ 0 < 5
   ∧ (load Examples.app_cfg Examples.orders_env
           (afterGet Examples.orders_env Examples.deployed)).1 = Return None)
  ∧ (∀ updated, readSignal Examples.orders_env Examples.deployed = Some updated →
       0 < updated →
       (load Examples.app_cfg Examples.orders_env
             (afterGet Examples.orders_env Examples.deployed)).1 = Return None →
       5 = updated)
  ∧ (∀ e, (load Examples.app_cfg Examples.orders_env
                (afterGet Examples.orders_env Examples.deployed)).1 = Return (Some e) →
       5 = 0)
  ∧ ((∀ updated, readSignal Examples.orders_env Examples.deployed = Some updated →
        updated <= 0) → 5 = 0).
Proof.
  apply (lastUpdated_follows_load Examples.app_cfg Examples.orders_env 0
                                  Examples.deployed 5).
  reflexivity.
Defined.

(** C4, as stated, fails: with no enabled role the pass returns no
    error without building anything, and [lastUpdated] moves to the
    signal although no generation was stored. *)
Lemma advance_without_swap :
  ¬ advance_needs_swap Examples.app_cfg Examples.retired_env 0 Examples.deployed.
Proof.
  intros H. destruct (H 5) as [e He]; [reflexivity|discriminate|].
  vm_compute in He.
  apply elem_of_cons in He as [He|He]; [discriminate|].
  apply elem_of_cons in He as [He|He]; [discriminate|].
  by apply elem_of_nil in He.
Qed.

Example advance_without_swap_run :
  (autoLoad_tick Examples.app_cfg Examples.retired_env 0 Examples.deployed).1
  = Continue 5
  ∧ GetEnforcer
      (autoLoad_tick Examples.app_cfg Examples.retired_env 0 Examples.deployed).2
    = Some (Some Examples.old_generation)
  ∧ (autoLoad_tick Examples.app_cfg Examples.guest_env 0 Examples.deployed).1
    = Continue 5.
Proof. repeat split; reflexivity. Qed.

Lemma unreadable_signal_skips_tick_witness :
  ((autoLoad_tick Examples.app_cfg Examples.outage_env 0 Examples.deployed).1
   = Continue 0
   ∧ Forall (λ ev, reads_or_logs ev = true)
            (new_events (autoLoad_tick Examples.app_cfg Examples.outage_env 0)
                        Examples.deployed)
   ∧ GetEnforcer
       (autoLoad_tick Examples.app_cfg Examples.outage_env 0 Examples.deployed).2
     = GetEnforcer Examples.deployed
   ∧ files (autoLoad_tick Examples.app_cfg Examples.outage_env 0 Examples.deployed).2
     = files Examples.deployed)
  ∧ cache (autoLoad_from Examples.app_cfg
             [Examples.outage_env; Examples.orders_env] 0 Examples.deployed).2
    = cache Examples.deployed.
Proof.
  destruct (unreadable_signal_skips_tick Examples.app_cfg Examples.outage_env 0
              Examples.deployed [Examples.outage_env; Examples.orders_env])
    as (Hskip & Hcache & _).
  split; [|exact Hcache].
  apply Hskip. left. by eexists.
Defined.

(** The tick after the outage sees the pending signal and reloads. *)
Example retried_on_next_tick :
  (autoLoad_from Examples.app_cfg [Examples.outage_env; Examples.orders_env] 0
                 Examples.deployed).1 = Continue 5
  ∧ Enforcer_policy
      <$> (GetEnforcer (autoLoad_from Examples.app_cfg
                          [Examples.outage_env; Examples.orders_env] 0
                          Examples.deployed).2 ≫= id)
    = Some Examples.orders_buffer.
Proof. split; reflexivity. Qed.

(** ** Fail-closed before the first generation *)

Lemma Load_run cfg env w :
  Load cfg env w
  = if Casbin_Disable cfg then (Return None, w)
    else load cfg env {| enforcer := Some None; files := files w; cache := cache w;
                         trace := trace w |}.
Proof.
  unfold Load. destruct (Casbin_Disable cfg); [done|].
  rewrite bind_run. unfold set_enforcer. cbn [fst snd]. rewrite bind_run.
  destruct (load cfg env _) as [[[err|]|msg] w2]; done.
Qed.

Lemma denied_is_403 :
  middleware.ResError (errors.Typed middleware.ErrCasbinDenied)
  = middleware.Aborted 403 middleware.ErrCasbinDenied.
Proof. reflexivity. Qed.

(** The handle of an execution in which no [Store] was made yet. *)
Lemma execution_unloaded cfg env ticks fs ch :
  let w := (execution cfg env ticks (fresh fs ch)).2 in
  (∀ e, EvStore e ∉ trace w) →
  enforcer w = if Casbin_Disable cfg then None else Some None.
Proof.
  unfold execution. rewrite bind_run, Load_run.
  destruct (Casbin_Disable cfg) eqn:Hd.
  { cbn [fst snd]. done. }
  set (w1 := {| enforcer := Some None; files := files (fresh fs ch);
                cache := cache (fresh fs ch); trace := trace (fresh fs ch) |}).
  destruct (framed_load cfg env w1) as (evs1 & Ht1 & _ & _ & He1).
  destruct (load cfg env w1) as [o w2] eqn:Hload. cbn [fst snd] in *.
  assert (∀ w', (∀ e, EvStore e ∉ trace w') → (∃ evs, trace w' = trace w2 ++ evs) →
                ∀ e, EvStore e ∉ evs1) as Hpre.
  { intros w' Hno (evs & Hw') e Hin. apply (Hno e). rewrite Hw', Ht1.
    apply elem_of_app. left. apply elem_of_app. by right. }
  destruct o as [[err|]|msg]; cbn [fst snd].
  - unfold ret. cbn [snd]. intros Hno. rewrite He1; [done|].
    apply (Hpre w2 Hno). exists []. by rewrite app_nil_r.
  - rewrite bind_run. unfold autoLoad.
    destruct (framed_autoLoad_from cfg ticks 0 w2) as (evs2 & Ht2 & _ & _ & He2).
    destruct (autoLoad_from cfg ticks 0 w2) as [t w3]. cbn [fst snd] in *.
    assert ((∀ e, EvStore e ∉ trace w3) → enforcer w3 = Some None) as Hfin.
    { intros Hno. rewrite He2, He1; [done| |].
      - apply (Hpre w3 Hno). by exists evs2.
      - intros e Hin. apply (Hno e). rewrite Ht2. apply elem_of_app. by right. }
    destruct t; unfold ret; cbn [snd]; exact Hfin.
  - unfold ret. cbn [snd]. intros Hno. rewrite He1; [done|].
    apply (Hpre w2 Hno). exists []. by rewrite app_nil_r.
Qed.

(** C3.  In every execution, as long as no compile-and-swap has stored
    an enforcer generation, [GetEnforcer] returns nil (when casbin is
    disabled the holder is not even allocated and the middleware does not
    call it), never an enforcer; the middleware as wired by the server
    then lets a request through only by its skip rules and otherwise
    answers 403 "Permission denied"; and whatever its configuration, the
    middleware answers so whenever the enforcer it obtains is nil. *)
Theorem fail_closed_before_first_store
        (Enforce : Enforcer → string → string → string → result bool)
        cfg env ticks fs ch allowedPrefixes c :
  let w := (execution cfg env ticks (fresh fs ch)).2 in
  (∀ e, EvStore e ∉ trace w) →
  (Casbin_Disable cfg = false → GetEnforcer w = Some None)
  ∧ (∀ e, GetEnforcer w ≠ Some (Some e))
  ∧ (let config := bootstrap.casbinConfig cfg allowedPrefixes w in
     if middleware.skips config c
     then middleware.CasbinWithConfig Enforce config c = middleware.Next
     else middleware.CasbinWithConfig Enforce config c
          = middleware.Aborted 403 middleware.ErrCasbinDenied)
  ∧ ∀ config c',
      middleware.skips config c' = false →
      middleware.CasbinConfig_GetEnforcer config c' = Some None →
      middleware.CasbinWithConfig Enforce config c'
      = middleware.Aborted 403 middleware.ErrCasbinDenied.
Proof.
  intros w Hno. pose proof (execution_unloaded cfg env ticks fs ch Hno) as Henf.
  fold w in Henf. unfold GetEnforcer.
  split; [|split; [|split]].
  - intros Hd. by rewrite Henf, Hd.
  - intros e. rewrite Henf. by destruct (Casbin_Disable cfg).
  - cbn zeta. unfold middleware.CasbinWithConfig.
    destruct (middleware.skips _ c) eqn:Hs; [done|].
    unfold bootstrap.casbinConfig, GetEnforcer. cbn.
    rewrite Henf.
    destruct (Casbin_Disable cfg) eqn:Hd; [|done].
    exfalso. unfold middleware.skips, bootstrap.casbinConfig in Hs. cbn in Hs.
    rewrite Hd in Hs. cbn in Hs. by rewrite orb_true_r in Hs.
  - intros config c' Hs Hnil. unfold middleware.CasbinWithConfig.
    by rewrite Hs, Hnil.
Qed.

Lemma fail_closed_before_first_store_witness :
  (Casbin_Disable Examples.app_cfg = false → GetEnforcer Examples.cold_start = Some None)
  ∧ (∀ e, GetEnforcer Examples.cold_start ≠ Some (Some e))
  ∧ (if middleware.skips (bootstrap.casbinConfig Examples.app_cfg ["/api/"]
                                                 Examples.cold_start)
                         Examples.orders_request
     then middleware.CasbinWithConfig Examples.permissive
            (bootstrap.casbinConfig Examples.app_cfg ["/api/"] Examples.cold_start)
            Examples.orders_request = middleware.Next
     else middleware.CasbinWithConfig Examples.permissive
            (bootstrap.casbinConfig Examples.app_cfg ["/api/"] Examples.cold_start)
            Examples.orders_request
          = middleware.Aborted 403 middleware.ErrCasbinDenied)
  ∧ ∀ config c',
      middleware.skips config c' = false →
      middleware.CasbinConfig_GetEnforcer config c' = Some None →
      middleware.CasbinWithConfig Examples.permissive config c'
      = middleware.Aborted 403 middleware.ErrCasbinDenied.
Proof.
  apply (fail_closed_before_first_store Examples.permissive Examples.app_cfg
           Examples.retired_env [Examples.retired_env]
           {[ "/app/rbac_model.conf" := "model" ]} ∅ ["/api/"] Examples.orders_request).
  no_store.
Defined.

Example cold_start_denies :
  middleware.CasbinWithConfig Examples.permissive
    (bootstrap.casbinConfig Examples.app_cfg ["/api/"] Examples.cold_start)
    Examples.orders_request
  = middleware.Aborted 403
      {| errors.ID := "com.casbin.denied"; errors.Code := 403;
         errors.Detail := "Permission denied"; errors.Status := "Forbidden" |}.
Proof. reflexivity. Qed.

(** * Further properties *)

(** ** The casbin middleware: the loop over the subjects *)

(** The loop over the subjects, by the first subject whose verdict is
    not a plain refusal. *)
Lemma enforceAny_cases Enforce e c subs :
  (Forall (λ s, verdict Enforce e c s = Ok false) subs
   ∧ middleware.enforceAny Enforce e c subs
     = middleware.Aborted 403 middleware.ErrCasbinDenied)
  ∨ ∃ pre sub post,
      subs = pre ++ sub :: post
      ∧ Forall (λ s, verdict Enforce e c s = Ok false) pre
      ∧ ((verdict Enforce e c sub = Ok true
          ∧ middleware.enforceAny Enforce e c subs = middleware.Next)
         ∨ (∃ err, verdict Enforce e c sub = Err err
                   ∧ middleware.enforceAny Enforce e c subs
                     = middleware.Aborted 500 internalError)).
Proof.
  induction subs as [|s subs IH]; [left; by split|].
  cbn [middleware.enforceAny]. fold (verdict Enforce e c s).
  destruct (verdict Enforce e c s) as [[|]|err] eqn:Hv.
  - right. exists [], s, subs. split; [done|]. split; [constructor|]. left. by split.
  - destruct IH as [[Hall Hden]|(pre & sub & post & -> & Hpre & Hsub)].
    + left. split; [by constructor|done].
    + right. exists (s :: pre), sub, post. split; [done|]. split; [by constructor|]. done.
  - right. exists [], s, subs. split; [done|]. split; [constructor|]. right.
    exists err. by split.
Qed.

(** X1.  With an enforcer at hand, the middleware lets the request
    through exactly when the first subject whose verdict is not a refusal
    is granted access: some subject is allowed, and every subject before
    it is refused without error. *)
Theorem first_granted_subject_passes Enforce e c subs :
  middleware.enforceAny Enforce e c subs = middleware.Next
  ↔ ∃ pre sub post,
      subs = pre ++ sub :: post
      ∧ Forall (λ s, verdict Enforce e c s = Ok false) pre
      ∧ verdict Enforce e c sub = Ok true.
Proof.
  split.
  - intros Hn.
    destruct (enforceAny_cases Enforce e c subs)
      as [[_ Hd]|(pre & sub & post & Heq & Hpre & [[Hv _]|(err & _ & Hd)])].
    + by rewrite Hd in Hn.
    + by exists pre, sub, post.
    + by rewrite Hd in Hn.
  - intros (pre & sub & post & -> & Hpre & Hv).
    induction pre as [|x pre IH]; cbn [app middleware.enforceAny].
    + fold (verdict Enforce e c sub). by rewrite Hv.
    + apply Forall_cons in Hpre as [Hx Hpre]. fold (verdict Enforce e c x).
      rewrite Hx. by apply IH.
Qed.

(** X2.  The middleware answers 403 [com.casbin.denied] on behalf of the
    enforcer exactly when every subject is refused without error; a
    request without any subject is refused. *)
Theorem denied_iff_every_subject_refused Enforce e c subs :
  middleware.enforceAny Enforce e c subs
  = middleware.Aborted 403 middleware.ErrCasbinDenied
  ↔ Forall (λ s, verdict Enforce e c s = Ok false) subs.
Proof.
  split.
  - intros Hd.
    destruct (enforceAny_cases Enforce e c subs)
      as [[Hall _]|(pre & sub & post & Heq & Hpre & [[_ Hn]|(err & _ & Hi)])].
    + done.
    + by rewrite Hn in Hd.
    + rewrite Hi in Hd. discriminate.
  - intros Hall. induction Hall as [|x subs Hx _ IH]; [done|].
    cbn [middleware.enforceAny]. fold (verdict Enforce e c x). by rewrite Hx.
Qed.

(** X3.  An error of the enforcer on the first subject that is not
    refused ends the loop: the subjects after it are not consulted, and
    the response is 500 with the generic body, whatever the text of the
    error. *)
Theorem enforcer_error_is_masked Enforce e c pre sub post err :
  Forall (λ s, verdict Enforce e c s = Ok false) pre →
  verdict Enforce e c sub = Err err →
  middleware.enforceAny Enforce e c (pre ++ sub :: post)
  = middleware.Aborted 500 internalError.
Proof.
  intros Hpre Hv. induction pre as [|x pre IH]; cbn [app middleware.enforceAny].
  - fold (verdict Enforce e c sub). by rewrite Hv.
  - apply Forall_cons in Hpre as [Hx Hpre]. fold (verdict Enforce e c x).
    rewrite Hx. by apply IH.
Qed.

Lemma enforcer_error_is_masked_witness :
  middleware.enforceAny Cases.moody Examples.old_generation Examples.orders_request
    (["guest"] ++ "broken" :: ["editor"])
  = middleware.Aborted 500 internalError.
Proof.
  apply (enforcer_error_is_masked Cases.moody Examples.old_generation
           Examples.orders_request ["guest"] "broken" ["editor"] "invalid matcher").
  - by repeat constructor.
  - reflexivity.
Defined.

(** ** The path prefixes *)

Lemma prefix_app (p s : string) :
  String.prefix p s = true ↔ ∃ rest, s = p +:+ rest.
Proof.
  revert s. induction p as [|a p IH]; intros s.
  - split; [intros _; by exists s|by destruct s].
  - destruct s as [|b s].
    + split; [done|]. intros [rest Hr]. discriminate.
    + change (String.prefix (String a p) (String b s))
        with (if ascii_dec a b then String.prefix p s else false).
      destruct (ascii_dec a b) as [->|Hab].
      * rewrite IH. split; intros [rest Hr]; exists rest.
        -- change (String b s = String b (p +:+ rest)). by rewrite Hr.
        -- change (String b s = String b (p +:+ rest)) in Hr. by injection Hr.
      * split; [done|]. intros [rest Hr].
        change (String b s = String a (p +:+ rest)) in Hr. by injection Hr.
Qed.

Lemma hasPrefix_spec c prefixes :
  middleware.hasPrefix c prefixes = true
  ↔ ∃ p rest, p ∈ prefixes ∧ middleware.Request_URL_Path c = p +:+ rest.
Proof.
  unfold middleware.hasPrefix. rewrite existsb_exists. split.
  - intros (p & Hin & Hp). apply prefix_app in Hp as [rest Hr].
    exists p, rest. split; [by apply list_elem_of_In|done].
  - intros (p & rest & Hin & Hr). exists p. split; [by apply list_elem_of_In|].
    apply prefix_app. by exists rest.
Qed.

(** X4.  [SkippedPathPrefixes] holds exactly when the request path
    starts with one of the prefixes; [AllowedPathPrefixes] holds moreover
    when no prefix is given.  The two differ only on the empty list, and
    an empty string among the prefixes matches every path. *)
Theorem path_prefix_rules c prefixes :
  (middleware.SkippedPathPrefixes c prefixes = true
   ↔ ∃ p rest, p ∈ prefixes ∧ middleware.Request_URL_Path c = p +:+ rest)
  ∧ (middleware.AllowedPathPrefixes c prefixes = true
     ↔ prefixes = [] ∨ ∃ p rest, p ∈ prefixes ∧ middleware.Request_URL_Path c = p +:+ rest)
  ∧ (prefixes ≠ [] →
     middleware.AllowedPathPrefixes c prefixes = middleware.SkippedPathPrefixes c prefixes)
  ∧ ("" ∈ prefixes → middleware.SkippedPathPrefixes c prefixes = true).
Proof.
  assert (middleware.SkippedPathPrefixes c prefixes = true
          ↔ ∃ p rest, p ∈ prefixes ∧ middleware.Request_URL_Path c = p +:+ rest) as Hs.
  { destruct prefixes as [|p0 ps]; [|apply hasPrefix_spec].
    split; [done|]. intros (p & rest & Hin & _). by apply elem_of_nil in Hin. }
  split; [exact Hs|]. split; [|split].
  - destruct prefixes as [|p0 ps].
    + split; [by left|done].
    + cbn [middleware.AllowedPathPrefixes]. rewrite hasPrefix_spec.
      split; [by right|]. by intros [?|?].
  - by destruct prefixes.
  - intros Hin. apply Hs. exists "", (middleware.Request_URL_Path c). by split.
Qed.

(** ** The middleware as the server wires it *)

(** X5.  Behind the server's wiring, with the router prefix [/api/], a
    request is let through by the casbin middleware exactly when its path
    is outside [/api/] or under a skipped prefix, casbin is disabled, the
    user is the root user, or the current enforcer generation grants one
    of the user's roles (first verdict that is not a refusal). *)
Theorem wired_casbin_passes Enforce cfg w c :
  middleware.CasbinWithConfig Enforce
    (bootstrap.casbinConfig cfg mods.RouterPrefixes w) c = middleware.Next
  ↔ String.prefix "/api/" (middleware.Request_URL_Path c) = false
    ∨ middleware.SkippedPathPrefixes c (Casbin_SkippedPathPrefixes cfg) = true
    ∨ Casbin_Disable cfg = true
    ∨ middleware.IsRootUser c = true
    ∨ ∃ e, GetEnforcer w = Some (Some e)
           ∧ middleware.enforceAny Enforce e c (middleware.UserCache_RoleIDs c)
             = middleware.Next.
Proof.
  unfold middleware.CasbinWithConfig, middleware.skips, bootstrap.casbinConfig,
    mods.RouterPrefixes, mods.apiPrefix.
  cbn [middleware.CasbinConfig_AllowedPathPrefixes
       middleware.CasbinConfig_SkippedPathPrefixes middleware.CasbinConfig_Skipper
       middleware.CasbinConfig_GetEnforcer middleware.CasbinConfig_GetSubjects
       middleware.AllowedPathPrefixes middleware.hasPrefix existsb].
  rewrite orb_false_r.
  destruct (String.prefix "/api/" (middleware.Request_URL_Path c)); cbn [negb orb];
    [|split; [by left|done]].
  destruct (middleware.SkippedPathPrefixes c _); cbn [orb];
    [split; [by right; left|done]|].
  destruct (Casbin_Disable cfg); cbn [orb]; [split; [by right; right; left|done]|].
  destruct (middleware.IsRootUser c); cbn [orb];
    [split; [by right; right; right; left|done]|].
  destruct (GetEnforcer w) as [[e|]|] eqn:Hg.
  - split.
    + intros Hn. right; right; right; right. by exists e.
    + intros [?|[?|[?|[?|(e' & [= <-] & Hn)]]]]; done.
  - split; [done|]. by intros [?|[?|[?|[?|(e' & ? & _)]]]].
  - split; [done|]. by intros [?|[?|[?|[?|(e' & ? & _)]]]].
Qed.

(** ** The reload loop, tick after tick *)

Lemma digit_nonneg c d : strconv.digit c = Some d → 0 ≤ d.
Proof.
  unfold strconv.digit.
  destruct (48 <=? Z.of_nat (nat_of_ascii c)) eqn:Hlo; cbn [andb]; [|done].
  destruct (Z.of_nat (nat_of_ascii c) <=? 57); [|done].
  apply Z.leb_le in Hlo. intros [= <-]. lia.
Qed.

Lemma digits_nonneg s : ∀ a b, 0 ≤ a → strconv.digits s a = Some b → 0 ≤ b.
Proof.
  induction s as [|c s IH]; intros a b Ha; cbn [strconv.digits].
  - intros [= <-]. done.
  - destruct (strconv.digit c) as [d|] eqn:Hd; [|done].
    apply digit_nonneg in Hd. apply IH. lia.
Qed.

(** [strconv.ParseInt(s, 10, 64)] returns an [int64]. *)
Lemma ParseInt_range s n : strconv.ParseInt s = Ok n → - 2 ^ 63 ≤ n < 2 ^ 63.
Proof.
  unfold strconv.ParseInt. destruct s as [|c rest]; [done|].
  destruct (if Ascii.eqb c "+" || Ascii.eqb c "-" then rest else String c rest)
    as [|c' body]; [done|].
  destruct (strconv.digits (String c' body) 0) as [un|] eqn:Hd; [|done].
  apply digits_nonneg in Hd; [|done].
  destruct (Ascii.eqb c "-").
  - destruct (2 ^ 63 <? un) eqn:Hr; [done|]. apply Z.ltb_ge in Hr. intros [= <-]. lia.
  - destruct (2 ^ 63 <=? un) eqn:Hr; [done|]. apply Z.leb_gt in Hr. intros [= <-]. lia.
Qed.

Lemma readSignal_range env w updated :
  readSignal env w = Some updated → - 2 ^ 63 ≤ updated < 2 ^ 63.
Proof.
  unfold readSignal. destruct (getSignal env w) as [[val [|]] [err|]]; try done.
  destruct (strconv.ParseInt val) as [u|err] eqn:Hp; [|done].
  intros [= <-]. by apply (ParseInt_range val).
Qed.

Lemma tick_monotone cfg env lastUpdated w lastUpdated' :
  (autoLoad_tick cfg env lastUpdated w).1 = Continue lastUpdated' →
  lastUpdated ≤ lastUpdated'
  ∧ (- 2 ^ 63 ≤ lastUpdated < 2 ^ 63 → - 2 ^ 63 ≤ lastUpdated' < 2 ^ 63).
Proof.
  rewrite tick_lastUpdated.
  destruct (readSignal env w) as [updated|] eqn:Hs; [|by intros [= <-]].
  apply readSignal_range in Hs.
  destruct (lastUpdated <? updated) eqn:Hlt; [|by intros [= <-]].
  apply Z.ltb_lt in Hlt.
  destruct ((load cfg env (afterGet env w)).1) as [[err|]|msg]; intros [= <-];
    split; (done || lia).
Qed.

(** X6.  Over any sequence of ticks, [lastUpdated] never decreases, and
    it stays within the range of the [int64] it is stored in. *)
Theorem lastUpdated_never_decreases cfg ticks lastUpdated w lastUpdated' :
  (autoLoad_from cfg ticks lastUpdated w).1 = Continue lastUpdated' →
  lastUpdated ≤ lastUpdated'
  ∧ (- 2 ^ 63 ≤ lastUpdated < 2 ^ 63 → - 2 ^ 63 ≤ lastUpdated' < 2 ^ 63).
Proof.
  revert lastUpdated w. induction ticks as [|env rest IH]; intros lastUpdated w.
  - by intros [= <-].
  - cbn [autoLoad_from]. rewrite bind_run.
    destruct (autoLoad_tick cfg env lastUpdated w) as [[lu1|msg] w1] eqn:Ht;
      cbn [fst snd]; [|done].
    intros Hrest. apply IH in Hrest as [Hle Hrange].
    pose proof (tick_monotone cfg env lastUpdated w lu1) as Hm.
    rewrite Ht in Hm. destruct (Hm eq_refl) as [Hle1 Hrange1].
    split; [lia|]. intros Hr. apply Hrange, Hrange1, Hr.
Qed.

Lemma lastUpdated_never_decreases_witness :
  (autoLoad_from Examples.app_cfg [Examples.outage_env; Examples.orders_env] 0
                 Examples.deployed).1 = Continue 5
  ∧ 0 ≤ 5.
Proof.
  split; [reflexivity|].
  destruct (lastUpdated_never_decreases Examples.app_cfg
              [Examples.outage_env; Examples.orders_env] 0 Examples.deployed 5)
    as [H _]; [reflexivity|exact H].
Defined.

(** The events of a tick. *)
Lemma tick_new_events cfg env lastUpdated w :
  new_events (autoLoad_tick cfg env lastUpdated) w
  = EvCacheGet config.CacheNSForRole config.CacheKeyForSyncToCasbin (getSignal env w)
    :: match getSignal env w with
       | (_, _, Some err) => [EvLogError "Failed to get cache" err]
       | (_, false, None) => []
       | (val, true, None) =>
           match strconv.ParseInt val with
           | Err err => [EvLogError "Failed to parse cache value" err]
           | Ok updated =>
               if lastUpdated <? updated then
                 loadEvents cfg env (files w)
                 ++ match (load cfg env (afterGet env w)).1 with
                    | Return (Some err) => [EvLogError "Failed to load casbin policy" err]
                    | _ => []
                    end
               else []
           end
       end.
Proof.
  apply new_events_eq. rewrite tick_run. cbn zeta. unfold afterGet.
  destruct (getSignal env w) as [[val [|]] [err|]]; try by norm_trace.
  destruct (strconv.ParseInt val) as [updated|err]; [|by norm_trace].
  destruct (lastUpdated <? updated); [|by norm_trace].
  pose proof (load_trace cfg env
    (add_events [EvCacheGet config.CacheNSForRole config.CacheKeyForSyncToCasbin
                            (val, true, None)] w)) as Ht.
  destruct (load cfg env _) as [[[err|]|msg] w2]; cbn [fst snd] in *;
    norm_trace; rewrite Ht; by norm_trace.
Qed.

Lemma loadEvents_head cfg env fs :
  ∃ r tl, loadEvents cfg env fs = EvRoleQuery roleParam r :: tl.
Proof.
  unfold loadEvents. destruct (env_role_err env); cbn zeta; by eexists _, _.
Qed.

Lemma tick_reloads_when_newer cfg env lastUpdated w updated :
  readSignal env w = Some updated → lastUpdated < updated →
  ∃ p r, EvRoleQuery p r ∈ new_events (autoLoad_tick cfg env lastUpdated) w.
Proof.
  intros Hsig Hlt. rewrite tick_new_events. unfold readSignal in Hsig.
  destruct (getSignal env w) as [[val [|]] [err|]]; try done.
  destruct (strconv.ParseInt val) as [u|err]; [|done]. injection Hsig as ->.
  apply Z.ltb_lt in Hlt. rewrite Hlt.
  destruct (loadEvents_head cfg env (files w)) as (r & tl & ->).
  exists roleParam, r. set_solver.
Qed.

(** X7.  A tick queries the roles, that is, starts a reload pass,
    exactly when the change signal is read, parses, and is strictly
    greater than [lastUpdated]: a signal equal to the last applied one,
    such as a change made within the same second, starts none. *)
Theorem tick_reloads_iff_newer cfg env lastUpdated w :
  (∃ p r, EvRoleQuery p r ∈ new_events (autoLoad_tick cfg env lastUpdated) w)
  ↔ ∃ updated, readSignal env w = Some updated ∧ lastUpdated < updated.
Proof.
  rewrite tick_new_events. unfold readSignal.
  destruct (getSignal env w) as [[val [|]] [err|]].
  1,3,4: split; [|by intros (? & ? & _)];
    intros (p & r & Hin); exfalso; set_solver.
  destruct (strconv.ParseInt val) as [updated|err].
  2: { split; [|by intros (? & ? & _)]. intros (p & r & Hin); exfalso; set_solver. }
  destruct (lastUpdated <? updated) eqn:Hlt.
  - apply Z.ltb_lt in Hlt. split; [intros _; by exists updated|]. intros _.
    destruct (loadEvents_head cfg env (files w)) as (r & tl & ->).
    exists roleParam, r. set_solver.
  - apply Z.ltb_ge in Hlt. split.
    + intros (p & r & Hin); exfalso; set_solver.
    + intros (u & [= <-] & ?). lia.
Qed.

Lemma load_error_keeps_enforcer cfg env w e :
  (load cfg env w).1 = Return (Some e) →
  enforcer (load cfg env w).2 = enforcer w.
Proof.
  intros Hret. destruct (compiled cfg env) as [buf|] eqn:Hc.
  - apply load_enforcer.
    apply (publishing_fails_no_store cfg env w e).
    by apply (load_error_publishing cfg env w buf e).
  - destruct (load_quiet cfg env w) as (_ & _ & He & _); [|done].
    intros buf. by rewrite Hc.
Qed.

(** X8.  A reload pass that returns an error within a tick is logged
    and changes neither [lastUpdated], nor the enforcer generation, nor
    the change signal: every later tick that can read the cache finds the
    same signal, still newer than [lastUpdated], and starts a pass
    again. *)
Theorem failed_reload_is_retried cfg env lastUpdated w updated e :
  readSignal env w = Some updated →
  lastUpdated < updated →
  (load cfg env (afterGet env w)).1 = Return (Some e) →
  let w' := (autoLoad_tick cfg env lastUpdated w).2 in
  (autoLoad_tick cfg env lastUpdated w).1 = Continue lastUpdated
  ∧ EvLogError "Failed to load casbin policy" e
      ∈ new_events (autoLoad_tick cfg env lastUpdated) w
  ∧ GetEnforcer w' = GetEnforcer w
  ∧ ∀ env', env_cache_err env' = None →
      readSignal env' w' = Some updated
      ∧ ∃ p r, EvRoleQuery p r ∈ new_events (autoLoad_tick cfg env' lastUpdated) w'.
Proof.
  intros Hsig Hlt Hload w'.
  assert ((autoLoad_tick cfg env lastUpdated w).1 = Continue lastUpdated) as Hres.
  { rewrite tick_lastUpdated, Hsig. apply Z.ltb_lt in Hlt. by rewrite Hlt, Hload. }
  assert (EvLogError "Failed to load casbin policy" e
            ∈ new_events (autoLoad_tick cfg env lastUpdated) w) as Hlog.
  { rewrite tick_new_events. unfold readSignal in Hsig.
    destruct (getSignal env w) as [[val [|]] [err|]]; try done.
    destruct (strconv.ParseInt val) as [u|err]; [|done]. injection Hsig as ->.
    apply Z.ltb_lt in Hlt. rewrite Hlt, Hload. set_solver. }
  assert (enforcer w' = enforcer w) as Henf.
  { unfold w'. rewrite tick_run. cbn zeta. unfold readSignal in Hsig.
    destruct (getSignal env w) as [[val [|]] [err|]]; try done.
    destruct (strconv.ParseInt val) as [u|err]; [|done]. injection Hsig as ->.
    apply Z.ltb_lt in Hlt. rewrite Hlt.
    pose proof (load_error_keeps_enforcer cfg env (afterGet env w) e Hload) as Hk.
    destruct (load cfg env (afterGet env w)) as [[[err|]|msg] w2]; cbn [fst snd] in *;
      try done. }
  assert (cache w' = cache w) as Hcache.
  { by destruct (framed_tick cfg env lastUpdated w) as (_ & _ & _ & Hc & _). }
  split; [done|]. split; [done|]. split; [done|].
  intros env' Hok.
  assert (readSignal env' w' = Some updated) as Hsig'.
  { unfold readSignal, getSignal in *. rewrite Hok, Hcache.
    destruct (env_cache_err env); [done|]. done. }
  split; [done|]. by apply (tick_reloads_when_newer cfg env' lastUpdated w' updated).
Qed.

Lemma failed_reload_is_retried_witness :
  (autoLoad_tick Examples.app_cfg Examples.read_only_env 0 Examples.deployed).1
  = Continue 0
  ∧ EvLogError "Failed to load casbin policy" "permission denied"
      ∈ new_events (autoLoad_tick Examples.app_cfg Examples.read_only_env 0)
                   Examples.deployed.
Proof.
  destruct (failed_reload_is_retried Examples.app_cfg Examples.read_only_env 0
              Examples.deployed 5 "permission denied") as (H1 & H2 & _);
    [reflexivity|reflexivity|reflexivity|].
  by split.
Defined.

(** ** A pass that succeeds *)

(** A pass in which the write and casbin succeed, over a file system
    that holds the model file. *)
Lemma load_success cfg env w buf m :
  compiled cfg env = Some buf → buf ≠ "" →
  env_write env = WriteOk → env_casbin_err env = None →
  files w !! modelFile cfg = Some m →
  modelFile cfg ≠ policyFile cfg → modelFile cfg ≠ bakFile cfg →
  (load cfg env w).1 = Return None
  ∧ enforcer (load cfg env w).2 = Some (Some (mkEnforcer m buf (IsDebug cfg)))
  ∧ files (load cfg env w).2 = <[policyFile cfg := buf]> (afterRename env (files w) cfg)
  ∧ EvStore (mkEnforcer m buf (IsDebug cfg)) ∈ new_events (load cfg env) w.
Proof.
  intros Hc Hne Hw Hcas Hm Hmp Hmb.
  destruct (load_publishing cfg env w buf Hc Hne) as (Hret & Hfs & Henf & Hev).
  cbn zeta in *.
  assert (afterWrite env (afterRename env (files w) cfg) cfg buf
          = <[policyFile cfg := buf]> (afterRename env (files w) cfg)) as Hfs2.
  { unfold afterWrite. by rewrite Hw. }
  rewrite Hfs2 in *.
  assert (afterRename env (files w) cfg !! modelFile cfg = Some m) as Hm'.
  { unfold afterRename. destruct (files w !! policyFile cfg); [|done].
    destruct (env_rename_err env); [done|].
    rewrite lookup_insert_ne by done. by rewrite lookup_delete_ne. }
  assert (built env (<[policyFile cfg := buf]> (afterRename env (files w) cfg)) cfg
          = Ok (mkEnforcer m buf false)) as Hb.
  { unfold built. rewrite Hcas, lookup_insert_ne by done.
    by rewrite Hm', lookup_insert_eq. }
  assert (writeErr env = None) as Hwe by (unfold writeErr; by rewrite Hw).
  split; [|split; [|split]].
  - rewrite Hret. unfold publishErr. by rewrite Hwe, Hb.
  - rewrite Henf. unfold publishEnforcer. by rewrite Hwe, Hb.
  - done.
  - rewrite Hev. apply elem_of_cons. right. apply elem_of_app. right.
    apply elem_of_app. right. apply elem_of_app. left.
    apply (store_in_buildEvents cfg env _ _ Hwe Hb).
Qed.

(** X9.  A pass that compiles a non-empty buffer, writes it and builds
    the enforcer without error returns nil and swaps the generation: the
    policy file holds the buffer, the enforcer now in the holder was built
    from the model file and from that buffer, with its log switch set to
    the debug flag, and, when the rename succeeded, the previous policy
    file is at the [.bak] path. *)
Theorem successful_pass_swaps cfg env w buf m :
  compiled cfg env = Some buf → buf ≠ "" →
  env_write env = WriteOk → env_casbin_err env = None →
  files w !! modelFile cfg = Some m →
  modelFile cfg ≠ policyFile cfg → modelFile cfg ≠ bakFile cfg →
  (load cfg env w).1 = Return None
  ∧ GetEnforcer (load cfg env w).2
    = Some (Some {| Enforcer_model := m; Enforcer_policy := buf;
                    Enforcer_log := IsDebug cfg |})
  ∧ files (load cfg env w).2 !! policyFile cfg = Some buf
  ∧ (∀ old, files w !! policyFile cfg = Some old → env_rename_err env = None →
       files (load cfg env w).2 !! bakFile cfg = Some old)
  ∧ EvStore {| Enforcer_model := m; Enforcer_policy := buf;
               Enforcer_log := IsDebug cfg |} ∈ new_events (load cfg env) w.
Proof.
  intros Hc Hne Hw Hcas Hm Hmp Hmb.
  destruct (load_success cfg env w buf m) as (Hret & Henf & Hfs & Hst); try done.
  split; [done|]. split; [done|]. split; [|split; [|done]].
  - by rewrite Hfs, lookup_insert_eq.
  - intros old Hold Hren. rewrite Hfs, lookup_insert_ne by (symmetry; apply bakFile_ne).
    unfold afterRename. by rewrite Hold, Hren, lookup_insert_eq.
Qed.

Lemma successful_pass_swaps_witness :
  (load Examples.app_cfg Examples.orders_env Examples.deployed).1 = Return None
  ∧ GetEnforcer (load Examples.app_cfg Examples.orders_env Examples.deployed).2
    = Some (Some {| Enforcer_model := "model"; Enforcer_policy := Examples.orders_buffer;
                    Enforcer_log := false |})
  ∧ files (load Examples.app_cfg Examples.orders_env Examples.deployed).2
      !! "/app/gen_rbac_policy.csv" = Some Examples.orders_buffer.
Proof.
  destruct (successful_pass_swaps Examples.app_cfg Examples.orders_env Examples.deployed
              Examples.orders_buffer "model") as (H1 & H2 & H3 & _);
    [reflexivity|discriminate|reflexivity|reflexivity|reflexivity
    |discriminate|discriminate|].
  by repeat split.
Defined.

(** X10.  Reloading unchanged data is idempotent: a second successful
    pass over the same data and schedule returns nil, leaves the same
    enforcer generation in the holder and the same policy file on disk,
    and the backup then equals the policy file. *)
Theorem reload_is_idempotent cfg env w buf m :
  compiled cfg env = Some buf → buf ≠ "" →
  env_write env = WriteOk → env_casbin_err env = None →
  env_rename_err env = None →
  files w !! modelFile cfg = Some m →
  modelFile cfg ≠ policyFile cfg → modelFile cfg ≠ bakFile cfg →
  let w1 := (load cfg env w).2 in
  let w2 := (load cfg env w1).2 in
  (load cfg env w1).1 = Return None
  ∧ GetEnforcer w2 = GetEnforcer w1
  ∧ files w2 !! policyFile cfg = Some buf
  ∧ files w2 !! bakFile cfg = Some buf.
Proof.
  intros Hc Hne Hw Hcas Hren Hm Hmp Hmb w1 w2.
  destruct (load_success cfg env w buf m) as (Hret & Henf & Hfs & _); try done.
  fold w1 in Hret, Henf, Hfs.
  assert (files w1 !! modelFile cfg = Some m) as Hm1.
  { rewrite Hfs, lookup_insert_ne by done. unfold afterRename.
    destruct (files w !! policyFile cfg); [|done]. rewrite Hren.
    rewrite lookup_insert_ne by done. by rewrite lookup_delete_ne. }
  assert (files w1 !! policyFile cfg = Some buf) as Hp1.
  { by rewrite Hfs, lookup_insert_eq. }
  destruct (load_success cfg env w1 buf m) as (Hret2 & Henf2 & Hfs2 & _); try done.
  fold w2 in Henf2, Hfs2.
  split; [done|]. split; [|split].
  - unfold GetEnforcer. by rewrite Henf2, Henf.
  - by rewrite Hfs2, lookup_insert_eq.
  - rewrite Hfs2, lookup_insert_ne by (symmetry; apply bakFile_ne).
    unfold afterRename. by rewrite Hp1, Hren, lookup_insert_eq.
Qed.

Lemma reload_is_idempotent_witness :
  (load Examples.app_cfg Examples.orders_env
        (load Examples.app_cfg Examples.orders_env Examples.deployed).2).1 = Return None
  ∧ files (load Examples.app_cfg Examples.orders_env
                (load Examples.app_cfg Examples.orders_env Examples.deployed).2).2
      !! bakFile Examples.app_cfg = Some Examples.orders_buffer.
Proof.
  destruct (reload_is_idempotent Examples.app_cfg Examples.orders_env Examples.deployed
              Examples.orders_buffer "model") as (H1 & _ & _ & H4);
    [reflexivity|discriminate|reflexivity|reflexivity|reflexivity|reflexivity
    |discriminate|discriminate|].
  by split.
Defined.

(** ** Edges of a pass *)

(** X11.  With a negative [LoadThread] and at least one enabled role,
    the pass panics in [wg.Add] right after the role query, before any
    role is aggregated: neither the files nor the holder are touched;
    [Load] at start-up and a reloading tick panic alike.  Without an
    enabled role the same configuration returns nil. *)
Theorem negative_LoadThread_panics cfg env w :
  Casbin_LoadThread cfg < 0 →
  env_role_err env = None →
  (enabledRoles env ≠ [] →
   load cfg env w
   = (Panic "sync: negative WaitGroup counter",
      add_events [EvRoleQuery roleParam (Ok (enabledRoles env))] w)
   ∧ (Casbin_Disable cfg = false →
      (Load cfg env w).1 = Panic "sync: negative WaitGroup counter")
   ∧ (∀ lastUpdated updated,
        readSignal env w = Some updated → lastUpdated < updated →
        (autoLoad_tick cfg env lastUpdated w).1
        = Crashed "sync: negative WaitGroup counter"))
  ∧ (enabledRoles env = [] → (load cfg env w).1 = Return None).
Proof.
  intros Hneg Hrole. apply Z.ltb_lt in Hneg.
  assert (∀ w0, enabledRoles env ≠ [] →
            load cfg env w0
            = (Panic "sync: negative WaitGroup counter",
               add_events [EvRoleQuery roleParam (Ok (enabledRoles env))] w0)) as Hp.
  { intros w0 Hne. rewrite load_run, Hrole. cbn zeta.
    destruct (enabledRoles env) as [|item roles]; [done|]. by rewrite Hneg. }
  split.
  - intros Hne. split; [by apply Hp|]. split.
    + intros Hd. rewrite Load_run, Hd. by rewrite Hp.
    + intros lastUpdated updated Hsig Hlt.
      rewrite tick_lastUpdated, Hsig. apply Z.ltb_lt in Hlt. rewrite Hlt.
      by rewrite Hp.
  - intros Hnil. rewrite load_run, Hrole. cbn zeta. by rewrite Hnil.
Qed.

Lemma negative_LoadThread_panics_witness :
  (Load Cases.negative_cfg Examples.orders_env (fresh ∅ ∅)).1
  = Panic "sync: negative WaitGroup counter"
  ∧ (load Cases.negative_cfg Examples.retired_env Examples.deployed).1 = Return None.
Proof.
  split.
  - destruct (negative_LoadThread_panics Cases.negative_cfg Examples.orders_env
                (fresh ∅ ∅)) as [H _]; [reflexivity|reflexivity|].
    destruct H as (_ & H & _); [discriminate|]. by apply H.
  - destruct (negative_LoadThread_panics Cases.negative_cfg Examples.retired_env
                Examples.deployed) as [_ H]; [reflexivity|reflexivity|].
    by apply H.
Defined.

Lemma roleEvents_resource_query env roleID p r :
  EvMenuResourceQuery p r ∈ roleEvents env roleID →
  ∃ item data, p = resParam (collectMenuIDs (item :: data)).
Proof.
  unfold roleEvents, queryRoleResources, MenuDAL_Query, MenuResourceDAL_Query,
    returning, bind, ret, emit. simpl.
  destruct (env_menu_err env _); simpl; [set_solver|].
  destruct (map _ _) as [|item data]; simpl; [set_solver|].
  destruct (env_res_err env _); simpl; intros Hin.
  - apply elem_of_cons in Hin as [?|Hin]; [done|].
    apply elem_of_cons in Hin as [[= -> _]|Hin]; [by exists item, data|set_solver].
  - apply elem_of_cons in Hin as [?|Hin]; [done|].
    apply elem_of_cons in Hin as [[= -> _]|Hin]; [by exists item, data|set_solver].
Qed.

Lemma produceEvents_resource_query env roles p r :
  EvMenuResourceQuery p r ∈ produceEvents env roles →
  ∃ item data, p = resParam (collectMenuIDs (item :: data)).
Proof.
  unfold produceEvents. rewrite list_elem_of_In, in_flat_map.
  intros (role & _ & Hin). apply list_elem_of_In, elem_of_app in Hin as [Hin|Hin].
  - by apply roleEvents_resource_query in Hin.
  - unfold roleFailure in Hin. destruct (roleResources env _); set_solver.
Qed.

(** X12.  A pass never asks the resource store for the resources of
    all menus: every [MenuResource] query it issues filters by a
    non-empty list of menu ids without duplicate (and by no single menu
    id).  A role whose menu query returns no row gets no resource
    query. *)
Theorem resource_query_never_unfiltered cfg env w p r :
  EvMenuResourceQuery p r ∈ new_events (load cfg env) w →
  MenuResourceQueryParam_MenuIDs p ≠ []
  ∧ NoDup (MenuResourceQueryParam_MenuIDs p)
  ∧ MenuResourceQueryParam_MenuID p = "".
Proof.
  rewrite load_new_events. unfold loadEvents. intros Hin.
  assert (∃ item data, p = resParam (collectMenuIDs (item :: data)))
    as (item & data & ->); last first.
  { cbn [resParam MenuResourceQueryParam_MenuIDs MenuResourceQueryParam_MenuID].
    split; [apply collectMenuIDs_nonempty|]. split; [apply collectMenuIDs_NoDup|done]. }
  destruct (env_role_err env); [set_solver|]. cbn zeta in Hin.
  apply elem_of_cons in Hin as [?|Hin]; [done|].
  destruct (enabledRoles env) as [|role0 roles0] eqn:Hr; [set_solver|]. rewrite <- Hr in *.
  destruct (Casbin_LoadThread cfg <? 0); [set_solver|].
  apply elem_of_app in Hin as [Hin|Hin];
    [by apply produceEvents_resource_query in Hin|].
  exfalso. destruct (Strings.nonempty _).
  - unfold writeEvents, buildEvents, loadInfo in Hin.
    repeat match type of Hin with
           | context [match ?x with _ => _ end] => destruct x
           end; set_solver.
  - unfold loadInfo in Hin. set_solver.
Qed.

Lemma resource_query_never_unfiltered_witness :
  MenuResourceQueryParam_MenuIDs (resParam ["M2"; "M1"]) ≠ []
  ∧ NoDup (MenuResourceQueryParam_MenuIDs (resParam ["M2"; "M1"]))
  ∧ MenuResourceQueryParam_MenuID (resParam ["M2"; "M1"]) = "".
Proof.
  apply (resource_query_never_unfiltered Examples.app_cfg Examples.orders_env
           Examples.deployed (resParam ["M2"; "M1"])
           (Ok [mkMenuResource "a" "M1" "GET" "/api/v1/orders";
                mkMenuResource "b" "M1" "POST" "/api/v1/orders";
                mkMenuResource "c" "M2" "GET" "/api/v1/orders/export"])).
  by_compute.
Defined.

(** ** The statistics a pass logs *)






(** ** The change signal, written and read back *)

Lemma append_nil_r (s : string) : s +:+ "" = s.
Proof.
  induction s as [|c s IH]; [done|].
  change (String c (s +:+ "") = String c s). by rewrite IH.
Qed.

Lemma digit_digitChar d : 0 ≤ d < 10 → strconv.digit (fmt.digitChar d) = Some d.
Proof.
  intros Hd. destruct d as [|p|p]; [reflexivity| |lia].
  do 4 (destruct p as [p|p|]; try lia; try reflexivity).
Qed.

Lemma digitChar_not_sign d :
  0 ≤ d < 10 →
  Ascii.eqb (fmt.digitChar d) "-" = false ∧ Ascii.eqb (fmt.digitChar d) "+" = false.
Proof.
  intros Hd. destruct d as [|p|p]; [by split| |lia].
  do 4 (destruct p as [p|p|]; try lia; try by split).
Qed.

Lemma digits_app s1 s2 : ∀ a,
  strconv.digits (s1 +:+ s2) a = strconv.digits s1 a ≫= strconv.digits s2.
Proof.
  induction s1 as [|c s1 IH]; intros a; [done|].
  change (strconv.digits (String c (s1 +:+ s2)) a
          = strconv.digits (String c s1) a ≫= strconv.digits s2).
  cbn [strconv.digits]. destruct (strconv.digit c); [apply IH|done].
Qed.

(** The formatter writes one digit at least, the first one not a sign,
    and the digits read back as the number. *)
Lemma fmtUint_spec fuel : ∀ u acc,
  0 ≤ u < 10 ^ Z.of_nat (S fuel) →
  ∃ d tl k,
    fmt.fmtUint (S fuel) u acc = String (fmt.digitChar d) tl +:+ acc
    ∧ 0 ≤ d < 10 ∧ 0 ≤ k
    ∧ ∀ a, strconv.digits (String (fmt.digitChar d) tl) a = Some (a * 10 ^ k + u).
Proof.
  induction fuel as [|fuel IH]; intros u acc Hu.
  - exists u, "", 1. cbn [fmt.fmtUint].
    assert (u < 10) as Hlt by (change (10 ^ Z.of_nat 1) with 10 in Hu; lia).
    apply Z.ltb_lt in Hlt as Hb. rewrite Hb. split; [done|].
    split; [lia|]. split; [lia|]. intros a. cbn [strconv.digits].
    rewrite digit_digitChar by lia. cbn [strconv.digits]. f_equal. lia.
  - change (fmt.fmtUint (S (S fuel)) u acc)
      with (if u <? 10 then String (fmt.digitChar u) acc
            else fmt.fmtUint (S fuel) (u / 10) (String (fmt.digitChar (u mod 10)) acc)).
    destruct (u <? 10) eqn:Hb.
    + apply Z.ltb_lt in Hb. exists u, "", 1. split; [done|].
      split; [lia|]. split; [lia|]. intros a. cbn [strconv.digits].
      rewrite digit_digitChar by lia. cbn [strconv.digits]. f_equal. lia.
    + apply Z.ltb_ge in Hb.
      assert (0 ≤ u / 10 < 10 ^ Z.of_nat (S fuel)) as Hq.
      { split; [apply Z.div_pos; lia|]. apply Z.div_lt_upper_bound; [lia|].
        replace (Z.of_nat (S (S fuel))) with (Z.succ (Z.of_nat (S fuel))) in Hu by lia.
        rewrite Z.pow_succ_r in Hu by lia. lia. }
      destruct (IH (u / 10) (String (fmt.digitChar (u mod 10)) acc) Hq)
        as (d & tl & k & Heq & Hd & Hk & Hdig).
      exists d, (tl +:+ String (fmt.digitChar (u mod 10)) ""), (k + 1).
      split; [|split; [done|split; [lia|]]].
      * rewrite Heq.
        change (String (fmt.digitChar d) (tl +:+ String (fmt.digitChar (u mod 10)) acc)
                = String (fmt.digitChar d)
                    ((tl +:+ String (fmt.digitChar (u mod 10)) "") +:+ acc)).
        by rewrite append_assoc.
      * intros a.
        change (String (fmt.digitChar d) (tl +:+ String (fmt.digitChar (u mod 10)) ""))
          with (String (fmt.digitChar d) tl +:+ String (fmt.digitChar (u mod 10)) "").
        rewrite digits_app, Hdig. cbn [mbind option_bind strconv.digits].
        pose proof (Z.mod_pos_bound u 10 ltac:(lia)) as Hm.
        rewrite digit_digitChar by lia. f_equal.
        rewrite Z.pow_add_r by lia. pose proof (Z.div_mod u 10 ltac:(lia)). lia.
Qed.

(** The formatted number parses back. *)
Lemma signal_text_round_trip_aux n :
  - 2 ^ 63 ≤ n < 2 ^ 63 → strconv.ParseInt (fmt.Sprintf_d n) = Ok n.
Proof.
  intros Hn. unfold fmt.Sprintf_d. destruct (n <? 0) eqn:Hneg.
  - apply Z.ltb_lt in Hneg.
    destruct (fmtUint_spec 19 (- n) "") as (d & tl & k & Heq & Hd & Hk & Hdig).
    { change (Z.of_nat 20) with 20. lia. }
    rewrite Heq, append_nil_r. unfold strconv.ParseInt.
    change (Ascii.eqb "-" "-") with true. rewrite orb_true_r.
    rewrite Hdig. replace (0 * 10 ^ k + - n) with (- n) by lia.
    destruct (2 ^ 63 <? - n) eqn:Hr; [apply Z.ltb_lt in Hr; lia|].
    f_equal. lia.
  - apply Z.ltb_ge in Hneg.
    destruct (fmtUint_spec 19 n "") as (d & tl & k & Heq & Hd & Hk & Hdig).
    { change (Z.of_nat 20) with 20. lia. }
    rewrite Heq, append_nil_r. unfold strconv.ParseInt.
    destruct (digitChar_not_sign d Hd) as [Hm Hp]. rewrite Hm, Hp. cbn [orb].
    rewrite Hdig. replace (0 * 10 ^ k + n) with n by lia.
    destruct (2 ^ 63 <=? n) eqn:Hr; [apply Z.leb_le in Hr; lia|done].
Qed.

(** X14.  The text [fmt.Sprintf("%d", n)] that [syncToCasbin] stores
    for an [int64] is not empty and is read back by
    [strconv.ParseInt(val, 10, 64)] as the same number, without error; two
    different numbers are never written as the same text. *)
Theorem signal_text_round_trip n :
  - 2 ^ 63 ≤ n < 2 ^ 63 →
  strconv.ParseInt (fmt.Sprintf_d n) = Ok n
  ∧ fmt.Sprintf_d n ≠ ""
  ∧ ∀ m, - 2 ^ 63 ≤ m < 2 ^ 63 → fmt.Sprintf_d m = fmt.Sprintf_d n → m = n.
Proof.
  intros Hn. pose proof (signal_text_round_trip_aux n Hn) as Hp.
  split; [done|]. split.
  - intros He. by rewrite He in Hp.
  - intros m Hm Heq. pose proof (signal_text_round_trip_aux m Hm) as Hq.
    rewrite Heq, Hp in Hq. by injection Hq.
Qed.

Lemma signal_text_round_trip_witness :
  strconv.ParseInt (fmt.Sprintf_d 1700000000) = Ok 1700000000.
Proof.
  destruct (signal_text_round_trip 1700000000) as [H _]; [split; done|exact H].
Defined.

Lemma syncToCasbinAt_run env now w :
  env_cache_err env = None →
  syncToCasbinAt env now w
  = (None,
     {| enforcer := enforcer w; files := files w;
        cache := <[signalKey := fmt.Sprintf_d now]> (cache w);
        trace := trace w ++ [EvCacheSet config.CacheNSForRole
                               config.CacheKeyForSyncToCasbin (fmt.Sprintf_d now) None] |}).
Proof.
  intros Hok. unfold syncToCasbinAt, syncToCasbin, cachex.Set_.
  rewrite bind_run. unfold get_cache. cbn [fst snd]. rewrite Hok.
  rewrite bind_run. unfold set_cache, returning. cbn [fst snd].
  rewrite bind_run. unfold emit, ret. cbn [fst snd]. reflexivity.
Qed.

(** X15.  A change signalled by a mutation handler reaches the reload
    loop: after [syncToCasbin] has stored the Unix time [now] without a
    cache error, a tick that can read the cache reads [now] back as the
    timestamp, whatever the cache held before, and starts a reload pass
    when [now] is later than [lastUpdated].  Signalling touches neither
    the files nor the enforcer. *)
Theorem mutation_signal_reaches_loop cfg env env' w now lastUpdated :
  - 2 ^ 63 ≤ now < 2 ^ 63 →
  env_cache_err env = None →
  env_cache_err env' = None →
  let w' := (syncToCasbinAt env now w).2 in
  (syncToCasbinAt env now w).1 = None
  ∧ readSignal env' w' = Some now
  ∧ (lastUpdated < now →
     ∃ p r, EvRoleQuery p r ∈ new_events (autoLoad_tick cfg env' lastUpdated) w')
  ∧ GetEnforcer w' = GetEnforcer w
  ∧ files w' = files w.
Proof.
  intros Hn Hok Hok' w'. unfold w'. rewrite (syncToCasbinAt_run env now w Hok).
  cbn [fst snd].
  set (w1 := {| enforcer := enforcer w; files := files w;
                cache := <[signalKey := fmt.Sprintf_d now]> (cache w);
                trace := _ |}).
  assert (readSignal env' w1 = Some now) as Hsig.
  { unfold readSignal, getSignal. rewrite Hok'. unfold w1. cbn [cache].
    rewrite lookup_insert_eq. by rewrite (signal_text_round_trip_aux now Hn). }
  split; [done|]. split; [done|]. split; [|done].
  intros Hlt. by apply (tick_reloads_when_newer cfg env' lastUpdated w1 now).
Qed.

Lemma mutation_signal_reaches_loop_witness :
  readSignal Examples.orders_env
             (syncToCasbinAt Examples.orders_env 1700000000 Examples.deployed).2
  = Some 1700000000.
Proof.
  destruct (mutation_signal_reaches_loop Examples.app_cfg Examples.orders_env
              Examples.orders_env Examples.deployed 1700000000 5)
    as (_ & H & _); [split; done|reflexivity|reflexivity|].
  exact H.
Defined.

(** ** The memory cache *)

Lemma gocache_Get_Set now now' c k x d k' :
  0 ≤ now →
  gocache.Get now' (gocache.Set_ now c k x d) k'
  = if decide (k = k')
    then if (0 <? d) && (now + d <? now') then None else Some x
    else gocache.Get now' c k'.
Proof.
  intros Hnow. unfold gocache.Get, gocache.Set_. cbn zeta.
  destruct (decide (k = k')) as [->|Hne]; [|by rewrite lookup_insert_ne].
  rewrite lookup_insert_eq. unfold gocache.Expired.
  cbn [gocache.Expiration gocache.Object].
  destruct (d =? 0) eqn:Hd0.
  { apply Z.eqb_eq in Hd0 as ->. done. }
  destruct (0 <? d) eqn:Hd; cbn [andb]; [|done].
  apply Z.ltb_lt in Hd.
  assert ((0 <? now + d) = true) as -> by (apply Z.ltb_lt; lia). done.
Qed.

(** X16.  In the memory cache, a value set under a namespace and key is
    what [Get] returns for them afterwards, without error: at any later
    instant when no expiration (or a zero or negative one) is given, and
    up to and including the instant [now + expiration[0]] otherwise, after
    which the entry is reported absent. *)
Theorem memCache_set_then_get Delimiter now now' c ns key value expiration :
  0 ≤ now →
  (memCache.Set_ Delimiter now c ns key value expiration).2 = None
  ∧ memCache.Get Delimiter now'
      (memCache.Set_ Delimiter now c ns key value expiration).1 ns key
    = match expiration with
      | [] => (value, true, None)
      | exp :: _ =>
          if (0 <? exp) && (now + exp <? now') then ("", false, None)
          else (value, true, None)
      end.
Proof.
  intros Hnow. split; [done|]. unfold memCache.Get, memCache.Set_. cbn [fst].
  rewrite gocache_Get_Set by done. rewrite decide_True by done.
  destruct expiration as [|exp rest]; [done|].
  by destruct ((0 <? exp) && (now + exp <? now')).
Qed.

Lemma memCache_set_then_get_witness :
  memCache.Get ":" 2000
    (memCache.Set_ ":" 1000 ∅ "role" "sync:casbin" "1700000000" []).1
    "role" "sync:casbin"
  = ("1700000000", true, None)
  ∧ memCache.Get ":" 2000
      (memCache.Set_ ":" 1000 ∅ "user" "u1" "cached" [500]).1 "user" "u1"
    = ("", false, None).
Proof.
  split.
  - destruct (memCache_set_then_get ":" 1000 2000 ∅ "role" "sync:casbin"
                "1700000000" []) as [_ H]; [done|exact H].
  - destruct (memCache_set_then_get ":" 1000 2000 ∅ "user" "u1" "cached" [500])
      as [_ H]; [done|exact H].
Defined.

(** *** Namespaces *)

Lemma append_cons c (s t : string) : String c s +:+ t = String c (s +:+ t).
Proof. reflexivity. Qed.

Lemma getKey_inj d ns ns' key key' :
  occurs d ns = false → occurs d ns' = false →
  memCache.getKey (String d "") ns key = memCache.getKey (String d "") ns' key' →
  ns = ns' ∧ key = key'.
Proof.
  unfold memCache.getKey. revert ns'.
  induction ns as [|c ns IH]; intros [|c' ns'] Ho Ho' Heq.
  - change (String d key = String d key') in Heq. by injection Heq.
  - change (String d key = String c' (ns' +:+ String d "" +:+ key')) in Heq.
    injection Heq as -> _. cbn [occurs] in Ho'. by rewrite Ascii.eqb_refl in Ho'.
  - change (String c (ns +:+ String d "" +:+ key) = String d key') in Heq.
    injection Heq as -> _. cbn [occurs] in Ho. by rewrite Ascii.eqb_refl in Ho.
  - rewrite !append_cons in Heq. injection Heq as -> Heq.
    cbn [occurs] in Ho, Ho'. apply orb_false_iff in Ho as [_ Ho].
    apply orb_false_iff in Ho' as [_ Ho'].
    destruct (IH ns' Ho Ho' Heq) as [-> ->]. done.
Qed.

(** X17.  With a one-byte delimiter that occurs in neither namespace,
    the memory cache keeps namespaces and keys apart: setting or deleting
    the entry of one (namespace, key) pair changes what [Get] returns for
    no other pair. *)
Theorem memCache_namespaces_isolated d now now' c ns key value expiration ns' key' :
  occurs d ns = false → occurs d ns' = false →
  (ns, key) ≠ (ns', key') →
  memCache.Get (String d "") now'
    (memCache.Set_ (String d "") now c ns key value expiration).1 ns' key'
  = memCache.Get (String d "") now' c ns' key'
  ∧ memCache.Get (String d "") now' (memCache.Delete (String d "") c ns key).1 ns' key'
    = memCache.Get (String d "") now' c ns' key'.
Proof.
  intros Ho Ho' Hne.
  assert (memCache.getKey (String d "") ns key ≠ memCache.getKey (String d "") ns' key')
    as Hk.
  { intros Heq. destruct (getKey_inj d ns ns' key key' Ho Ho' Heq) as [-> ->]. done. }
  unfold memCache.Get, memCache.Set_, memCache.Delete, gocache.Get, gocache.Set_,
    gocache.Delete. cbn [fst].
  by rewrite lookup_insert_ne, lookup_delete_ne.
Qed.

Lemma memCache_namespaces_isolated_witness :
  memCache.Get ":" 10 (memCache.Set_ ":" 5 ∅ "user" "u1" "roles" []).1 "role" "u1"
  = memCache.Get ":" 10 ∅ "role" "u1"
  ∧ memCache.Get ":" 10 (memCache.Delete ":" ∅ "user" "u1").1 "role" "u1"
    = memCache.Get ":" 10 ∅ "role" "u1".
Proof.
  apply (memCache_namespaces_isolated ":" 5 10 ∅ "user" "u1" "roles" [] "role" "u1");
    [reflexivity|reflexivity|discriminate].
Defined.

(** When the delimiter occurs in a namespace or in a key, two pairs can
    name the same entry. *)
Example memCache_keys_collide :
  memCache.Get ":" 10 (memCache.Set_ ":" 5 ∅ "role" "sync:casbin" "7" []).1
               "role:sync" "casbin"
  = ("7", true, None).
Proof. reflexivity. Qed.

(** X18.  [GetAndDelete] returns what [Get] returns, removes the entry
    it returned and only that one, and leaves the cache as it is when the
    entry is absent or has expired; from then on the entry does not
    exist. *)
Theorem memCache_get_and_delete Delimiter now c ns key :
  (memCache.GetAndDelete Delimiter now c ns key).2 = memCache.Get Delimiter now c ns key
  ∧ (∀ now', now ≤ now' →
       memCache.Exists Delimiter now'
         (memCache.GetAndDelete Delimiter now c ns key).1 ns key = (false, None))
  ∧ (∀ k, k ≠ memCache.getKey Delimiter ns key →
       (memCache.GetAndDelete Delimiter now c ns key).1 !! k = c !! k)
  ∧ ((memCache.Get Delimiter now c ns key).1.2 = false →
     (memCache.GetAndDelete Delimiter now c ns key).1 = c).
Proof.
  unfold memCache.GetAndDelete, memCache.Get, memCache.Exists, gocache.Get, gocache.Delete.
  destruct (c !! memCache.getKey Delimiter ns key) as [it|] eqn:Hc.
  - destruct (gocache.Expired now it) eqn:He; cbn [fst snd].
    + rewrite Hc. split; [done|]. split; [|done]. intros now' Hle.
      assert (gocache.Expired now' it = true) as ->; [|done].
      unfold gocache.Expired in *. apply andb_true_iff in He as [H0 Hlt].
      rewrite H0. cbn [andb]. apply Z.ltb_lt in Hlt. apply Z.ltb_lt. lia.
    + split; [done|]. split; [|split; [|done]].
      * intros now' _. by rewrite lookup_delete_eq.
      * intros k Hk. by rewrite lookup_delete_ne.
  - cbn [fst snd]. rewrite Hc. done.
Qed.

(** *** The iterator *)

Lemma substring_all (s : string) : String.substring 0 (String.length s) s = s.
Proof.
  induction s as [|c s IH]; [done|].
  cbn [String.length String.substring]. by rewrite IH.
Qed.

Lemma TrimPrefix_app (p rest : string) : memCache.TrimPrefix (p +:+ rest) p = rest.
Proof.
  unfold memCache.TrimPrefix.
  assert (String.prefix p (p +:+ rest) = true) as -> by (apply prefix_app; by exists rest).
  induction p as [|c p IH].
  - change ("" +:+ rest) with rest. cbn [String.length]. rewrite Nat.sub_0_r.
    apply substring_all.
  - rewrite append_cons. cbn [String.length String.substring].
    exact IH.
Qed.

Lemma getKey_prefix Delimiter ns key :
  memCache.getKey Delimiter ns key = memCache.getKey Delimiter ns "" +:+ key.
Proof.
  unfold memCache.getKey. by rewrite !append_assoc.
Qed.

Lemma append_inj_l (p s t : string) : p +:+ s = p +:+ t → s = t.
Proof.
  induction p as [|c p IH]; [done|]. rewrite !append_cons. intros [= H]. by apply IH.
Qed.

Lemma Iterator_all_elem Delimiter ns kvs key value :
  (key, value) ∈ memCache.Iterator Delimiter ns (λ _ _, true) kvs
  ↔ ∃ it, (memCache.getKey Delimiter ns key, it) ∈ kvs ∧ gocache.Object it = value.
Proof.
  induction kvs as [|[k v] kvs IH]; cbn [memCache.Iterator].
  { split; [by intros ?%elem_of_nil|]. by intros (it & ?%elem_of_nil & _). }
  destruct (String.prefix (memCache.getKey Delimiter ns "") k) eqn:Hp.
  - apply prefix_app in Hp as [rest ->]. rewrite TrimPrefix_app.
    rewrite elem_of_cons, IH. split.
    + intros [[= -> ->]|(it & Hin & Hv)].
      * exists v. rewrite getKey_prefix. split; [apply elem_of_cons; by left|done].
      * exists it. split; [apply elem_of_cons; by right|done].
    + intros (it & Hin & Hv). apply elem_of_cons in Hin as [[= Hk ->]|Hin].
      * left. rewrite getKey_prefix in Hk. apply append_inj_l in Hk. by subst.
      * right. by exists it.
  - rewrite IH. split; intros (it & Hin & Hv); exists it; (split; [|done]).
    + apply elem_of_cons. by right.
    + apply elem_of_cons in Hin as [[= Hk ->]|Hin]; [|done].
      exfalso. rewrite <- Hk, (getKey_prefix Delimiter ns key) in Hp.
      assert (String.prefix (memCache.getKey Delimiter ns "")
                (memCache.getKey Delimiter ns "" +:+ key) = true) as Ht
        by (apply prefix_app; by exists key).
      by rewrite Ht in Hp.
Qed.

(** X19.  An [Iterator] over a namespace whose callback never stops
    it calls the callback on exactly the live entries of the namespace,
    each with the key and value [Get] knows it by, in whatever order the
    map is ranged over. *)
Theorem memCache_iterator_visits_namespace Delimiter now c ns kvs key value :
  kvs ≡ₚ map_to_list (gocache.Items now c) →
  (key, value) ∈ memCache.Iterator Delimiter ns (λ _ _, true) kvs
  ↔ memCache.Get Delimiter now c ns key = (value, true, None).
Proof.
  intros Hperm. rewrite Iterator_all_elem.
  unfold memCache.Get, gocache.Get. split.
  - intros (it & Hin & Hv). rewrite Hperm in Hin.
    apply elem_of_map_to_list in Hin. unfold gocache.Items in Hin.
    apply map_lookup_filter_Some in Hin as [Hc He]. cbn [snd] in He.
    by rewrite Hc, He, Hv.
  - destruct (c !! memCache.getKey Delimiter ns key) as [it|] eqn:Hc; [|done].
    destruct (gocache.Expired now it) eqn:He; [done|]. intros [= <-].
    exists it. split; [|done]. rewrite Hperm. apply elem_of_map_to_list.
    unfold gocache.Items. by apply map_lookup_filter_Some.
Qed.

Lemma memCache_iterator_visits_namespace_witness :
  ("sync:casbin", "7")
    ∈ memCache.Iterator ":" "role" (λ _ _, true)
        (map_to_list (gocache.Items 10 {[ "role:sync:casbin" := gocache.mkItem "7" 0 ]}))
  ↔ memCache.Get ":" 10 {[ "role:sync:casbin" := gocache.mkItem "7" 0 ]}
                 "role" "sync:casbin"
    = ("7", true, None).
Proof.
  apply (memCache_iterator_visits_namespace ":" 10
           {[ "role:sync:casbin" := gocache.mkItem "7" 0 ]} "role").
  reflexivity.
Defined.

(** ** Authentication *)

Lemma substring_after (p rest : string) :
  String.substring (String.length p)
                   (String.length (p +:+ rest) - String.length p)%nat (p +:+ rest)
  = rest.
Proof.
  induction p as [|c p IH].
  - change ("" +:+ rest) with rest. cbn [String.length]. rewrite Nat.sub_0_r.
    apply substring_all.
  - rewrite append_cons. cbn [String.length String.substring]. exact IH.
Qed.

(** X20.  [GetToken] takes the token from the [Authorization] header:
    what follows [Bearer ] when the header starts so, the whole header
    otherwise; the query parameter [accessToken] is used only when the
    header is empty or is [Bearer ] alone. *)
Theorem GetToken_sources c :
  (∀ t, t ≠ "" → authn.Header_Authorization c = "Bearer " +:+ t → authn.GetToken c = t)
  ∧ (authn.Header_Authorization c ≠ "" →
     String.prefix "Bearer " (authn.Header_Authorization c) = false →
     authn.GetToken c = authn.Header_Authorization c)
  ∧ (authn.Header_Authorization c = "" ∨ authn.Header_Authorization c = "Bearer " →
     authn.GetToken c = authn.Query_accessToken c).
Proof.
  unfold authn.GetToken. cbn zeta. split; [|split].
  - intros t Ht ->.
    assert (String.prefix "Bearer " ("Bearer " +:+ t) = true) as ->
      by (apply prefix_app; by exists t).
    change (Strings.nonempty ("Bearer " +:+ t)) with true. cbn [andb].
    rewrite (substring_after "Bearer " t).
    apply nonempty_true in Ht. by rewrite Ht.
  - intros Hne Hp. rewrite Hp, andb_false_r.
    apply nonempty_true in Hne. by rewrite Hne.
  - intros [->| ->]; reflexivity.
Qed.

Lemma casbin_root_passes Enforce cfg w c :
  middleware.IsRootUser c = true →
  middleware.CasbinWithConfig Enforce
    (bootstrap.casbinConfig cfg mods.RouterPrefixes w) c = middleware.Next.
Proof.
  intros Hr. unfold middleware.CasbinWithConfig, middleware.skips, bootstrap.casbinConfig.
  cbn [middleware.CasbinConfig_Skipper]. rewrite Hr. by rewrite !orb_true_r.
Qed.

(** X21.  With authentication disabled, every request that the
    authentication middleware does not skip is given the root user's id
    and the root mark, without any token being read or any store being
    consulted, and the casbin middleware behind it lets it through
    whatever the enforcer. *)
Theorem disabled_auth_makes_root Enforce cfg s st c w :
  authn.Auth_Disable s = true →
  authn.skips (authn.authConfig s st mods.RouterPrefixes) c = false →
  (∃ c', authn.AuthWithConfig (authn.authConfig s st mods.RouterPrefixes) c w
         = (authn.Next c', w)
         ∧ authn.UserID c' = authn.Root_ID s
         ∧ middleware.IsRootUser (authn.Base c') = true)
  ∧ authn.authThenCasbin Enforce cfg s st c w = (middleware.Next, w).
Proof.
  intros Hd Hs.
  assert (authn.AuthWithConfig (authn.authConfig s st mods.RouterPrefixes) c w
          = (authn.Next (authn.NewIsRootUser (authn.NewUserID c (authn.Root_ID s))), w))
    as Hrun.
  { unfold authn.AuthWithConfig. rewrite Hs, bind_run.
    cbn [authn.authConfig authn.AuthConfig_ParseUserID authn.AuthConfig_RootID].
    unfold authn.ParseUserID. rewrite Hd. unfold ret. cbn [fst snd].
    by rewrite decide_True. }
  split.
  - eexists. split; [exact Hrun|]. by split.
  - unfold authn.authThenCasbin. rewrite bind_run, Hrun. cbn [fst snd].
    by rewrite casbin_root_passes.
Qed.

Lemma disabled_auth_makes_root_witness :
  authn.authThenCasbin Cases.moody Examples.app_cfg Cases.open_settings Cases.users
    (Cases.request "") (fresh ∅ ∅)
  = (middleware.Next, fresh ∅ ∅).
Proof.
  destruct (disabled_auth_makes_root Cases.moody Examples.app_cfg Cases.open_settings
              Cases.users (Cases.request "") (fresh ∅ ∅)) as [_ H];
    [reflexivity|reflexivity|exact H].
Defined.

(** X22.  With authentication enabled, a request that is not skipped
    and carries no token, or a token the verifier reports invalid, is
    answered 401 [com.invalid.token]; no cache or table is consulted and
    nothing changes. *)
Theorem bad_token_is_401 s st c w :
  authn.Auth_Disable s = false →
  authn.skips (authn.authConfig s st mods.RouterPrefixes) c = false →
  authn.GetToken c = "" ∨ authn.ParseSubject st (authn.GetToken c) = authn.ErrInvalidToken →
  authn.AuthWithConfig (authn.authConfig s st mods.RouterPrefixes) c w
  = (authn.Aborted (middleware.Aborted 401 authn.invalidToken), w).
Proof.
  intros Hd Hs Hbad. unfold authn.AuthWithConfig. rewrite Hs, bind_run.
  cbn [authn.authConfig authn.AuthConfig_ParseUserID].
  unfold authn.ParseUserID. rewrite Hd. cbn zeta.
  destruct (Strings.nonempty (authn.GetToken c)) eqn:Hne; cbn [negb]; [|done].
  destruct Hbad as [He|He]; [by rewrite He in Hne|]. by rewrite He.
Qed.

Lemma bad_token_is_401_witness :
  authn.AuthWithConfig (authn.authConfig Cases.auth_settings Cases.users mods.RouterPrefixes)
    (Cases.request "Bearer forged") Cases.serving
  = (authn.Aborted (middleware.Aborted 401 authn.invalidToken), Cases.serving).
Proof.
  apply (bad_token_is_401 Cases.auth_settings Cases.users (Cases.request "Bearer forged")
           Cases.serving); [reflexivity|reflexivity|by right].
Defined.

(** [ParseUserID] up to the cache read, for the token of a user who is
    not the root user. *)
Lemma ParseUserID_user s st c w userID :
  authn.Auth_Disable s = false →
  authn.GetToken c ≠ "" →
  authn.ParseSubject st (authn.GetToken c) = authn.Subject userID →
  userID ≠ authn.Root_ID s →
  authn.ParseUserID s st c w
  = let g := (cachex.Get (authn.envGet st) authn.CacheNSForUser userID w).1 in
    let w1 := add_events [EvCacheGet authn.CacheNSForUser userID g] w in
    let ctx := authn.NewUserToken c (authn.GetToken c) in
    match g with
    | (_, _, Some err) => (authn.Failed (errors.Plain err), c, w1)
    | (userCacheVal, true, None) =>
        (authn.Parsed userID,
         authn.NewUserCache ctx (authn.ParseUserCache st userCacheVal), w1)
    | (_, false, None) =>
        match authn.UserDAL_Get st userID with
        | Err err => (authn.Failed (errors.Plain err), c, w1)
        | Ok None => (authn.Failed (errors.Typed authn.invalidToken), c, w1)
        | Ok (Some user) =>
            if negb (bool_decide (authn.User_Status user = authn.UserStatusActivated))
            then (authn.Failed (errors.Typed authn.invalidToken), c, w1)
            else
              match authn.GetRoleIDs st userID with
              | Err err => (authn.Failed (errors.Plain err), c, w1)
              | Ok roleIDs =>
                  match (cachex.Set_ (authn.envSet st) authn.CacheNSForUser userID
                           (authn.MarshalToString st roleIDs) w1) with
                  | (Some err, w2) => (authn.Failed (errors.Plain err), c, w2)
                  | (None, w2) => (authn.Parsed userID, authn.NewUserCache ctx roleIDs, w2)
                  end
              end
        end
    end.
Proof.
  intros Hd Hne Hsub Hroot. unfold authn.ParseUserID. rewrite Hd. cbn zeta.
  apply nonempty_true in Hne. rewrite Hne. cbn [negb]. rewrite Hsub.
  rewrite decide_False by done. rewrite bind_run.
  assert (cachex.Get (authn.envGet st) authn.CacheNSForUser userID w
          = ((cachex.Get (authn.envGet st) authn.CacheNSForUser userID w).1,
             add_events [EvCacheGet authn.CacheNSForUser userID
                           (cachex.Get (authn.envGet st) authn.CacheNSForUser userID w).1] w))
    as Hget.
  { unfold cachex.Get, returning, get_cache. rewrite !bind_run. reflexivity. }
  rewrite Hget at 2. cbn [snd].
  destruct ((cachex.Get (authn.envGet st) authn.CacheNSForUser userID w).1)
    as [[val [|]] [err|]]; try reflexivity.
  destruct (authn.UserDAL_Get st userID) as [[user|]|err]; try reflexivity.
  destruct (negb _); [reflexivity|].
  destruct (authn.GetRoleIDs st userID) as [roleIDs|err]; [|reflexivity].
  rewrite bind_run.
  destruct (cachex.Set_ _ _ _ _ _) as [[err|] w2]; reflexivity.
Qed.

Lemma cachex_Get_found env ns key w val :
  env_cache_err env = None → cache w !! cachex.getKey ns key = Some val →
  (cachex.Get env ns key w).1 = (val, true, None).
Proof.
  intros Hok Hc. unfold cachex.Get, returning, get_cache. rewrite !bind_run.
  cbn [fst snd]. unfold ret. cbn [fst]. by rewrite Hok, Hc.
Qed.

Lemma cachex_Get_absent env ns key w :
  env_cache_err env = None → cache w !! cachex.getKey ns key = None →
  (cachex.Get env ns key w).1 = ("", false, None).
Proof.
  intros Hok Hc. unfold cachex.Get, returning, get_cache. rewrite !bind_run.
  cbn [fst snd]. unfold ret. cbn [fst]. by rewrite Hok, Hc.
Qed.

(** X23.  A user whose roles are in the cache is authenticated from the
    cache alone: the role ids handed to the casbin middleware are those
    decoded from the cache entry, and neither the user table (so a user
    frozen since is still let in) nor the user-role table is consulted,
    nor is the cache written. *)
Theorem cached_user_keeps_roles s st c w userID val :
  authn.Auth_Disable s = false →
  authn.skips (authn.authConfig s st mods.RouterPrefixes) c = false →
  authn.GetToken c ≠ "" →
  authn.ParseSubject st (authn.GetToken c) = authn.Subject userID →
  userID ≠ authn.Root_ID s →
  env_cache_err (authn.envGet st) = None →
  cache w !! cachex.getKey authn.CacheNSForUser userID = Some val →
  ∃ c',
    authn.AuthWithConfig (authn.authConfig s st mods.RouterPrefixes) c w
    = (authn.Next c',
       add_events [EvCacheGet authn.CacheNSForUser userID (val, true, None)] w)
    ∧ middleware.UserCache_RoleIDs (authn.Base c') = authn.ParseUserCache st val
    ∧ middleware.IsRootUser (authn.Base c') = middleware.IsRootUser (authn.Base c)
    ∧ authn.UserID c' = userID
    ∧ authn.UserToken c' = authn.GetToken c.
Proof.
  intros Hd Hs Hne Hsub Hroot Hok Hc.
  exists (authn.NewUserID
            (authn.NewUserCache (authn.NewUserToken c (authn.GetToken c))
                                (authn.ParseUserCache st val)) userID).
  split; [|done].
  unfold authn.AuthWithConfig. rewrite Hs, bind_run.
  cbn [authn.authConfig authn.AuthConfig_ParseUserID authn.AuthConfig_RootID].
  rewrite (ParseUserID_user s st c w userID Hd Hne Hsub Hroot). cbn zeta.
  rewrite (cachex_Get_found _ _ _ _ val Hok Hc). cbn [fst snd].
  unfold ret. by rewrite decide_False.
Qed.

Lemma cached_user_keeps_roles_witness :
  ∃ c',
    authn.AuthWithConfig
      (authn.authConfig Cases.auth_settings Cases.users mods.RouterPrefixes)
      (Cases.request "Bearer t-alice") Cases.serving
    = (authn.Next c',
       add_events [EvCacheGet authn.CacheNSForUser "alice" ("editor!", true, None)]
                  Cases.serving)
    ∧ middleware.UserCache_RoleIDs (authn.Base c')
      = authn.ParseUserCache Cases.users "editor!"
    ∧ middleware.IsRootUser (authn.Base c')
      = middleware.IsRootUser (authn.Base (Cases.request "Bearer t-alice"))
    ∧ authn.UserID c' = "alice"
    ∧ authn.UserToken c' = authn.GetToken (Cases.request "Bearer t-alice").
Proof.
  apply (cached_user_keeps_roles Cases.auth_settings Cases.users
           (Cases.request "Bearer t-alice") Cases.serving "alice" "editor!");
    (reflexivity || discriminate).
Defined.

Lemma enforceAny_request Enforce e c c' subs :
  middleware.Request_URL_Path c = middleware.Request_URL_Path c' →
  middleware.Request_Method c = middleware.Request_Method c' →
  middleware.enforceAny Enforce e c subs = middleware.enforceAny Enforce e c' subs.
Proof.
  intros Hp Hm. induction subs as [|sub subs IH]; [done|].
  cbn [middleware.enforceAny]. rewrite Hp, Hm, IH. done.
Qed.

(** X24.  Behind the authentication, the subjects the casbin middleware
    submits to the enforcer are the role ids found in the user's cache
    entry: for a user who is not the root user and whose roles are
    cached, on a path that neither middleware skips and with casbin
    enabled, the answer is the one the current enforcer generation gives
    for those role ids, in their order. *)
Theorem cached_roles_are_the_subjects Enforce cfg s st c w userID val e :
  authn.Auth_Disable s = false →
  authn.skips (authn.authConfig s st mods.RouterPrefixes) c = false →
  authn.GetToken c ≠ "" →
  authn.ParseSubject st (authn.GetToken c) = authn.Subject userID →
  userID ≠ authn.Root_ID s →
  env_cache_err (authn.envGet st) = None →
  cache w !! cachex.getKey authn.CacheNSForUser userID = Some val →
  Casbin_Disable cfg = false →
  middleware.IsRootUser (authn.Base c) = false →
  middleware.SkippedPathPrefixes (authn.Base c) (Casbin_SkippedPathPrefixes cfg) = false →
  GetEnforcer w = Some (Some e) →
  (authn.authThenCasbin Enforce cfg s st c w).1
  = middleware.enforceAny Enforce e (authn.Base c) (authn.ParseUserCache st val).
Proof.
  intros Hd Hs Hne Hsub Hroot Hok Hc Hcd Hnr Hcs He.
  unfold authn.authThenCasbin, authn.AuthWithConfig. rewrite Hs, !bind_run.
  cbn [authn.authConfig authn.AuthConfig_ParseUserID authn.AuthConfig_RootID].
  rewrite (ParseUserID_user s st c w userID Hd Hne Hsub Hroot). cbn zeta.
  rewrite (cachex_Get_found _ _ _ _ val Hok Hc). cbn [fst snd].
  unfold ret. cbn [fst snd]. rewrite decide_False by done. cbn [fst].
  unfold middleware.CasbinWithConfig.
  assert (middleware.skips
            (bootstrap.casbinConfig cfg mods.RouterPrefixes
               (add_events [EvCacheGet authn.CacheNSForUser userID (val, true, None)] w))
            (authn.Base (authn.NewUserID
                           (authn.NewUserCache (authn.NewUserToken c (authn.GetToken c))
                                               (authn.ParseUserCache st val)) userID))
          = false) as ->.
  { unfold authn.skips in Hs. cbn [authn.authConfig authn.AuthConfig_AllowedPathPrefixes
      authn.AuthConfig_SkippedPathPrefixes authn.AuthConfig_Skipper] in Hs.
    apply orb_false_iff in Hs as [Hs _]. apply orb_false_iff in Hs as [Ha _].
    unfold middleware.skips, bootstrap.casbinConfig.
    cbn [middleware.CasbinConfig_AllowedPathPrefixes
         middleware.CasbinConfig_SkippedPathPrefixes middleware.CasbinConfig_Skipper].
    rewrite Hcd. cbn [orb].
    change (middleware.AllowedPathPrefixes (authn.Base (authn.NewUserID _ userID))
              mods.RouterPrefixes)
      with (middleware.AllowedPathPrefixes (authn.Base c) mods.RouterPrefixes).
    change (middleware.SkippedPathPrefixes (authn.Base (authn.NewUserID _ userID))
              (Casbin_SkippedPathPrefixes cfg))
      with (middleware.SkippedPathPrefixes (authn.Base c) (Casbin_SkippedPathPrefixes cfg)).
    rewrite Ha, Hcs. cbn [orb authn.Base authn.NewUserID authn.NewUserCache
                           authn.NewUserToken middleware.IsRootUser].
    exact Hnr. }
  cbn [bootstrap.casbinConfig middleware.CasbinConfig_GetEnforcer
       middleware.CasbinConfig_GetSubjects].
  change (GetEnforcer (add_events _ w)) with (GetEnforcer w). rewrite He.
  by apply enforceAny_request.
Qed.

Lemma cached_roles_are_the_subjects_witness :
  (authn.authThenCasbin Cases.moody Examples.app_cfg Cases.auth_settings Cases.users
     (Cases.request "Bearer t-alice") Cases.serving).1
  = middleware.enforceAny Cases.moody Examples.old_generation
      (authn.Base (Cases.request "Bearer t-alice"))
      (authn.ParseUserCache Cases.users "editor!").
Proof.
  apply (cached_roles_are_the_subjects Cases.moody Examples.app_cfg Cases.auth_settings
           Cases.users (Cases.request "Bearer t-alice") Cases.serving "alice" "editor!"
           Examples.old_generation);
    (reflexivity || discriminate).
Defined.

(** X25.  A user whose roles are not in the cache is checked against
    the user table: when there is no such user, or the user is not
    activated, the answer is 401 [com.invalid.token] and the cache is left
    as it is; when the user is activated, the role ids are those of the
    user's rows of the user-role table, in table order, and they are
    stored in the cache under the user's id, with which the request goes
    on. *)
Theorem uncached_user_is_checked s st c w userID :
  authn.Auth_Disable s = false →
  authn.skips (authn.authConfig s st mods.RouterPrefixes) c = false →
  authn.GetToken c ≠ "" →
  authn.ParseSubject st (authn.GetToken c) = authn.Subject userID →
  userID ≠ authn.Root_ID s → userID ≠ "" →
  env_cache_err (authn.envGet st) = None →
  env_cache_err (authn.envSet st) = None →
  authn.user_err st = None → authn.user_role_err st = None →
  cache w !! cachex.getKey authn.CacheNSForUser userID = None →
  let auth := authn.AuthWithConfig (authn.authConfig s st mods.RouterPrefixes) c w in
  let roleIDs := map authn.UserRole_RoleID
                     (filter (λ ur, authn.UserRole_UserID ur = userID)
                             (authn.tbl_user_role st)) in
  ((∀ u, u ∈ authn.tbl_user st → authn.User_ID u = userID →
         authn.User_Status u ≠ authn.UserStatusActivated) →
   auth.1 = authn.Aborted (middleware.Aborted 401 authn.invalidToken)
   ∧ cache auth.2 = cache w)
  ∧ (∀ u, List.find (λ u, bool_decide (authn.User_ID u = userID)) (authn.tbl_user st)
          = Some u →
          authn.User_Status u = authn.UserStatusActivated →
          (∃ c', auth.1 = authn.Next c'
                 ∧ middleware.UserCache_RoleIDs (authn.Base c') = roleIDs
                 ∧ authn.UserID c' = userID)
          ∧ cache auth.2
            = <[cachex.getKey authn.CacheNSForUser userID
                := authn.MarshalToString st roleIDs]> (cache w)).
Proof.
  intros Hd Hs Hne Hsub Hroot Hid Hok Hok' Hue Hre Hc auth roleIDs.
  assert (auth
          = let w1 := add_events [EvCacheGet authn.CacheNSForUser userID ("", false, None)] w in
            match List.find (λ u, bool_decide (authn.User_ID u = userID)) (authn.tbl_user st) with
            | None => (authn.Aborted (middleware.Aborted 401 authn.invalidToken), w1)
            | Some u =>
                if bool_decide (authn.User_Status u = authn.UserStatusActivated)
                then (authn.Next (authn.NewUserID
                                    (authn.NewUserCache
                                       (authn.NewUserToken c (authn.GetToken c)) roleIDs)
                                    userID),
                      {| enforcer := enforcer w1; files := files w1;
                         cache := <[cachex.getKey authn.CacheNSForUser userID
                                    := authn.MarshalToString st roleIDs]> (cache w1);
                         trace := trace w1
                                  ++ [EvCacheSet authn.CacheNSForUser userID
                                        (authn.MarshalToString st roleIDs) None] |})
                else (authn.Aborted (middleware.Aborted 401 authn.invalidToken), w1)
            end) as Hrun.
  { unfold auth, authn.AuthWithConfig. rewrite Hs, bind_run.
    cbn [authn.authConfig authn.AuthConfig_ParseUserID authn.AuthConfig_RootID].
    rewrite (ParseUserID_user s st c w userID Hd Hne Hsub Hroot). cbn zeta.
    rewrite (cachex_Get_absent _ _ _ _ Hok Hc).
    unfold authn.UserDAL_Get. rewrite Hue.
    destruct (List.find _ (authn.tbl_user st)) as [u|]; [|reflexivity].
    cbn [authn.User_Status].
    destruct (bool_decide (authn.User_Status u = authn.UserStatusActivated));
      cbn [negb]; [|reflexivity].
    unfold authn.GetRoleIDs. rewrite Hre.
    assert (filter (λ ur, Is_true (dal.where_str userID
                                     (bool_decide (authn.UserRole_UserID ur = userID))))
                   (authn.tbl_user_role st)
            = filter (λ ur, authn.UserRole_UserID ur = userID) (authn.tbl_user_role st))
      as ->.
    { apply list_filter_iff. intros ur. unfold dal.where_str.
      apply nonempty_true in Hid. rewrite Hid. apply bool_decide_spec. }
    fold roleIDs.
    unfold cachex.Set_. rewrite bind_run. unfold get_cache. cbn [fst snd].
    rewrite Hok'. rewrite bind_run. unfold set_cache, returning. cbn [fst snd].
    rewrite bind_run. unfold emit, ret. cbn [fst snd].
    by rewrite decide_False. }
  rewrite Hrun. cbn zeta. split.
  - intros Hno.
    destruct (List.find _ (authn.tbl_user st)) as [u|] eqn:Hf; [|done].
    apply find_some in Hf as [Hin Hu]. apply bool_decide_eq_true in Hu.
    apply list_elem_of_In in Hin.
    rewrite bool_decide_eq_false_2 by (by apply Hno). done.
  - intros u Hf Hact. rewrite Hf. rewrite bool_decide_eq_true_2 by done.
    cbn [fst snd cache]. split; [|done]. eexists. split; [done|]. done.
Qed.

Lemma uncached_user_is_checked_witness :
  (∃ c',
     (authn.AuthWithConfig
        (authn.authConfig Cases.auth_settings Cases.users mods.RouterPrefixes)
        (Cases.request "Bearer t-bob") Cases.serving).1 = authn.Next c'
     ∧ middleware.UserCache_RoleIDs (authn.Base c') = ["exporter"; "guest"]
     ∧ authn.UserID c' = "bob")
  ∧ cache (authn.AuthWithConfig
             (authn.authConfig Cases.auth_settings Cases.users mods.RouterPrefixes)
             (Cases.request "Bearer t-bob") Cases.serving).2
    = <["user:bob" := "exporter!guest!"]> (cache Cases.serving).
Proof.
  pose proof (uncached_user_is_checked Cases.auth_settings Cases.users
                (Cases.request "Bearer t-bob") Cases.serving "bob"
                eq_refl eq_refl ltac:(discriminate) eq_refl ltac:(discriminate)
                ltac:(discriminate) eq_refl eq_refl eq_refl eq_refl eq_refl) as H.
  cbn zeta in H. destruct H as [_ H].
  apply (H (authn.mkUser "bob" "activated")); reflexivity.
Defined.

(** X26.  The token of the root user takes the request through both
    middlewares: it is marked as the root user's without any cache or
    table being consulted, and the casbin middleware lets it through
    whatever the enforcer, even when none was ever built. *)
Theorem root_token_bypasses Enforce cfg s st c w :
  authn.Auth_Disable s = false →
  authn.skips (authn.authConfig s st mods.RouterPrefixes) c = false →
  authn.GetToken c ≠ "" →
  authn.ParseSubject st (authn.GetToken c) = authn.Subject (authn.Root_ID s) →
  authn.authThenCasbin Enforce cfg s st c w = (middleware.Next, w).
Proof.
  intros Hd Hs Hne Hsub.
  unfold authn.authThenCasbin, authn.AuthWithConfig. rewrite Hs, !bind_run.
  cbn [authn.authConfig authn.AuthConfig_ParseUserID authn.AuthConfig_RootID].
  unfold authn.ParseUserID. rewrite Hd. cbn zeta.
  apply nonempty_true in Hne. rewrite Hne. cbn [negb]. rewrite Hsub.
  rewrite decide_True by done. unfold ret. cbn [fst snd].
  rewrite decide_True by done. by rewrite casbin_root_passes.
Qed.

Lemma root_token_bypasses_witness :
  authn.authThenCasbin Cases.moody Examples.app_cfg Cases.auth_settings Cases.users
    (Cases.request "Bearer t-root") (fresh ∅ ∅)
  = (middleware.Next, fresh ∅ ∅).
Proof.
  apply (root_token_bypasses Cases.moody Examples.app_cfg Cases.auth_settings Cases.users
           (Cases.request "Bearer t-root") (fresh ∅ ∅));
    (reflexivity || discriminate).
Defined.

(** ** The parent ids of a list of menus *)

Lemma split_pid_ok acc pid : split_ok acc → split_ok (scan_pid acc pid).
Proof.
  intros [Hnd Hsub]. unfold scan_pid.
  destruct (Strings.nonempty pid); [|done].
  destruct (decide (pid ∈ acc.2)) as [Hin|Hnin]; [done|].
  split; cbn [fst snd].
  - apply NoDup_app. split; [done|]. split; [|apply NoDup_singleton].
    intros x Hx ->%list_elem_of_singleton. by apply Hnin, Hsub.
  - intros x [Hx|Hx%list_elem_of_singleton]%elem_of_app; set_solver.
Qed.

Lemma split_pids_ok pids : ∀ acc, split_ok acc → split_ok (foldl scan_pid acc pids).
Proof.
  induction pids as [|pid pids IH]; intros acc Hok; [done|].
  cbn [foldl]. by apply IH, split_pid_ok.
Qed.

(** What the inner loop adds to the slice: ids of the path that are not
    empty. *)
Lemma scan_pids_new pids : ∀ acc x,
  x ∈ (foldl scan_pid acc pids).1 → x ∈ acc.1 ∨ (x ≠ "" ∧ x ∈ pids).
Proof.
  induction pids as [|pid pids IH]; intros acc x Hx; [by left|].
  cbn [foldl] in Hx. apply IH in Hx as [Hx|[Hne Hx]].
  - unfold scan_pid in Hx. destruct (Strings.nonempty pid) eqn:Hp; [|by left].
    destruct (decide (pid ∈ acc.2)); [by left|]. cbn [fst] in Hx.
    apply elem_of_app in Hx as [Hx|Hx%list_elem_of_singleton]; [by left|].
    subst x. right. split; [by apply nonempty_true|apply elem_of_cons; by left].
  - right. split; [done|]. apply elem_of_cons. by right.
Qed.

Lemma split_menu_ok acc item : split_ok acc → split_ok (split_menu acc item).
Proof.
  intros Hok. unfold split_menu.
  destruct (decide (Menu_ID item ∈ acc.2)); [done|]. cbn zeta.
  assert (split_ok (acc.1, {[Menu_ID item]} ∪ acc.2)) as Hok1.
  { destruct Hok as [Hnd Hsub]. split; [done|]. cbn [fst snd]. set_solver. }
  destruct (Strings.nonempty (Menu_ParentPath item)); [|done].
  by apply split_pids_ok.
Qed.

Lemma split_menus_ok a : ∀ acc, split_ok acc → split_ok (foldl split_menu acc a).
Proof.
  induction a as [|item a IH]; intros acc Hok; [done|].
  cbn [foldl]. by apply IH, split_menu_ok.
Qed.

Lemma split_menus_named a : ∀ acc x,
  x ∈ (foldl split_menu acc a).1 →
  x ∈ acc.1 ∨ ∃ m, m ∈ a ∧ named_in x (Menu_ParentPath m).
Proof.
  induction a as [|item a IH]; intros acc x Hx; [by left|].
  cbn [foldl] in Hx. apply IH in Hx as [Hx|(m & Hm & Hn)].
  - unfold split_menu in Hx. destruct (decide (Menu_ID item ∈ acc.2)); [by left|].
    cbn zeta in Hx. destruct (Strings.nonempty (Menu_ParentPath item)); [|by left].
    apply scan_pids_new in Hx as [Hx|[Hne Hx]]; [by left|].
    right. exists item. split; [apply elem_of_cons; by left|by split].
  - right. exists m. split; [apply elem_of_cons; by right|done].
Qed.

(** The map evolves as in [queryRoleResources]. *)
Lemma scan_pids_set pids acc acc' :
  acc.2 = acc'.2 → (foldl scan_pid acc pids).2 = (foldl scan_pid acc' pids).2.
Proof.
  intros Heq. apply set_eq. intros x. by rewrite !scan_pids_elem, Heq.
Qed.

Lemma split_menu_set acc acc' item :
  acc.2 = acc'.2 → (split_menu acc item).2 = (scan_menu acc' item).2.
Proof.
  intros Heq. unfold split_menu, scan_menu. rewrite Heq.
  destruct (decide (Menu_ID item ∈ acc'.2)); [done|]. cbn zeta.
  destruct (Strings.nonempty (Menu_ParentPath item)); [|done].
  by apply scan_pids_set.
Qed.

Lemma split_menus_set a : ∀ acc acc',
  acc.2 = acc'.2 → (foldl split_menu acc a).2 = (foldl scan_menu acc' a).2.
Proof.
  induction a as [|item a IH]; intros acc acc' Heq; [done|].
  cbn [foldl]. by apply IH, split_menu_set.
Qed.

Lemma scan_pid_covers S acc pid : covers S acc → covers S (scan_pid acc pid).
Proof.
  intros Hc x. unfold scan_pid. destruct (Strings.nonempty pid); [|apply Hc].
  destruct (decide (pid ∈ acc.2)); [apply Hc|]. cbn [fst snd].
  intros [->%elem_of_singleton|Hx]%elem_of_union.
  - left. apply elem_of_app. right. by apply list_elem_of_singleton.
  - destruct (Hc x Hx) as [?|?]; [left|by right]. apply elem_of_app. by left.
Qed.

Lemma scan_pids_covers S pids : ∀ acc, covers S acc → covers S (foldl scan_pid acc pids).
Proof.
  induction pids as [|pid pids IH]; intros acc Hc; [done|].
  cbn [foldl]. by apply IH, scan_pid_covers.
Qed.

Lemma split_menu_covers S acc item :
  S (Menu_ID item) → covers S acc → covers S (split_menu acc item).
Proof.
  intros HS Hc. unfold split_menu.
  destruct (decide (Menu_ID item ∈ acc.2)); [done|]. cbn zeta.
  assert (covers S (acc.1, {[Menu_ID item]} ∪ acc.2)) as Hc1.
  { intros x. cbn [fst snd]. intros [->%elem_of_singleton|Hx]%elem_of_union;
      [by right|by apply Hc]. }
  destruct (Strings.nonempty (Menu_ParentPath item)); [|done].
  by apply scan_pids_covers.
Qed.

Lemma split_menus_covers S a : ∀ acc,
  (∀ m, m ∈ a → S (Menu_ID m)) → covers S acc → covers S (foldl split_menu acc a).
Proof.
  induction a as [|item a IH]; intros acc HS Hc; [done|].
  cbn [foldl]. apply IH.
  - intros m Hm. apply HS, elem_of_cons. by right.
  - apply split_menu_covers; [|done]. apply HS, elem_of_cons. by left.
Qed.

(** X27.  [SplitParentIDs] returns ids without duplicate, each of them
    non-empty and named in the parent path of a menu of the list.
    Together with the ids of the menus themselves they are the ids
    [queryRoleResources] collects for the same rows.  When the ids of the
    menus are unique and their parent paths consistent, every id named in
    the parent path of a menu is returned unless it is the id of a menu
    of the list: no missing ancestor is overlooked. *)
Theorem SplitParentIDs_spec a :
  NoDup (SplitParentIDs a)
  ∧ (∀ p, p ∈ SplitParentIDs a → ∃ m, m ∈ a ∧ named_in p (Menu_ParentPath m))
  ∧ (∀ p, p ∈ collectMenuIDs a
          ↔ p ∈ SplitParentIDs a ∨ ∃ m, m ∈ a ∧ p = Menu_ID m)
  ∧ (NoDup (map Menu_ID a) → paths_closed a →
     ∀ m p, m ∈ a → named_in p (Menu_ParentPath m) →
            p ∈ SplitParentIDs a ∨ ∃ m', m' ∈ a ∧ p = Menu_ID m').
Proof.
  unfold SplitParentIDs.
  assert (split_ok (foldl split_menu ([], ∅) a)) as [Hnd Hsub].
  { apply split_menus_ok. split; [constructor|]. by intros x ?%elem_of_nil. }
  assert ((foldl split_menu ([], ∅) a).2 = (foldl scan_menu ([], ∅) a).2) as Hset
    by by apply split_menus_set.
  assert (∀ p, p ∈ collectMenuIDs a
               ↔ p ∈ (foldl split_menu ([], ∅) a).1 ∨ ∃ m, m ∈ a ∧ p = Menu_ID m) as Hiff.
  { intros p. rewrite collectMenuIDs_elem, <- Hset. split.
    - intros Hp.
      apply (split_menus_covers (λ x, ∃ m, m ∈ a ∧ x = Menu_ID m) a ([], ∅)); [| |done].
      + intros m Hm. by exists m.
      + by intros x ?%elem_of_empty.
    - intros [Hp|(m & Hm & ->)]; [by apply Hsub|].
      rewrite Hset. by apply scan_menus_ids. }
  split; [done|]. split; [|split; [done|]].
  - intros p Hp. apply split_menus_named in Hp as [Hp|Hp]; [|done].
    by apply elem_of_nil in Hp.
  - intros Hids Hclosed m p Hm Hp. apply Hiff. rewrite collectMenuIDs_elem.
    destruct (scan_menus_complete a Hids Hclosed m Hm) as [_ Hcov]. by apply Hcov.
Qed.

(** The rows of the stale table: the parent path of [m2] is never read,
    and its parent [m3] is overlooked. *)
Example SplitParentIDs_stale :
  SplitParentIDs [mkMenu "m1" "enabled" "m2" "m2."; mkMenu "m2" "enabled" "m3" "m3."]
  = ["m2"].
Proof. by_compute. Qed.

(** ** Start-up *)

Lemma load_keeps_allocated cfg env w :
  enforcer w ≠ None → enforcer (load cfg env w).2 ≠ None.
Proof.
  intros Hw. destruct (compiled cfg env) as [buf|] eqn:Hc.
  - destruct (decide (buf = "")) as [->|Hne].
    + destruct (load_quiet cfg env w) as (_ & _ & He & _); [|by rewrite He].
      intros buf. rewrite Hc. by intros [= <-].
    + destruct (load_publishing cfg env w buf Hc Hne) as (_ & _ & He & _).
      cbn zeta in He. rewrite He. unfold publishEnforcer.
      destruct (writeErr env); [done|]. by destruct (built env _ cfg).
  - destruct (load_quiet cfg env w) as (_ & _ & He & _); [|by rewrite He].
    intros buf. by rewrite Hc.
Qed.

(** X28.  [RBAC.Init] fails exactly when the migration (if configured)
    or [Load] fails, with that error; when the migration fails nothing
    else is attempted.  A failure to seed the menus from the menu file is
    logged and does not make [Init] fail.  When [Init] returns nil with
    casbin enabled, the enforcer holder is allocated, so that
    [GetEnforcer] does not panic from then on. *)
Theorem Init_outcome cfg icfg ienv env w :
  let migration := if rbac.Storage_DB_AutoMigrate icfg
                   then rbac.env_migrate_err ienv else None in
  (∀ e, migration = Some e →
        rbac.Init cfg icfg ienv env w = (Return (Some e), w))
  ∧ (migration = None →
     (rbac.Init cfg icfg ienv env w).1 = (Load cfg env w).1
     ∧ enforcer (rbac.Init cfg icfg ienv env w).2 = enforcer (Load cfg env w).2
     ∧ files (rbac.Init cfg icfg ienv env w).2 = files (Load cfg env w).2)
  ∧ ((rbac.Init cfg icfg ienv env w).1 = Return None →
     Casbin_Disable cfg = false →
     GetEnforcer (rbac.Init cfg icfg ienv env w).2 ≠ None).
Proof.
  cbn zeta. unfold rbac.Init.
  destruct (if rbac.Storage_DB_AutoMigrate icfg then rbac.env_migrate_err ienv else None)
    as [e0|] eqn:Hm.
  { split; [by intros e [= <-]|]. split; [done|]. done. }
  rewrite bind_run.
  assert (Casbin_Disable cfg = false → enforcer (Load cfg env w).2 ≠ None) as Halloc.
  { intros Hd. rewrite Load_run, Hd. by apply load_keeps_allocated. }
  split; [done|].
  destruct (Load cfg env w) as [[[err|]|msg] w1] eqn:HL; cbn [fst snd].
  - split; [done|]. done.
  - destruct (Strings.nonempty (rbac.General_MenuFile icfg)); cbn zeta.
    + destruct (rbac.env_menu_file_err ienv _) as [err|].
      * rewrite bind_run. unfold logging.Error, emit, ret. cbn [fst snd enforcer files].
        split; [done|]. intros _ Hd. by apply Halloc.
      * unfold ret. cbn [fst snd]. split; [done|]. intros _ Hd.
        by apply Halloc.
    + unfold ret. cbn [fst snd]. split; [done|]. intros _ Hd.
      by apply Halloc.
  - split; [done|]. done.
Qed.

(** ** The tree of menus *)

Lemma ToMap_snoc h a item :
  menus.ToMap h (a ++ [item])
  = m ← menus.ToMap h a; n ← h !! item; Some (<[menus.Node_ID n := item]> m).
Proof. unfold menus.ToMap. by rewrite foldl_app. Qed.

(** [ToMap] panics exactly on a nil item; an id is mapped to the last
    item that carries it. *)
Lemma ToMap_spec h a :
  (Forall (λ i, is_Some (h !! i)) a ↔ is_Some (menus.ToMap h a))
  ∧ ∀ m, menus.ToMap h a = Some m →
         ∀ id, m !! id = last (filter (λ j, menus.Node_ID (menus.node h j) = id) a).
Proof.
  induction a as [|item a IH] using rev_ind.
  { split; [split; [by eexists|constructor]|]. intros m [= <-] id. done. }
  destruct IH as [Hal Hm]. rewrite ToMap_snoc. split.
  - rewrite Forall_app, Forall_singleton, Hal.
    destruct (menus.ToMap h a) as [m|]; cbn.
    + destruct (h !! item); cbn; unfold is_Some; naive_solver.
    + unfold is_Some; naive_solver.
  - intros m' Hm'. destruct (menus.ToMap h a) as [m|]; cbn in Hm'; [|done].
    destruct (h !! item) as [n|] eqn:Hn; cbn in Hm'; [|done].
    injection Hm' as <-. intros id. rewrite filter_app, filter_cons, filter_nil.
    assert (menus.node h item = n) as -> by (unfold menus.node; by rewrite Hn).
    destruct (decide (menus.Node_ID n = id)) as [<-|Hne].
    + by rewrite lookup_insert_eq, last_snoc.
    + rewrite lookup_insert_ne by done. rewrite app_nil_r. by apply Hm.
Qed.

(** The loop of [ToTree] leaves the ids and parent ids alone. *)
Lemma tree_step_fields m st item i :
  menus.Node_ID (menus.node (menus.tree_step m st item).2 i)
  = menus.Node_ID (menus.node st.2 i)
  ∧ menus.Node_ParentID (menus.node (menus.tree_step m st item).2 i)
    = menus.Node_ParentID (menus.node st.2 i).
Proof.
  unfold menus.tree_step. cbn zeta.
  destruct (decide (menus.Node_ParentID (menus.node st.2 item) = "")); [done|].
  destruct (m !! _) as [parent|]; [|done]. cbn [snd]. unfold menus.node.
  destruct (decide (parent = i)) as [->|Hne].
  - by rewrite lookup_insert_eq.
  - by rewrite lookup_insert_ne.
Qed.

Lemma tree_step_kids m st item p :
  menus.kids (menus.tree_step m st item).2 p
  = menus.kids st.2 p
    ++ (if decide (menus.Node_ParentID (menus.node st.2 item) ≠ ""
                   ∧ m !! menus.Node_ParentID (menus.node st.2 item) = Some p)
        then [item] else []).
Proof.
  unfold menus.tree_step. cbn zeta.
  destruct (decide (menus.Node_ParentID (menus.node st.2 item) = "")) as [He|Hne].
  { rewrite decide_False by (by intros [? _]). by rewrite app_nil_r. }
  destruct (m !! _) as [parent|] eqn:Hm; cbn [snd].
  - unfold menus.kids, menus.node. destruct (decide (parent = p)) as [->|Hp].
    + rewrite lookup_insert_eq. rewrite decide_True by done.
      destruct (st.2 !! p) as [n|]; cbn; [by destruct (menus.Children n)|done].
    + rewrite lookup_insert_ne by done.
      rewrite decide_False by (intros [_ [= ?]]; done). by rewrite app_nil_r.
  - rewrite decide_False by (by intros [_ ?]). by rewrite app_nil_r.
Qed.

Lemma tree_loop m h0 l : ∀ st,
  (∀ i, menus.Node_ParentID (menus.node st.2 i) = menus.Node_ParentID (menus.node h0 i)) →
  (foldl (menus.tree_step m) st l).1
  = st.1 ++ filter (λ i, menus.Node_ParentID (menus.node h0 i) = "") l
  ∧ (∀ p, menus.kids (foldl (menus.tree_step m) st l).2 p
          = menus.kids st.2 p
            ++ filter (λ i, menus.Node_ParentID (menus.node h0 i) ≠ ""
                            ∧ m !! menus.Node_ParentID (menus.node h0 i) = Some p) l)
  ∧ (∀ i, menus.Node_ID (menus.node (foldl (menus.tree_step m) st l).2 i)
          = menus.Node_ID (menus.node st.2 i)).
Proof.
  induction l as [|item l IH]; intros st Hf.
  { cbn [foldl]. rewrite !filter_nil, app_nil_r. split; [done|]. split; [|done].
    intros p. by rewrite filter_nil, app_nil_r. }
  cbn [foldl].
  destruct (IH (menus.tree_step m st item)) as (Hroots & Hkids & Hids).
  { intros i. destruct (tree_step_fields m st item i) as [_ ->]. apply Hf. }
  split; [|split].
  - rewrite Hroots, filter_cons. unfold menus.tree_step at 1. cbn zeta.
    rewrite <- (Hf item).
    destruct (decide (menus.Node_ParentID (menus.node st.2 item) = "")); cbn [fst].
    + by rewrite <- app_assoc.
    + by destruct (m !! _).
  - intros p. rewrite Hkids, tree_step_kids, filter_cons, <- app_assoc. rewrite (Hf item).
    by destruct (decide _).
  - intros i. rewrite Hids. by destruct (tree_step_fields m st item i) as [-> _].
Qed.

(** X29.  [ToTree] panics exactly when an item is nil.  Otherwise the
    roots it returns are the items without a parent id, in order, and
    every other item is appended, in order, to the children of the last
    item of the list that carries its parent id, after the children that
    item already had; an item whose parent id is carried by no item of
    the list is in neither place.  Ids and parent ids are left alone. *)
Theorem ToTree_spec h a :
  (Forall (λ i, is_Some (h !! i)) a ↔ is_Some (menus.ToTree h a))
  ∧ ∀ roots h', menus.ToTree h a = Some (roots, h') →
      roots = filter (λ i, menus.Node_ParentID (menus.node h i) = "") a
      ∧ (∀ p, menus.kids h' p
              = menus.kids h p
                ++ filter (λ i, menus.Node_ParentID (menus.node h i) ≠ ""
                                ∧ last (filter (λ j, menus.Node_ID (menus.node h j)
                                                     = menus.Node_ParentID (menus.node h i)) a)
                                  = Some p) a)
      ∧ (∀ i, menus.Node_ParentID (menus.node h i) ≠ "" →
              (∀ j, j ∈ a → menus.Node_ID (menus.node h j)
                            ≠ menus.Node_ParentID (menus.node h i)) →
              (i ∉ roots) ∧ ∀ p, i ∈ menus.kids h' p → i ∈ menus.kids h p)
      ∧ (∀ i, menus.Node_ID (menus.node h' i) = menus.Node_ID (menus.node h i)
              ∧ menus.Node_ParentID (menus.node h' i)
                = menus.Node_ParentID (menus.node h i)).
Proof.
  destruct (ToMap_spec h a) as [Hal Hm]. unfold menus.ToTree. split.
  - rewrite Hal. destruct (menus.ToMap h a); cbn; [|done]. split; by eexists.
  - intros roots h'. destruct (menus.ToMap h a) as [m|]; cbn; [|done].
    intros [= Hfold]. specialize (Hm m eq_refl).
    destruct (tree_loop m h a ([], h)) as (Hroots & Hkids & Hids); [done|].
    rewrite Hfold in Hroots, Hkids, Hids. cbn [fst snd] in *.
    assert (∀ p, menus.kids h' p
              = menus.kids h p
                ++ filter (λ i, menus.Node_ParentID (menus.node h i) ≠ ""
                                ∧ last (filter (λ j, menus.Node_ID (menus.node h j)
                                                     = menus.Node_ParentID (menus.node h i)) a)
                                  = Some p) a) as Hkids'.
    { intros p. rewrite Hkids. f_equal. apply list_filter_iff. intros i.
      by rewrite Hm. }
    split; [done|]. split; [done|]. split.
    + intros i Hpid Hnone. split.
      * rewrite Hroots. by intros [? _]%list_elem_of_filter.
      * intros p. rewrite Hkids'. intros [Hin|Hin]%elem_of_app; [done|].
        apply list_elem_of_filter in Hin as [[_ Hlast] _]. exfalso.
        apply last_Some_elem_of, list_elem_of_filter in Hlast as [Hid Hp].
        by apply (Hnone p).
    + intros i. split; [apply Hids|].
      pose proof (tree_loop m h a ([], h)) as Hl.
      assert (∀ l st, (∀ i, menus.Node_ParentID (menus.node st.2 i)
                            = menus.Node_ParentID (menus.node h i)) →
                ∀ i, menus.Node_ParentID (menus.node (foldl (menus.tree_step m) st l).2 i)
                     = menus.Node_ParentID (menus.node h i)) as Hp.
      { clear. induction l as [|item l IH]; intros st Hf i; [apply Hf|].
        cbn [foldl]. apply IH. intros j.
        destruct (tree_step_fields m st item j) as [_ ->]. apply Hf. }
      specialize (Hp a ([], h) (λ _, eq_refl) i). by rewrite Hfold in Hp.
Qed.

(** A menu whose parent is not in the list is dropped; a menu that is
    its own parent becomes its own child. *)
Example ToTree_orphan_and_loop :
  let h : menus.Heap := {[ 1%nat := menus.mkNode "a" "" None;
                           2%nat := menus.mkNode "b" "gone" None;
                           3%nat := menus.mkNode "c" "c" None ]} in
  ∃ h', menus.ToTree h [1%nat; 2%nat; 3%nat] = Some ([1%nat], h')
        ∧ menus.kids h' 1 = [] ∧ menus.kids h' 2 = [] ∧ menus.kids h' 3 = [3%nat].
Proof. cbn zeta. eexists. split; [reflexivity|]. by vm_compute. Qed.

Lemma ToMap_total h a :
  Forall (λ i, is_Some (h !! i)) a →
  menus.ToMap h a
  = Some (foldl (λ m item, <[menus.Node_ID (menus.node h item) := item]> m) ∅ a).
Proof.
  induction a as [|item a IH] using rev_ind; [done|].
  rewrite Forall_app, Forall_singleton. intros [Ha [n Hn]].
  rewrite ToMap_snoc, IH by done. cbn. rewrite Hn. cbn. rewrite foldl_app. cbn [foldl].
  unfold menus.node at 2. by rewrite Hn.
Qed.

Lemma tree_step_allocated m st item i :
  is_Some (st.2 !! i) → is_Some ((menus.tree_step m st item).2 !! i).
Proof.
  intros Hi. unfold menus.tree_step. cbn zeta.
  destruct (decide (menus.Node_ParentID (menus.node st.2 item) = "")); [done|].
  destruct (m !! _) as [parent|]; [|done]. cbn [snd].
  destruct (decide (parent = i)) as [->|Hne].
  - rewrite lookup_insert_eq. by eexists.
  - by rewrite lookup_insert_ne.
Qed.

Lemma tree_loop_allocated m l : ∀ st i,
  is_Some (st.2 !! i) → is_Some ((foldl (menus.tree_step m) st l).2 !! i).
Proof.
  induction l as [|item l IH]; intros st i Hi; [done|].
  cbn [foldl]. by apply IH, tree_step_allocated.
Qed.

Lemma tree_loop_fields m l : ∀ st i,
  menus.Node_ID (menus.node (foldl (menus.tree_step m) st l).2 i)
  = menus.Node_ID (menus.node st.2 i)
  ∧ menus.Node_ParentID (menus.node (foldl (menus.tree_step m) st l).2 i)
    = menus.Node_ParentID (menus.node st.2 i).
Proof.
  induction l as [|item l IH]; intros st i; [done|].
  cbn [foldl]. destruct (IH (menus.tree_step m st item) i) as [-> ->].
  apply tree_step_fields.
Qed.

(** X30.  [ToTree] is not idempotent: it appends to the children the
    menus already have, so a second call on the same menus returns the
    same roots and leaves every adopted child twice among the children of
    its parent. *)
Theorem ToTree_twice h a roots h' :
  menus.ToTree h a = Some (roots, h') →
  ∃ h'', menus.ToTree h' a = Some (roots, h'')
         ∧ ∀ p, ∃ adopted,
             menus.kids h' p = menus.kids h p ++ adopted
             ∧ menus.kids h'' p = menus.kids h p ++ adopted ++ adopted.
Proof.
  intros Hrun.
  assert (Forall (λ i, is_Some (h !! i)) a) as Hal.
  { apply ToMap_spec. unfold menus.ToTree in Hrun.
    destruct (menus.ToMap h a); [by eexists|done]. }
  unfold menus.ToTree in *. rewrite (ToMap_total h a Hal) in Hrun. cbn in Hrun.
  injection Hrun as Hfold.
  set (m := foldl (λ m item, <[menus.Node_ID (menus.node h item) := item]> m) ∅ a) in *.
  destruct (tree_loop m h a ([], h)) as (Hroots & Hkids & _); [done|].
  rewrite Hfold in Hroots, Hkids. cbn [fst snd] in *.
  assert (∀ i, menus.Node_ID (menus.node h' i) = menus.Node_ID (menus.node h i)
               ∧ menus.Node_ParentID (menus.node h' i)
                 = menus.Node_ParentID (menus.node h i)) as Hfields.
  { intros i. pose proof (tree_loop_fields m a ([], h) i) as Hf. by rewrite Hfold in Hf. }
  assert (Forall (λ i, is_Some (h' !! i)) a) as Hal'.
  { eapply Forall_impl; [exact Hal|]. intros i Hi.
    pose proof (tree_loop_allocated m a ([], h) i Hi) as Ha. by rewrite Hfold in Ha. }
  assert (foldl (λ m item, <[menus.Node_ID (menus.node h' item) := item]> m) ∅ a = m) as Hm'.
  { unfold m. generalize (∅ : gmap string nat). clear -Hfields.
    induction a as [|item a IH]; intros m0; [done|].
    cbn [foldl]. destruct (Hfields item) as [-> _]. apply IH. }
  rewrite (ToMap_total h' a Hal'), Hm'. cbn.
  destruct (foldl (menus.tree_step m) ([], h') a) as [roots2 h''] eqn:Hfold2.
  destruct (tree_loop m h' a ([], h')) as (Hroots2 & Hkids2 & _); [done|].
  rewrite Hfold2 in Hroots2, Hkids2. cbn [fst snd] in *.
  exists h''. split.
  - do 2 f_equal. rewrite Hroots2, Hroots. cbn [app]. apply list_filter_iff.
    intros i. by destruct (Hfields i) as [_ ->].
  - intros p.
    exists (filter (λ i, menus.Node_ParentID (menus.node h i) ≠ ""
                         ∧ m !! menus.Node_ParentID (menus.node h i) = Some p) a).
    split; [apply Hkids|]. rewrite Hkids2, Hkids, <- app_assoc. do 2 f_equal.
    apply list_filter_iff. intros i. by destruct (Hfields i) as [_ ->].
Qed.

Lemma ToTree_twice_witness :
  ∃ h'', menus.ToTree
           {[ 1%nat := menus.mkNode "a" "" (Some [2%nat]);
              2%nat := menus.mkNode "b" "a" None ]} [1%nat; 2%nat]
         = Some ([1%nat], h'')
         ∧ ∀ p, ∃ adopted,
             menus.kids {[ 1%nat := menus.mkNode "a" "" (Some [2%nat]);
                           2%nat := menus.mkNode "b" "a" None ]} p
             = menus.kids {[ 1%nat := menus.mkNode "a" "" None;
                             2%nat := menus.mkNode "b" "a" None ]} p ++ adopted
             ∧ menus.kids h'' p
               = menus.kids {[ 1%nat := menus.mkNode "a" "" None;
                               2%nat := menus.mkNode "b" "a" None ]} p
                 ++ adopted ++ adopted.
Proof.
  apply (ToTree_twice {[ 1%nat := menus.mkNode "a" "" None;
                         2%nat := menus.mkNode "b" "a" None ]} [1%nat; 2%nat] [1%nat]).
  reflexivity.
Defined.
